(** * Re:Verb bracket engine: a shallow embedding of [lib/bracket.ts] and of
    the tournament routes that drive it, with the properties checked
    against the design document.

    Conventions of the embedding.
    - A JavaScript [string] is a [string]; a track identifier is such a string.
    - [WinnerMap = Record<string, string>] is a [gmap string string]; reading a
      missing key yields [undefined], here [None].
    - The source tests presence with JavaScript truthiness ([!x]): both
      [undefined] and the empty string are falsy.  [truthy] below is that test.
    - Round and match indices are integers ([Z]); array lengths and loop
      counters are naturals.
    - Requests are served one after the other; what a request reads from
      Spotify, the session and the clock are its inputs. *)

From stdpp Require Import gmap strings list fin_maps pretty.
From Stdlib Require Import ZArith Lia Permutation Ascii.
From Equations Require Import Equations.

#[local] Set Warnings "-clear-no-such-hyp".

Local Open Scope string_scope.
Local Open Scope list_scope.
Local Open Scope nat_scope.

(** * Part I: the embedding *)

(** ** JavaScript primitives used by the source *)

Module Js.

(** [!!x] for a value of type [string | undefined | null]. *)
Definition truthy (o : option string) : bool :=
  match o with
  | Some s => negb (String.eqb s "")
  | None => false
  end.

(** [ToInt32] and [ToUint32] on integers. *)
Definition toInt32 (z : Z) : Z := ((z + 2 ^ 31) mod 2 ^ 32 - 2 ^ 31)%Z.
Definition toUint32 (z : Z) : Z := (z mod 2 ^ 32)%Z.

(** [a | b], [a & b], [a ^ b], [a >>> n] and [Math.imul(a, b)]. *)
Definition or32 (a b : Z) : Z := toInt32 (Z.lor (toInt32 a) (toInt32 b)).
Definition and32 (a b : Z) : Z := toInt32 (Z.land (toInt32 a) (toInt32 b)).
Definition xor32 (a b : Z) : Z := toInt32 (Z.lxor (toInt32 a) (toInt32 b)).
Definition ushr (a n : Z) : Z := Z.shiftr (toUint32 a) n.
Definition imul (a b : Z) : Z := toInt32 (toInt32 a * toInt32 b).

(** [2 ** Math.floor(Math.log2(n))] for an array length [n]:
    [Math.log2(0)] is [-Infinity] and [2 ** -Infinity] is [0]. *)
Definition floorPow2 (n : nat) : nat :=
  match n with
  | O => 0
  | S _ => 2 ^ Nat.log2 n
  end.

(** [arr[i]] for an integer index: [undefined] out of range. *)
Definition index {A} (arr : list A) (i : Z) : option A :=
  if (i <? 0)%Z then None else arr !! Z.to_nat i.

(** A call either returns or throws. *)
Inductive res (A : Type) : Type :=
| Ret (a : A)
| Throw (message : string).
Arguments Ret {A} a.
Arguments Throw {A} message.

End Js.

Import Js.

(** ** [lib/bracket.ts] *)

Module Bracket.

Abbreviation WinnerMap := (gmap string string).

Record MatchRef := {
  round : Z;
  match_ : Z;
  a : string;
  b : string;
}.

(** [Number.isInteger(n) && n > 0 && (n & (n - 1)) === 0] on an array
    length. *)
Definition isPowerOfTwo (n : nat) : bool :=
  (0 <? n)%nat && (and32 (Z.of_nat n) (Z.of_nat n - 1) =? 0)%Z.

(** [Math.log2] of a power of two is exact, hence [Nat.log2]. *)
Definition totalRounds (size : nat) : res nat :=
  if isPowerOfTwo size then Ret (Nat.log2 size)
  else Throw "Bracket size must be power of two".

(** The template literal [`r${round}m${match}`]; [pretty] prints an
    integer in decimal with a leading minus sign for negatives, as
    JavaScript does for integers below 1e21. *)
Definition matchKey (round match_ : Z) : string :=
  "r" +:+ pretty round +:+ "m" +:+ pretty match_.

(** [size / 2 ** (round + 1)].  Every caller runs after [totalRounds]
    with [round] below it, where the quotient is exact. *)
Definition matchCount (size round : nat) : nat :=
  (size / 2 ^ (round + 1))%nat.

Definition resolveMatchParticipants
    (size : nat) (tracks : list string) (winners : WinnerMap)
    (round match_ : Z) : option (string * string) :=
  if negb (length tracks =? size)%nat then None
  else if (round <? 0)%Z then None
  else if (round =? 0)%Z then
    let a := index tracks (match_ * 2) in
    let b := index tracks (match_ * 2 + 1) in
    match a, b with
    | Some a, Some b =>
        if negb (truthy (Some a)) || negb (truthy (Some b)) then None
        else Some (a, b)
    | _, _ => None
    end
  else
    let prevRound := (round - 1)%Z in
    let prevA := winners !! matchKey prevRound (match_ * 2) in
    let prevB := winners !! matchKey prevRound (match_ * 2 + 1) in
    match prevA, prevB with
    | Some prevA, Some prevB =>
        if negb (truthy (Some prevA)) || negb (truthy (Some prevB)) then None
        else Some (prevA, prevB)
    | _, _ => None
    end.

(** The inner [for (let m = 0; m < matches; m++)] of [nextOpenMatch], over
    the remaining indices [ms]; [None] when the loop runs to its end. *)
Fixpoint nextOpenIn (size : nat) (tracks : list string) (winners : WinnerMap)
    (r : nat) (ms : list nat) : option MatchRef :=
  match ms with
  | [] => None
  | m :: ms' =>
      let k := matchKey (Z.of_nat r) (Z.of_nat m) in
      if truthy (winners !! k) then nextOpenIn size tracks winners r ms'
      else
        match resolveMatchParticipants size tracks winners
                (Z.of_nat r) (Z.of_nat m) with
        | None => nextOpenIn size tracks winners r ms'
        | Some (pa, pb) =>
            Some {| round := Z.of_nat r; match_ := Z.of_nat m;
                    a := pa; b := pb |}
        end
  end.

(** The outer [for (let r = 0; r < rounds; r++)]. *)
Fixpoint nextOpenFrom (size : nat) (tracks : list string)
    (winners : WinnerMap) (rs : list nat) : option MatchRef :=
  match rs with
  | [] => None
  | r :: rs' =>
      match nextOpenIn size tracks winners r (seq 0 (matchCount size r)) with
      | Some found => Some found
      | None => nextOpenFrom size tracks winners rs'
      end
  end.

Definition nextOpenMatch (size : nat) (tracks : list string)
    (winners : WinnerMap) : res (option MatchRef) :=
  match totalRounds size with
  | Throw e => Throw e
  | Ret rounds => Ret (nextOpenFrom size tracks winners (seq 0 rounds))
  end.

Definition bracketWinner (size : nat) (winners : WinnerMap)
    : res (option string) :=
  match totalRounds size with
  | Throw e => Throw e
  | Ret rounds =>
      let k := matchKey (Z.of_nat rounds - 1) 0 in
      let winner := winners !! k in
      if negb (truthy winner) then Ret None else Ret winner
  end.

(** The two locals that the loops of [computeRanking] update. *)
Record RankAcc := {
  loserByRound : list (list string);
  runnerUp : option string;
}.

(** Inner loop of [computeRanking] over the remaining match indices;
    [None] is the early [return null]. *)
Fixpoint rankMatches (size : nat) (tracks : list string) (winners : WinnerMap)
    (rounds r : nat) (ms : list nat) (acc : RankAcc) : option RankAcc :=
  match ms with
  | [] => Some acc
  | m :: ms' =>
      match resolveMatchParticipants size tracks winners
              (Z.of_nat r) (Z.of_nat m) with
      | None => None
      | Some (pa, pb) =>
          let win := winners !! matchKey (Z.of_nat r) (Z.of_nat m) in
          match win with
          | None => None
          | Some win =>
              if negb (truthy (Some win)) then None
              else
                let lose := if String.eqb win pa then pb else pa in
                let acc' :=
                  if (r =? rounds - 1)%nat
                  then {| loserByRound := loserByRound acc;
                          runnerUp := Some lose |}
                  else {| loserByRound :=
                            alter (λ l, l ++ [lose]) r (loserByRound acc);
                          runnerUp := runnerUp acc |} in
                rankMatches size tracks winners rounds r ms' acc'
          end
      end
  end.

Fixpoint rankRounds (size : nat) (tracks : list string) (winners : WinnerMap)
    (rounds : nat) (rs : list nat) (acc : RankAcc) : option RankAcc :=
  match rs with
  | [] => Some acc
  | r :: rs' =>
      match rankMatches size tracks winners rounds r
              (seq 0 (matchCount size r)) acc with
      | None => None
      | Some acc' => rankRounds size tracks winners rounds rs' acc'
      end
  end.

(** [for (let r = rounds - 2; r >= 0; r--) ranking.push(...loserByRound[r])]
    over the descending indices [rs]. *)
Fixpoint pushLosers (loserByRound : list (list string)) (rs : list nat)
    (ranking : list string) : list string :=
  match rs with
  | [] => ranking
  | r :: rs' =>
      pushLosers loserByRound rs' (ranking ++ default [] (loserByRound !! r))
  end.

Definition computeRanking (size : nat) (tracks : list string)
    (winners : WinnerMap) : res (option (list string)) :=
  match totalRounds size with
  | Throw e => Throw e
  | Ret rounds =>
      match bracketWinner size winners with
      | Throw e => Throw e
      | Ret None => Ret None
      | Ret (Some finalWinner) =>
          let acc0 := {| loserByRound := replicate rounds [];
                         runnerUp := None |} in
          match rankRounds size tracks winners rounds (seq 0 rounds) acc0 with
          | None => Ret None
          | Some acc =>
              match runnerUp acc with
              | None => Ret None
              | Some ru =>
                  if negb (truthy (Some ru)) then Ret None
                  else
                    Ret (Some (pushLosers (loserByRound acc)
                                 (reverse (seq 0 (rounds - 1)))
                                 [finalWinner; ru]))
              end
          end
      end
  end.

End Bracket.

Import Bracket.

(** ** [mulberry32] and [seededShuffle]

    Arrays live in a store: [arr.slice()] allocates, the swap writes in
    place.  The generator's closure variable [a] is threaded through the
    loop. *)

Module Shuffle.

(** The closure state after [let a = seed >>> 0]. *)
Definition mulberry32 (seed : Z) : Z := ushr seed 0.

(** One call of the closure: the new [a], and the numerator [u] of the
    returned float [u / 4294967296]. *)
Definition mulberry32_next (a : Z) : Z * Z :=
  let a := or32 a 0 in
  let a := or32 (a + 0x6d2b79f5)%Z 0 in
  let t := imul (xor32 a (ushr a 15)) (or32 1 a) in
  let t := xor32 (t + imul (xor32 t (ushr t 7)) (or32 61 t))%Z t in
  (a, ushr (xor32 t (ushr t 14)) 0).

(** [Math.floor(rand() * (i + 1))] with [rand() = u / 2^32]; the product
    is exact in double precision for arrays shorter than 2^21. *)
Definition pickIndex (u : Z) (i : nat) : nat :=
  Z.to_nat (u * (Z.of_nat i + 1) / 2 ^ 32)%Z.

Section Store.
Context {T : Type}.

Abbreviation store := (gmap positive (list T)).

(** A computation on the store. *)
Definition ST (A : Type) : Type := store → A * store.
Definition ret {A} (x : A) : ST A := λ h, (x, h).
Definition bind {A B} (c : ST A) (k : A → ST B) : ST B :=
  λ h, let '(x, h') := c h in k x h'.

(** [arr.slice()]: a fresh array with the same contents. *)
Definition slice (arr : positive) : ST positive :=
  λ h, let out := fresh (dom h) in
       (out, <[out := default [] (h !! arr)]> h).

Definition arrayLength (arr : positive) : ST nat :=
  λ h, (length (default [] (h !! arr)), h).

(** [[out[i], out[j]] = [out[j]!, out[i]!]]; both indices are in range
    at every call, so the array never grows. *)
Definition swap (out : positive) (i j : nat) : ST unit :=
  λ h, match h !! out with
       | Some l =>
           match l !! i, l !! j with
           | Some xi, Some xj => (tt, <[out := <[j := xi]> (<[i := xj]> l)]> h)
           | _, _ => (tt, h)
           end
       | None => (tt, h)
       end.

(** [for (let i = ...; i > 0; i--)] from the current [i], with the
    generator state [a]. *)
Fixpoint shuffleLoop (out : positive) (i : nat) (a : Z) : ST unit :=
  match i with
  | O => ret tt
  | S i' =>
      let '(a', u) := mulberry32_next a in
      let j := pickIndex u i in
      bind (swap out i j) (λ _, shuffleLoop out i' a')
  end.

Definition seededShuffle (arr : positive) (seed : Z) : ST positive :=
  bind (slice arr) (λ out,
  bind (arrayLength out) (λ len,
  bind (shuffleLoop out (len - 1) (mulberry32 seed)) (λ _,
  ret out))).

(** A call on an array literal, as the routes make it: the argument is
    the only array in scope. *)
Definition shuffled (l : list T) (seed : Z) : list T :=
  let '(out, h) := seededShuffle 1%positive seed {[ 1%positive := l ]} in
  default [] (h !! out).

End Store.

End Shuffle.

(** ** Sizing and selection ([POST /tournaments/:id/start]) *)

Module Sizing.

(** A candidate track: its 1-based rank and its identifier (the display
    metadata plays no part in sizing). *)
Record RankedTrack := {
  rank : nat;
  trk_id : string;
}.

(** The loop of [pickUnique] and of [uniqueById], with its local [out]
    and the caller's [seen] set, which it updates in place. *)
Fixpoint pickUniqueFrom (tracks : list RankedTrack) (want : nat)
    (seen : gset string) (out : list RankedTrack)
    : list RankedTrack * gset string :=
  match tracks with
  | [] => (out, seen)
  | rt :: rest =>
      if want <=? length out then (out, seen)
      else if decide (trk_id rt ∈ seen)
           then pickUniqueFrom rest want seen out
           else pickUniqueFrom rest want ({[ trk_id rt ]} ∪ seen) (out ++ [rt])
  end.

Definition pickUnique (tracks : list RankedTrack) (want : nat)
    (seen : gset string) : list RankedTrack * gset string :=
  pickUniqueFrom tracks want seen [].

Fixpoint uniqueByIdFrom (arr : list RankedTrack) (seen : gset string)
    (out : list RankedTrack) : list RankedTrack :=
  match arr with
  | [] => out
  | rt :: rest =>
      if decide (trk_id rt ∈ seen) then uniqueByIdFrom rest seen out
      else uniqueByIdFrom rest ({[ trk_id rt ]} ∪ seen) (out ++ [rt])
  end.

Definition uniqueById (arr : list RankedTrack) : list RankedTrack :=
  uniqueByIdFrom arr ∅ [].

(** What one pass through the body of [while (true)] decides. *)
Inductive Step :=
| Fail                                      (* [not_enough_tracks] *)
| Accept (hostTracks challengerTracks : list RankedTrack)
| Retry (perUser : nat).

(** The picks of one pass: one [seen] set shared by both calls. *)
Definition picks (host challenger : list RankedTrack) (perUser : nat)
    : list RankedTrack * list RankedTrack :=
  let '(hostPicked, seen) := pickUnique host perUser ∅ in
  let '(challengerPicked, _) := pickUnique challenger perUser seen in
  (hostPicked, challengerPicked).

Definition effectiveOf (host challenger : list RankedTrack) (perUser : nat)
    : nat :=
  let '(hostPicked, challengerPicked) := picks host challenger perUser in
  length hostPicked `min` length challengerPicked.

Definition loopBody (host challenger : list RankedTrack) (perUser : nat)
    : Step :=
  let '(hostPicked, challengerPicked) := picks host challenger perUser in
  let effective := length hostPicked `min` length challengerPicked in
  let effectivePow2 := floorPow2 effective in
  if effectivePow2 <? 4 then Fail
  else if effectivePow2 =? perUser
       then Accept (take perUser hostPicked) (take perUser challengerPicked)
       else Retry effectivePow2.

(** Result of the whole loop: the final [perUser] with both selections. *)
Inductive Sized :=
| NotEnough
| Selected (perUser : nat) (hostTracks challengerTracks : list RankedTrack).

Definition inspect {A} (x : A) : { y : A | x = y } := exist _ x eq_refl.

(** [let perUser = requestedPerUser; while (true) { ... }]. *)
Equations sizingLoop (host challenger : list RankedTrack) (perUser : nat)
    : Sized by wf perUser lt :=
  sizingLoop host challenger perUser
      with inspect (loopBody host challenger perUser) := {
    | exist _ Fail _ => NotEnough
    | exist _ (Accept hostTracks challengerTracks) _ =>
        Selected perUser hostTracks challengerTracks
    | exist _ (Retry next) Hstep => sizingLoop host challenger next }.
Next Obligation.
  (* Termination: the rounded value is at most the number of host picks,
     itself at most [perUser], and differs from [perUser] on a retry. *)
  assert (∀ tracks seen out,
            length out ≤ perUser →
            length (pickUniqueFrom tracks perUser seen out).1 ≤ perUser)
    as Hbound.
  { induction tracks as [|rt rest IH]; intros seen out Hle; [exact Hle|].
    simpl. destruct (perUser <=? length out) eqn:Hfull; [exact Hle|].
    apply Nat.leb_gt in Hfull.
    destruct (decide (trk_id rt ∈ seen)); apply IH; [exact Hle|].
    rewrite length_app. simpl. lia. }
  revert Hstep. unfold loopBody, picks, pickUnique.
  specialize (Hbound host ∅ [] ltac:(simpl; lia)).
  destruct (pickUniqueFrom host perUser ∅ []) as [hostPicked seen].
  destruct (pickUniqueFrom challenger perUser seen []) as [challengerPicked ?].
  simpl in Hbound.
  set (effective := length hostPicked `min` length challengerPicked).
  assert (floorPow2 effective ≤ effective) as Hfloor.
  { destruct effective as [|e]; [done|]. unfold floorPow2.
    apply Nat.log2_spec. lia. }
  destruct (floorPow2 effective <? 4); [discriminate|].
  destruct (floorPow2 effective =? perUser) eqn:Heq; [discriminate|].
  apply Nat.eqb_neq in Heq. intros [= <-].
  pose proof (Nat.le_min_l (length hostPicked) (length challengerPicked)).
  lia.
Qed.

(** The same loop cut off after [fuel] passes; [None] when the passes
    run out. *)
Fixpoint sizingLoopWithin (fuel : nat) (host challenger : list RankedTrack)
    (perUser : nat) : option Sized :=
  match fuel with
  | O => None
  | S fuel' =>
      match loopBody host challenger perUser with
      | Fail => Some NotEnough
      | Accept hostTracks challengerTracks =>
          Some (Selected perUser hostTracks challengerTracks)
      | Retry next => sizingLoopWithin fuel' host challenger next
      end
  end.

End Sizing.

(** ** [fetchPlaylistTracks] ([server/spotify/tracks.ts])

    The Spotify endpoint is an input: [pageAt offset] is the page that a
    successful request with [limit: 100] and that offset returns.  Of an
    item only the track identifier matters here ([None] for a null
    track).  [maxTracks] is an integer when given. *)

Module Spotify.

Import Sizing.

Record Page := {
  items : list (option string);
  next : option string;
}.

(** The [for] loop over the items of one page. *)
Fixpoint takeItems (want : nat) (its : list (option string))
    (out : list RankedTrack) : list RankedTrack :=
  match its with
  | [] => out
  | item :: rest =>
      if want <=? length out then out
      else if negb (truthy item) then takeItems want rest out
      else takeItems want rest
             (out ++ [{| rank := length out + 1; trk_id := default "" item |}])
  end.

(** [while (out.length < want)], one page per pass; [None] when the
    passes run out. *)
Fixpoint fetchLoop (fuel : nat) (pageAt : nat → Page) (want offset : nat)
    (out : list RankedTrack) : option (list RankedTrack) :=
  match fuel with
  | O => None
  | S fuel' =>
      if length out <? want then
        let page := pageAt offset in
        let out' := takeItems want (items page) out in
        if negb (truthy (next page)) then Some out'
        else fetchLoop fuel' pageAt want (offset + 100) out'
      else Some out
  end.

(** [Math.min(200, Math.max(1, params.maxTracks ?? 200))]. *)
Definition wantOf (maxTracks : option Z) : nat :=
  Z.to_nat (Z.min 200 (Z.max 1 (default 200%Z maxTracks))).

Definition fetchPlaylistTracks (fuel : nat) (pageAt : nat → Page)
    (maxTracks : option Z) : option (list RankedTrack) :=
  fetchLoop fuel pageAt (wantOf maxTracks) 0 [].

End Spotify.

(** ** The tournament routes ([POST /tournaments/:id/start] and
    [POST /tournaments/:id/vote])

    The store is the three tables the routes touch, keyed by tournament id.
    The JSON columns [tracksJson] and [winnersJson] are kept as the values
    they serialize.  Fetching candidate tracks, the session user and the
    clock are inputs of a request. *)

Module Routes.

Import Sizing.

Record Tournament := {
  hostUserId : option string;
  challengerUserId : option string;
  sourceType : string;
  meshMode : Z;
  hostPlaylistId : option string;
  challengerPlaylistId : option string;
  timeRange : string;
  bracketSize : nat;
  status : string;
  seed : Z;
  updatedAt : nat;
}.

(** A row of [tournament_tracks]; its display data and creation stamp play
    no part in the bracket. *)
Record TrackRow := {
  tr_tournamentId : string;
  tr_trackId : string;
  tr_ownerUserId : string;
  tr_rank : nat;
}.

Record BracketState := {
  tracksJson : list string;
  winnersJson : gmap string string;
  completedAt : option nat;
  bs_updatedAt : nat;
}.

Record Db := {
  tournaments : gmap string Tournament;
  tournamentTracks : list TrackRow;
  tournamentBracketState : gmap string BracketState;
}.

(** What a request sees of the outside world. *)
Record Env := {
  requireUser : option string;
  fetchPlaylistTracks : string → string → list RankedTrack;
  fetchUserTopTracks : string → string → list RankedTrack;
  nowMs : nat;
}.

Inductive Response :=
| Ok                                        (* [{ ok: true }] *)
| Voted (finalWinner : option string)       (* [{ ok: true, finalWinner }] *)
| Error (error : string) (code : nat)       (* [{ error }] with its status *)
| BadRequest                                (* a [ZodError], status 400 *)
| InternalError (message : string).         (* an uncaught throw, status 500 *)

Definition setStatus (id st : string) (bracketSize' : option nat) (now : nat)
    (ts : gmap string Tournament) : gmap string Tournament :=
  alter (λ t, {| hostUserId := hostUserId t;
                 challengerUserId := challengerUserId t;
                 sourceType := sourceType t;
                 meshMode := meshMode t;
                 hostPlaylistId := hostPlaylistId t;
                 challengerPlaylistId := challengerPlaylistId t;
                 timeRange := timeRange t;
                 bracketSize := default (bracketSize t) bracketSize';
                 status := st;
                 seed := seed t;
                 updatedAt := now |}) id ts.

Definition trackRows (id owner : string) (picked : list RankedTrack)
    : list TrackRow :=
  map (λ rt, {| tr_tournamentId := id; tr_trackId := trk_id rt;
                tr_ownerUserId := owner; tr_rank := rank rt |}) picked.

(** The writes that end each branch of the start route: both deletes, the
    track rows, the fresh bracket row and the status update. *)
Definition materialize (id : string) (rows : list TrackRow)
    (bracketTracks : list string) (bracketSize' : nat) (now : nat)
    (db : Db) : Db :=
  let kept := filter (λ r, tr_tournamentId r ≠ id) (tournamentTracks db) in
  {| tournaments :=
       setStatus id "in_progress" (Some bracketSize') now (tournaments db);
     tournamentTracks := kept ++ rows;
     tournamentBracketState :=
       <[id := {| tracksJson := bracketTracks;
                  winnersJson := ∅;
                  completedAt := None;
                  bs_updatedAt := now |}]>
         (tournamentBracketState db) |}.

(** [for (let i = 0; i < perUser; i++) out.push(hostIds[i]!, challengerIds[i]!)];
    both arrays have [perUser] elements. *)
Definition interleave (hostIds challengerIds : list string) (perUser : nat)
    : list string :=
  flat_map (λ i, [default "" (hostIds !! i); default "" (challengerIds !! i)])
           (seq 0 perUser).

Definition bracketOf (t : Tournament) (perUser : nat)
    (hostTracks challengerTracks : list RankedTrack) : list string :=
  let hostIds :=
    Shuffle.shuffled (map trk_id hostTracks) (xor32 (seed t) 0x13579bdf) in
  let challengerIds :=
    Shuffle.shuffled (map trk_id challengerTracks) (xor32 (seed t) 0x2468ace0) in
  if (meshMode t =? 0)%Z
  then interleave hostIds challengerIds perUser
  else Shuffle.shuffled (take perUser hostIds ++ take perUser challengerIds)
         (xor32 (seed t) 0x9e3779b9).

Definition startedAlready (t : Tournament) : bool :=
  String.eqb (status t) "in_progress" || String.eqb (status t) "completed".

Definition start (env : Env) (id : string) (db : Db) : Response * Db :=
  if String.eqb id "" then (BadRequest, db) else
  match tournaments db !! id with
  | None => (Error "not_found" 404, db)
  | Some t =>
    if String.eqb (sourceType t) "playlist" then
      if negb (truthy (hostUserId t)) then (Error "tournament_not_ready" 409, db)
      else if startedAlready t then (Ok, db)
      else if negb (truthy (hostPlaylistId t))
      then (Error "playlist_not_selected" 409, db)
      else
        let host := default "" (hostUserId t) in
        let playlistTracks :=
          fetchPlaylistTracks env host (default "" (hostPlaylistId t)) in
        let unique := uniqueById playlistTracks in
        let requested := bracketSize t `min` length unique in
        let bracketSize' := floorPow2 requested in
        if bracketSize' <? 8 then (Error "not_enough_tracks" 409, db)
        else
          let selected := take bracketSize' unique in
          let bracketTracks :=
            Shuffle.shuffled (map trk_id selected)
              (xor32 (seed t) 0x13579bdf) in
          (Ok, materialize id (trackRows id host selected) bracketTracks
                 bracketSize' (nowMs env) db)
    else
      match requireUser env with
      | None => (Error "unauthorized" 401, db)
      | Some user =>
        if negb (truthy (hostUserId t)) then (Error "tournament_not_ready" 409, db)
        else
          let host := default "" (hostUserId t) in
          let isHost := String.eqb user host in
          let isChallenger :=
            if truthy (challengerUserId t)
            then String.eqb user (default "" (challengerUserId t))
            else false in
          if negb isHost && negb isChallenger then (Error "forbidden" 403, db)
          else if String.eqb (sourceType t) "playlist_vs" then
            if startedAlready t then (Ok, db)
            else if negb (truthy (hostUserId t))
                    || negb (truthy (challengerUserId t))
            then (Error "tournament_not_ready" 409, db)
            else if negb (truthy (hostPlaylistId t))
                    || negb (truthy (challengerPlaylistId t))
            then (Error "playlist_not_selected" 409, db)
            else
              let challenger := default "" (challengerUserId t) in
              let hostUnique :=
                uniqueById (fetchPlaylistTracks env host
                              (default "" (hostPlaylistId t))) in
              let challengerUnique :=
                uniqueById (fetchPlaylistTracks env challenger
                              (default "" (challengerPlaylistId t))) in
              match sizingLoop hostUnique challengerUnique (bracketSize t / 2) with
              | NotEnough => (Error "not_enough_tracks" 409, db)
              | Selected perUser hostTracks challengerTracks =>
                  let bracketSize' := perUser * 2 in
                  if bracketSize' <? 8 then (Error "not_enough_tracks" 409, db)
                  else
                    (Ok, materialize id
                           (trackRows id host hostTracks
                              ++ trackRows id challenger challengerTracks)
                           (bracketOf t perUser hostTracks challengerTracks)
                           bracketSize' (nowMs env) db)
              end
          else
            if negb (truthy (challengerUserId t))
            then (Error "tournament_not_ready" 409, db)
            else
              let challenger := default "" (challengerUserId t) in
              let hostCandidates := fetchUserTopTracks env host (timeRange t) in
              let challengerCandidates :=
                fetchUserTopTracks env challenger (timeRange t) in
              match sizingLoop hostCandidates challengerCandidates
                      (bracketSize t / 2) with
              | NotEnough => (Error "not_enough_tracks" 409, db)
              | Selected perUser hostTracks challengerTracks =>
                  (Ok, materialize id
                         (trackRows id host hostTracks
                            ++ trackRows id challenger challengerTracks)
                         (bracketOf t perUser hostTracks challengerTracks)
                         (perUser * 2) (nowMs env) db)
              end
      end
  end.

Record VoteBody := {
  vb_round : Z;
  vb_match : Z;
  vb_winnerTrackId : string;
}.

(** [z.object({ round: int >= 0, match: int >= 0, winnerTrackId: min(1) })]. *)
Definition bodySchema (body : VoteBody) : bool :=
  (0 <=? vb_round body)%Z && (0 <=? vb_match body)%Z
  && negb (String.eqb (vb_winnerTrackId body) "").

Definition vote (env : Env) (id : string) (body : VoteBody) (db : Db)
    : Response * Db :=
  if String.eqb id "" then (BadRequest, db) else
  if negb (bodySchema body) then (BadRequest, db) else
  match tournamentBracketState db !! id with
  | None => (Error "bracket_not_started" 409, db)
  | Some bracket =>
    let tracks := tracksJson bracket in
    let winners := winnersJson bracket in
    let size := length tracks in
    match totalRounds size with
    | Throw e => (InternalError e, db)
    | Ret rounds =>
      if (vb_round body >=? Z.of_nat rounds)%Z then (Error "invalid_round" 400, db)
      else
        let matches := matchCount size (Z.to_nat (vb_round body)) in
        if (vb_match body >=? Z.of_nat matches)%Z
        then (Error "invalid_match" 400, db)
        else
          let key := matchKey (vb_round body) (vb_match body) in
          if truthy (winners !! key) then (Error "match_already_voted" 409, db)
          else
            match resolveMatchParticipants size tracks winners
                    (vb_round body) (vb_match body) with
            | None => (Error "match_not_ready" 409, db)
            | Some (pa, pb) =>
              if negb (String.eqb (vb_winnerTrackId body) pa)
                 && negb (String.eqb (vb_winnerTrackId body) pb)
              then (Error "winner_not_in_match" 400, db)
              else
                let winners' := <[key := vb_winnerTrackId body]> winners in
                let finalKey := matchKey (Z.of_nat rounds - 1) 0 in
                let finalWinner := winners' !! finalKey in
                let done := truthy finalWinner in
                let db1 :=
                  {| tournaments := tournaments db;
                     tournamentTracks := tournamentTracks db;
                     tournamentBracketState :=
                       <[id := {| tracksJson := tracksJson bracket;
                                  winnersJson := winners';
                                  completedAt :=
                                    if done then Some (nowMs env) else None;
                                  bs_updatedAt := nowMs env |}]>
                         (tournamentBracketState db) |} in
                let db2 :=
                  if done
                  then {| tournaments :=
                            setStatus id "completed" None (nowMs env)
                              (tournaments db1);
                          tournamentTracks := tournamentTracks db1;
                          tournamentBracketState := tournamentBracketState db1 |}
                  else db1 in
                (Voted finalWinner, db2)
            end
    end
  end.

(** What the read routes return of a track row (its display data apart). *)
Record TrackView := {
  tv_trackId : string;
  tv_ownerUserId : string;
  tv_rank : nat;
}.

Definition viewOf (r : TrackRow) : TrackView :=
  {| tv_trackId := tr_trackId r;
     tv_ownerUserId := tr_ownerUserId r;
     tv_rank := tr_rank r |}.

(** [new Map(trackRows.map((r) => [r.trackId, {...}]))] over the rows of
    the tournament: a later row replaces an earlier one of the same
    track. *)
Definition trackById (id : string) (db : Db) : gmap string TrackView :=
  foldl (λ acc r, <[tr_trackId r := viewOf r]> acc) ∅
        (filter (λ r, tr_tournamentId r = id) (tournamentTracks db)).

(** [GET /tournaments/:id/results]: the ranking with each identifier
    looked up in [trackById], [null] when it has no row. *)
Definition results (id : string) (db : Db)
    : Response + list (option TrackView) :=
  if String.eqb id "" then inl BadRequest else
  match tournamentBracketState db !! id with
  | None => inl (Error "bracket_not_started" 409)
  | Some bracket =>
    let tracks := tracksJson bracket in
    let winners := winnersJson bracket in
    let size := length tracks in
    match computeRanking size tracks winners with
    | Throw e => inl (InternalError e)
    | Ret None => inl (Error "tournament_not_completed" 409)
    | Ret (Some ranking) =>
        inr (map (λ trackId, trackById id db !! trackId) ranking)
    end
  end.

(** The [nextMatch] object of [GET /tournaments/:id/state]. *)
Record NextMatchView := {
  nm_round : Z;
  nm_match : Z;
  nm_a : option TrackView;
  nm_b : option TrackView;
}.

Record TournamentView := {
  tnv_status : string;
  tnv_timeRange : string;
  tnv_bracketSize : nat;
  tnv_hostUserId : option string;
  tnv_challengerUserId : option string;
}.

Record BracketView := {
  bv_size : nat;
  bv_tracks : list string;
  bv_winners : gmap string string;
  bv_tracksById : gmap string TrackView;
  bv_winnerTrackId : option string;
  bv_nextMatch : option NextMatchView;
  bv_completedAt : option nat;
}.

Inductive StateView :=
| NotStarted (status timeRange : string)    (* [bracket: null] *)
| InPlay (tournament : TournamentView) (bracket : BracketView).

(** [GET /tournaments/:id/state]. *)
Definition state (id : string) (db : Db) : Response + StateView :=
  if String.eqb id "" then inl BadRequest else
  match tournaments db !! id with
  | None => inl (Error "not_found" 404)
  | Some t =>
    match tournamentBracketState db !! id with
    | None => inr (NotStarted (status t) (timeRange t))
    | Some bracket =>
      let tracks := tracksJson bracket in
      let winners := winnersJson bracket in
      let size := length tracks in
      match totalRounds size with
      | Throw e => inl (InternalError e)
      | Ret rounds =>
        let byId := trackById id db in
        match nextOpenMatch size tracks winners with
        | Throw e => inl (InternalError e)
        | Ret next =>
          let winnerTrackId := winners !! matchKey (Z.of_nat rounds - 1) 0 in
          inr (InPlay
                 {| tnv_status := status t;
                    tnv_timeRange := timeRange t;
                    tnv_bracketSize := bracketSize t;
                    tnv_hostUserId := hostUserId t;
                    tnv_challengerUserId := challengerUserId t |}
                 {| bv_size := size;
                    bv_tracks := tracks;
                    bv_winners := winners;
                    bv_tracksById := byId;
                    bv_winnerTrackId := winnerTrackId;
                    bv_nextMatch :=
                      match next with
                      | Some mr =>
                          Some {| nm_round := round mr;
                                  nm_match := match_ mr;
                                  nm_a := byId !! a mr;
                                  nm_b := byId !! b mr |}
                      | None => None
                      end;
                    bv_completedAt := completedAt bracket |})
        end
      end
    end
  end.

(** The two writing routes as requests, and a run of requests served one
    after the other. *)
Inductive Request :=
| StartRequest (env : Env) (id : string)
| VoteRequest (env : Env) (id : string) (body : VoteBody).

Definition handle (rq : Request) (db : Db) : Response * Db :=
  match rq with
  | StartRequest env id => start env id db
  | VoteRequest env id body => vote env id body db
  end.

Definition serve (rqs : list Request) (db : Db) : Db :=
  foldl (λ db rq, (handle rq db).2) db rqs.

(** The [refine] on [bracketSize] in the body schema of
    [POST /tournaments], for an integer [n]:
    [(n & (n - 1)) === 0 && n >= 8 && n <= 64]. *)
Definition bracketSizeSchema (n : Z) : bool :=
  (and32 n (n - 1) =? 0)%Z && (n >=? 8)%Z && (n <=? 64)%Z.

End Routes.

(** ** Vocabulary of the design document, over the embedding *)

Module Spec.

(** A match has a recorded winner: its key holds an identifier, that is a
    non-empty string; this is the source's own test [winners[k]]. *)
Definition recorded (winners : gmap string string) (r m : Z) : Prop :=
  truthy (winners !! matchKey r m) = true.

(** A slot exists: the index is in range and holds an identifier (a
    non-empty string); this is the source's own test on [tracks[i]]. *)
Definition slotFilled (tracks : list string) (i : Z) : Prop :=
  truthy (index tracks i) = true.

(** The matches of a bracket with [rounds] rounds. *)
Definition inBracket (size rounds r m : nat) : Prop :=
  r < rounds ∧ m < matchCount size r.

Definition winnerOf (winners : gmap string string) (r m : nat) : string :=
  default "" (winners !! matchKey (Z.of_nat r) (Z.of_nat m)).

(** The two entrants of a match: slots [2m] and [2m+1] in round 0, the
    winners of the feeder matches [2m] and [2m+1] of the round before
    otherwise. *)
Definition participantsOf (tracks : list string)
    (winners : gmap string string) (r m : nat) : string * string :=
  match r with
  | O => (default "" (tracks !! (2 * m)), default "" (tracks !! (2 * m + 1)))
  | S r' => (winnerOf winners r' (2 * m), winnerOf winners r' (2 * m + 1))
  end.

(** The loser of a match: the entrant that is not its winner. *)
Definition loserOf (tracks : list string) (winners : gmap string string)
    (r m : nat) : string :=
  let '(pa, pb) := participantsOf tracks winners r m in
  if String.eqb (winnerOf winners r m) pa then pb else pa.

(** The losers of a round in ascending match-index order. *)
Definition losersOfRound (size : nat) (tracks : list string)
    (winners : gmap string string) (r : nat) : list string :=
  map (loserOf tracks winners r) (seq 0 (matchCount size r)).

Definition winnersOfRound (size : nat) (winners : gmap string string)
    (r : nat) : list string :=
  map (winnerOf winners r) (seq 0 (matchCount size r)).

(** The ranking as the document words it: champion, runner-up, then the
    losers of rounds [rounds - 2] down to [0]. *)
Definition rankingOf (size : nat) (tracks : list string)
    (winners : gmap string string) (rounds : nat) : list string :=
  [winnerOf winners (rounds - 1) 0; loserOf tracks winners (rounds - 1) 0]
  ++ concat (map (losersOfRound size tracks winners)
                 (reverse (seq 0 (rounds - 1)))).

(** Every match of the bracket has a recorded winner. *)
Definition fullyDecided (size rounds : nat) (winners : gmap string string)
    : Prop :=
  ∀ r m, inBracket size rounds r m → recorded winners (Z.of_nat r) (Z.of_nat m).

(** Every match of the bracket is resolvable and was won by one of its
    two resolved entrants. *)
Definition validlyDecided (size rounds : nat) (tracks : list string)
    (winners : gmap string string) : Prop :=
  ∀ r m, inBracket size rounds r m →
    ∃ pa pb w,
      resolveMatchParticipants size tracks winners (Z.of_nat r) (Z.of_nat m)
        = Some (pa, pb)
      ∧ winners !! matchKey (Z.of_nat r) (Z.of_nat m) = Some w
      ∧ (w = pa ∨ w = pb).

(** A match past round 0 is recorded only after both of its feeders, as
    the vote route enforces. *)
Definition feederClosed (size rounds : nat) (winners : gmap string string)
    : Prop :=
  ∀ r m, inBracket size rounds (S r) m →
    recorded winners (Z.of_nat (S r)) (Z.of_nat m) →
    recorded winners (Z.of_nat r) (Z.of_nat (2 * m))
    ∧ recorded winners (Z.of_nat r) (Z.of_nat (2 * m + 1)).

(** A match is open: no recorded winner, and both entrants resolvable. *)
Definition isOpen (size : nat) (tracks : list string)
    (winners : gmap string string) (r m : nat) : Prop :=
  ¬ recorded winners (Z.of_nat r) (Z.of_nat m)
  ∧ is_Some (resolveMatchParticipants size tracks winners
               (Z.of_nat r) (Z.of_nat m)).

(** Lexicographic order on (round, match). *)
Definition lexLe (r1 m1 r2 m2 : nat) : Prop :=
  r1 < r2 ∨ (r1 = r2 ∧ m1 ≤ m2).

(** The winners map of a stored bracket: every entry is an identifier
    filed under the key of one of the bracket's matches. *)
Definition wellKeyed (size rounds : nat) (winners : gmap string string)
    : Prop :=
  ∀ k w, winners !! k = Some w →
    w ≠ "" ∧ ∃ r m, inBracket size rounds r m
                    ∧ k = matchKey (Z.of_nat r) (Z.of_nat m).

(** Every stored bracket has a power-of-two number of slots and a well
    keyed winners map.  The routes establish and keep this. *)
Definition storedSound (db : Routes.Db) : Prop :=
  ∀ id bracket,
    Routes.tournamentBracketState db !! id = Some bracket →
    ∃ k, length (Routes.tracksJson bracket) = 2 ^ k
         ∧ wellKeyed (2 ^ k) k (Routes.winnersJson bracket).

(** The error kinds of the document as the vote route reports them. *)
Definition MatchAlreadyDecided : Routes.Response :=
  Routes.Error "match_already_voted" 409.

Definition failed (r : Routes.Response) : Prop :=
  match r with
  | Routes.Voted _ | Routes.Ok => False
  | _ => True
  end.

(** The list that [shuffleLoop] leaves in the array, as a function of the
    contents, the start index and the generator state. *)
Fixpoint shuffleList {T} (l : list T) (i : nat) (a : Z) : list T :=
  match i with
  | O => l
  | S i' =>
      let '(a', u) := Shuffle.mulberry32_next a in
      let j := Shuffle.pickIndex u i in
      match l !! i, l !! j with
      | Some xi, Some xj => shuffleList (<[j := xi]> (<[i := xj]> l)) i' a'
      | _, _ => shuffleList l i' a'
      end
  end.

(** Every character of a string satisfies [P]. *)
Fixpoint string_forall (P : ascii → Prop) (s : string) : Prop :=
  match s with
  | EmptyString => True
  | String c s' => P c ∧ string_forall P s'
  end.

Definition not_m (c : ascii) : Prop := c ≠ "m"%char.

(** The rows of [tournament_tracks] that belong to a tournament. *)
Definition rowsOf (db : Routes.Db) (id : string) : list Routes.TrackRow :=
  filter (λ r, Routes.tr_tournamentId r = id) (Routes.tournamentTracks db).

(** What the start and vote routes keep true of a stored bracket, its
    track rows and its tournament row. *)
Record inPlay (db : Routes.Db) (id : string) (bracket : Routes.BracketState)
    (k : nat) (t : Routes.Tournament) : Prop := {
  play_rounds : 3 ≤ k;
  play_length : length (Routes.tracksJson bracket) = 2 ^ k;
  play_distinct : NoDup (Routes.tracksJson bracket);
  play_rows :
    map Routes.tr_trackId (rowsOf db id) ≡ₚ Routes.tracksJson bracket;
  play_keys : wellKeyed (2 ^ k) k (Routes.winnersJson bracket);
  play_feeders : feederClosed (2 ^ k) k (Routes.winnersJson bracket);
  play_winners :
    ∀ r m w, inBracket (2 ^ k) k r m →
      Routes.winnersJson bracket !! matchKey (Z.of_nat r) (Z.of_nat m) = Some w →
      ∃ pa pb,
        resolveMatchParticipants (2 ^ k) (Routes.tracksJson bracket)
          (Routes.winnersJson bracket) (Z.of_nat r) (Z.of_nat m) = Some (pa, pb)
        ∧ (w = pa ∨ w = pb);
  play_tournament : Routes.tournaments db !! id = Some t;
  play_size : Routes.bracketSize t = 2 ^ k;
  play_status :
    Routes.status t
    = if truthy (Routes.winnersJson bracket !! matchKey (Z.of_nat k - 1) 0)
      then "completed" else "in_progress";
  play_completedAt :
    is_Some (Routes.completedAt bracket)
    ↔ recorded (Routes.winnersJson bracket) (Z.of_nat k - 1) 0;
}.

Definition consistent (db : Routes.Db) : Prop :=
  ∀ id bracket,
    Routes.tournamentBracketState db !! id = Some bracket →
    ∃ k t, inPlay db id bracket k t.

(** The keys of all matches of a bracket, round by round. *)
Definition matchKeys (size rounds : nat) : list string :=
  flat_map (λ r, map (λ m, matchKey (Z.of_nat r) (Z.of_nat m))
                     (seq 0 (matchCount size r)))
           (seq 0 rounds).

(** The fetches of an environment hand out tracks with identifiers only. *)
Definition identified (env : Routes.Env) : Prop :=
  ∀ user arg,
    Forall (λ rt, Sizing.trk_id rt ≠ "")
           (Routes.fetchPlaylistTracks env user arg)
    ∧ Forall (λ rt, Sizing.trk_id rt ≠ "")
             (Routes.fetchUserTopTracks env user arg).

Definition startIdentified (rq : Routes.Request) : Prop :=
  match rq with
  | Routes.StartRequest env _ => identified env
  | Routes.VoteRequest _ _ _ => True
  end.

(** Every slot of every stored bracket holds an identifier. *)
Definition slotsFilled (db : Routes.Db) : Prop :=
  ∀ id bracket,
    Routes.tournamentBracketState db !! id = Some bracket →
    Forall (λ x, x ≠ "") (Routes.tracksJson bracket).

(** What the loops of [fetchPlaylistTracks] keep true of [out]: ranks
    count up from 1 and every track has an identifier. *)
Definition ranked (out : list Sizing.RankedTrack) : Prop :=
  map Sizing.rank out = seq 1 (length out)
  ∧ Forall (λ rt, Sizing.trk_id rt ≠ "") out.

End Spec.

Import Spec.

(** ** The worked scenarios of the design document *)

Module Scenario.

(** Scenario A: eight slots, every match voted. *)
Definition tracksA : list string := ["a"; "b"; "c"; "d"; "e"; "f"; "g"; "h"].

Definition winnersA : gmap string string :=
  <["r2m0" := "a"]>
    (<["r1m1" := "h"]>
       (<["r1m0" := "a"]>
          (<["r0m3" := "h"]>
             (<["r0m2" := "e"]>
                (<["r0m1" := "d"]> (<["r0m0" := "a"]> ∅)))))).

(** A four-slot bracket, with all three matches voted. *)
Definition tracks4 : list string := ["a"; "b"; "c"; "d"].

Definition winners4 : gmap string string :=
  <["r1m0" := "a"]> (<["r0m1" := "c"]> (<["r0m0" := "a"]> ∅)).

(** The same bracket with nothing but the final on record. *)
Definition winnersFinalOnly : gmap string string := {[ "r1m0" := "a" ]}.

(** Scenario C: 30 host candidates and 9 challenger candidates, no
    identifier shared. *)
Definition candidates (prefix : string) (n : nat) : list Sizing.RankedTrack :=
  map (λ i, {| Sizing.rank := S i; Sizing.trk_id := prefix +:+ pretty i |})
      (seq 0 n).

Definition hostC : list Sizing.RankedTrack := candidates "h" 30.
Definition challengerC : list Sizing.RankedTrack := candidates "c" 9.

(** A top-tracks duel between users ["host"] and ["chal"] with the
    candidates of scenario C, the host being signed in. *)
Definition env : Routes.Env :=
  {| Routes.requireUser := Some "host";
     Routes.fetchPlaylistTracks := λ user _,
       if String.eqb user "host" then hostC else challengerC;
     Routes.fetchUserTopTracks := λ user _,
       if String.eqb user "host" then hostC else challengerC;
     Routes.nowMs := 1000 |}.

Definition duel (sourceType status : string) : Routes.Tournament :=
  {| Routes.hostUserId := Some "host";
     Routes.challengerUserId := Some "chal";
     Routes.sourceType := sourceType;
     Routes.meshMode := 0;
     Routes.hostPlaylistId := Some "p1";
     Routes.challengerPlaylistId := Some "p2";
     Routes.timeRange := "medium_term";
     Routes.bracketSize := 32;
     Routes.status := status;
     Routes.seed := 42;
     Routes.updatedAt := 0 |}.

Definition dbReady (sourceType : string) : Routes.Db :=
  {| Routes.tournaments := {[ "t1" := duel sourceType "ready" ]};
     Routes.tournamentTracks := [];
     Routes.tournamentBracketState := ∅ |}.

(** The store after the start command. *)
Definition dbStarted (sourceType : string) : Routes.Db :=
  (Routes.start env "t1" (dbReady sourceType)).2.

Definition slotsOf (db : Routes.Db) : list string :=
  from_option Routes.tracksJson [] (Routes.tournamentBracketState db !! "t1").

Definition winnersOf (db : Routes.Db) : gmap string string :=
  from_option Routes.winnersJson ∅ (Routes.tournamentBracketState db !! "t1").

Definition statusOf (db : Routes.Db) : string :=
  from_option Routes.status "" (Routes.tournaments db !! "t1").

Definition sizeOf (db : Routes.Db) : nat :=
  from_option Routes.bracketSize 0 (Routes.tournaments db !! "t1").

(** The store after a further vote for slot 0 in round 0, match 0. *)
Definition firstVote (sourceType : string) : Routes.VoteBody :=
  {| Routes.vb_round := 0;
     Routes.vb_match := 0;
     Routes.vb_winnerTrackId :=
       default "" (slotsOf (dbStarted sourceType) !! 0) |}.

Definition dbVoted (sourceType : string) : Routes.Db :=
  (Routes.vote env "t1" (firstVote sourceType) (dbStarted sourceType)).2.

(** The run of requests behind [dbVoted]: start, then the first vote. *)
Definition requests : list Routes.Request :=
  [Routes.StartRequest env "t1";
   Routes.VoteRequest env "t1" (firstVote "top_tracks")].

(** The bracket row of tournament ["t1"]. *)
Definition bracketAt (db : Routes.Db) : Routes.BracketState :=
  default {| Routes.tracksJson := []; Routes.winnersJson := ∅;
             Routes.completedAt := None; Routes.bs_updatedAt := 0 |}
          (Routes.tournamentBracketState db !! "t1").

(** The store after [requests]. *)
Definition dbServed : Routes.Db := Routes.serve requests (dbReady "top_tracks").

(** A whole game: after the start, [n] votes, each for participant [a] of
    the match that [nextOpenMatch] proposes. *)
Fixpoint autoVotes (n : nat) (db : Routes.Db) : list Routes.Request :=
  match n with
  | O => []
  | S n' =>
      let bracket := bracketAt db in
      match nextOpenMatch (length (Routes.tracksJson bracket))
              (Routes.tracksJson bracket) (Routes.winnersJson bracket) with
      | Ret (Some mr) =>
          let rq :=
            Routes.VoteRequest env "t1"
              {| Routes.vb_round := round mr;
                 Routes.vb_match := match_ mr;
                 Routes.vb_winnerTrackId := a mr |} in
          rq :: autoVotes n' (Routes.handle rq db).2
      | _ => []
      end
  end.

Definition fullRun : list Routes.Request :=
  Routes.StartRequest env "t1" :: autoVotes 15 (dbStarted "top_tracks").

Definition dbCompleted : Routes.Db :=
  Routes.serve fullRun (dbReady "top_tracks").

End Scenario.

(** * Part II: properties *)

(** ** Truthiness and rounding *)

Lemma truthy_Some s : truthy (Some s) = true ↔ s ≠ "".
Proof.
  unfold truthy. rewrite negb_true_iff. split.
  - intros H ->. discriminate.
  - intros H. by apply String.eqb_neq.
Qed.

Lemma truthy_spec o : truthy o = true ↔ ∃ s, o = Some s ∧ s ≠ "".
Proof.
  destruct o as [s|].
  - rewrite truthy_Some. split.
    + intros H. by exists s.
    + intros (s' & [= ->] & H). exact H.
  - split; [discriminate|]. intros (s & H & _). discriminate.
Qed.

Lemma floorPow2_le n : floorPow2 n ≤ n.
Proof.
  destruct n as [|n]; [done|]. unfold floorPow2.
  apply Nat.log2_spec. lia.
Qed.

(** ** Arithmetic of power-of-two sizes *)

Lemma toInt32_small z : (- 2 ^ 31 ≤ z < 2 ^ 31)%Z → toInt32 z = z.
Proof.
  intros Hz. unfold toInt32.
  rewrite Z.mod_small by lia. lia.
Qed.

Lemma and32_pow2 k : and32 (2 ^ Z.of_nat k) (2 ^ Z.of_nat k - 1) = 0%Z.
Proof.
  destruct (decide (k < 32)) as [Hk|Hk].
  - do 32 (destruct k as [|k]; [vm_compute; reflexivity|]). lia.
  - unfold and32.
    assert (toInt32 (2 ^ Z.of_nat k) = 0%Z) as ->.
    { unfold toInt32.
      replace (Z.of_nat k) with (32 + (Z.of_nat k - 32))%Z by lia.
      rewrite Z.pow_add_r by lia.
      rewrite Z.add_comm, Z.mul_comm, Z.mod_add by lia. reflexivity. }
    rewrite Z.land_0_l. reflexivity.
Qed.

Lemma isPowerOfTwo_pow2 k : isPowerOfTwo (2 ^ k) = true.
Proof.
  unfold isPowerOfTwo. apply andb_true_iff. split.
  - apply Nat.ltb_lt. pose proof (Nat.pow_nonzero 2 k). lia.
  - apply Z.eqb_eq. rewrite Nat2Z.inj_pow. apply and32_pow2.
Qed.

Lemma totalRounds_pow2 k : totalRounds (2 ^ k) = Ret k.
Proof.
  unfold totalRounds. rewrite isPowerOfTwo_pow2.
  f_equal. apply Nat.log2_pow2. lia.
Qed.

Lemma matchCount_pow2 k r : r < k → matchCount (2 ^ k) r = 2 ^ (k - S r).
Proof.
  intros Hr. unfold matchCount.
  replace k with ((k - S r) + (r + 1)) at 1 by lia.
  rewrite Nat.pow_add_r. apply Nat.div_mul.
  apply Nat.pow_nonzero. lia.
Qed.

Lemma matchCount_feeders k r :
  S r < k → matchCount (2 ^ k) r = 2 * matchCount (2 ^ k) (S r).
Proof.
  intros Hr. rewrite !matchCount_pow2 by lia.
  replace (k - S r) with (S (k - S (S r))) by lia.
  apply Nat.pow_succ_r'.
Qed.

Lemma matchCount_first k : 1 ≤ k → 2 * matchCount (2 ^ k) 0 = 2 ^ k.
Proof.
  intros Hk. rewrite matchCount_pow2 by lia.
  replace k with (S (k - 1)) at 2 by lia.
  rewrite Nat.pow_succ_r'. reflexivity.
Qed.

Lemma matchCount_final k : 1 ≤ k → matchCount (2 ^ k) (k - 1) = 1.
Proof.
  intros Hk. rewrite matchCount_pow2 by lia.
  replace (k - S (k - 1)) with 0 by lia. reflexivity.
Qed.

(** ** The match key *)

Section MatchKey.

(** Decimal numerals never contain the separator ["m"]. *)
Lemma pretty_N_char_not_m x : not_m (pretty_N_char x).
Proof.
  unfold not_m, pretty_N_char.
  repeat case_match; discriminate.
Qed.

Lemma pretty_N_go_not_m x s :
  string_forall not_m s → string_forall not_m (pretty_N_go x s).
Proof.
  revert s. induction (N.lt_wf_0 x) as [x _ IH]. intros s Hs.
  destruct (decide (x = 0)%N) as [->|Hx].
  - by rewrite pretty_N_go_0.
  - rewrite pretty_N_go_step by lia.
    apply IH.
    + apply N.div_lt; lia.
    + split; [apply pretty_N_char_not_m | exact Hs].
Qed.

Lemma pretty_N_not_m (x : N) : string_forall not_m (pretty x).
Proof.
  unfold pretty, pretty_N. case_decide.
  - simpl. unfold not_m. split; [discriminate|done].
  - apply pretty_N_go_not_m. exact I.
Qed.

Lemma pretty_Z_not_m (x : Z) : string_forall not_m (pretty x).
Proof.
  destruct x as [|p|p].
  - simpl. unfold not_m. split; [discriminate|done].
  - apply (pretty_N_not_m (Npos p)).
  - change (pretty (Zneg p)) with ("-" +:+ pretty (Npos p)).
    simpl. split; [unfold not_m; discriminate|].
    apply (pretty_N_not_m (Npos p)).
Qed.

(** Two strings free of ["m"], each followed by ["m"] and a tail, agree
    piecewise when the concatenations agree. *)
Lemma split_at_m s1 s2 t1 t2 :
  string_forall not_m s1 → string_forall not_m s2 →
  s1 +:+ String "m" t1 = s2 +:+ String "m" t2 →
  s1 = s2 ∧ t1 = t2.
Proof.
  revert s2. induction s1 as [|c s1 IH]; intros [|d s2] H1 H2 Heq;
    cbn [String.append string_forall] in *.
  - by injection Heq as ->.
  - injection Heq as Hc _. destruct H2 as [Hd _]. by destruct Hd.
  - injection Heq as Hc _. destruct H1 as [Hd _]. by destruct Hd.
  - injection Heq as -> Heq.
    destruct H1 as [_ H1], H2 as [_ H2].
    destruct (IH s2 H1 H2 Heq) as [-> ->]. done.
Qed.

Lemma matchKey_unfold r m :
  matchKey r m = String "r" (pretty r +:+ String "m" (pretty m)).
Proof. reflexivity. Qed.

Lemma matchKey_inj r1 m1 r2 m2 :
  matchKey r1 m1 = matchKey r2 m2 → r1 = r2 ∧ m1 = m2.
Proof.
  rewrite !matchKey_unfold. intros [= Heq].
  apply split_at_m in Heq as [Hr Hm]; [|apply pretty_Z_not_m..].
  split; by apply (inj pretty).
Qed.

Lemma matchKey_inj_nat (r1 m1 r2 m2 : nat) :
  matchKey (Z.of_nat r1) (Z.of_nat m1) = matchKey (Z.of_nat r2) (Z.of_nat m2) →
  r1 = r2 ∧ m1 = m2.
Proof. intros [? ?]%matchKey_inj. lia. Qed.

End MatchKey.

(** C10. The winners-map key is injective on non-negative round and match
    indices: [matchKey r1 m1 = matchKey r2 m2] forces [r1 = r2] and
    [m1 = m2], so no two distinct matches share a key, whatever the number
    of digits of the indices. *)
Theorem matchKey_injective (r1 m1 r2 m2 : Z) :
  (0 ≤ r1)%Z → (0 ≤ m1)%Z → (0 ≤ r2)%Z → (0 ≤ m2)%Z →
  matchKey r1 m1 = matchKey r2 m2 → r1 = r2 ∧ m1 = m2.
Proof. intros _ _ _ _. apply matchKey_inj. Qed.

Lemma matchKey_injective_witness :
  matchKey 1 10 = matchKey 1 10 ∧ (1 = 1 ∧ 10 = 10)%Z.
Proof.
  split; [reflexivity|].
  apply (matchKey_injective 1 10 1 10); try lia. reflexivity.
Defined.

(** The digit boundary: round 1 match 10 and round 11 match 0 differ. *)
Example matchKey_boundary :
  matchKey 1 10 = "r1m10" ∧ matchKey 11 0 = "r11m0" ∧ matchKey 1 10 ≠ matchKey 11 0.
Proof.
  split; [reflexivity|split; [reflexivity|]].
  intros [H _]%matchKey_inj. discriminate.
Qed.

(** ** [resolveMatchParticipants] *)

Lemma resolve_length_mismatch size tracks winners r m :
  length tracks ≠ size →
  resolveMatchParticipants size tracks winners r m = None.
Proof.
  intros Hne. unfold resolveMatchParticipants.
  apply Nat.eqb_neq in Hne. by rewrite Hne.
Qed.

Lemma both_truthy x y pa pb :
  (if negb (truthy (Some x)) || negb (truthy (Some y))
   then None else Some (x, y)) = Some (pa, pb)
  ↔ Some x = Some pa ∧ Some y = Some pb ∧ pa ≠ "" ∧ pb ≠ "".
Proof.
  unfold truthy.
  destruct (String.eqb_spec x "") as [->|Hx], (String.eqb_spec y "") as [->|Hy];
    cbn [negb orb].
  - split; [discriminate|]. intros ([= <-] & _ & Ha & _). by destruct Ha.
  - split; [discriminate|]. intros ([= <-] & _ & Ha & _). by destruct Ha.
  - split; [discriminate|]. intros (_ & [= <-] & _ & Hb). by destruct Hb.
  - split.
    + intros [= <- <-]. done.
    + intros ([= <-] & [= <-] & _). done.
Qed.

Lemma resolve_round0 size tracks winners m pa pb :
  length tracks = size →
  resolveMatchParticipants size tracks winners 0 m = Some (pa, pb)
  ↔ index tracks (m * 2) = Some pa ∧ index tracks (m * 2 + 1) = Some pb
    ∧ pa ≠ "" ∧ pb ≠ "".
Proof.
  intros Hlen. unfold resolveMatchParticipants.
  apply Nat.eqb_eq in Hlen. rewrite Hlen. cbn [negb].
  change (0 <? 0)%Z with false. change (0 =? 0)%Z with true. cbv iota.
  destruct (index tracks (m * 2)) as [x|], (index tracks (m * 2 + 1)) as [y|];
    try (split; [discriminate | intros (? & ? & _); discriminate]).
  apply both_truthy.
Qed.

Lemma resolve_later size tracks winners r m pa pb :
  length tracks = size → (0 < r)%Z →
  resolveMatchParticipants size tracks winners r m = Some (pa, pb)
  ↔ winners !! matchKey (r - 1) (m * 2) = Some pa
    ∧ winners !! matchKey (r - 1) (m * 2 + 1) = Some pb
    ∧ pa ≠ "" ∧ pb ≠ "".
Proof.
  intros Hlen Hr. unfold resolveMatchParticipants.
  apply Nat.eqb_eq in Hlen. rewrite Hlen. cbn [negb].
  destruct (r <? 0)%Z eqn:Hneg; [apply Z.ltb_lt in Hneg; lia|].
  destruct (r =? 0)%Z eqn:Hzero; [apply Z.eqb_eq in Hzero; lia|].
  destruct (winners !! matchKey (r - 1) (m * 2)) as [x|],
           (winners !! matchKey (r - 1) (m * 2 + 1)) as [y|];
    try (split; [discriminate | intros (? & ? & _); discriminate]).
  apply both_truthy.
Qed.

Lemma resolve_is_Some_round0 size tracks winners m :
  length tracks = size →
  is_Some (resolveMatchParticipants size tracks winners 0 m)
  ↔ slotFilled tracks (m * 2) ∧ slotFilled tracks (m * 2 + 1).
Proof.
  intros Hlen. unfold slotFilled. rewrite !truthy_spec. split.
  - intros [[pa pb] H]. apply resolve_round0 in H as (Ha & Hb & ? & ?); [|done].
    split; eauto.
  - intros [(pa & Ha & ?) (pb & Hb & ?)]. exists (pa, pb).
    by apply resolve_round0.
Qed.

Lemma resolve_is_Some_later size tracks winners r m :
  length tracks = size → (0 < r)%Z →
  is_Some (resolveMatchParticipants size tracks winners r m)
  ↔ recorded winners (r - 1) (m * 2) ∧ recorded winners (r - 1) (m * 2 + 1).
Proof.
  intros Hlen Hr. unfold recorded. rewrite !truthy_spec. split.
  - intros [[pa pb] H]. apply resolve_later in H as (Ha & Hb & ? & ?); [|done..].
    split; eauto.
  - intros [(pa & Ha & ?) (pb & Hb & ?)]. exists (pa, pb).
    by apply resolve_later.
Qed.

(** C5, as the code has it.  When [tracks.length = size] (otherwise the
    result is always "not resolvable"): at round 0 a pair is returned iff
    slots [2m] and [2m+1] both hold an identifier; at a round [r > 0] iff
    both feeder matches [(r-1, 2m)] and [(r-1, 2m+1)] have recorded winners;
    and with an empty winners map round 1 match 0 of a size-8 bracket is
    not resolvable. *)
Theorem resolveMatchParticipants_defined
    (size : nat) (tracks : list string) (winners : gmap string string) (m : Z) :
  length tracks = size →
  (is_Some (resolveMatchParticipants size tracks winners 0 m)
   ↔ slotFilled tracks (m * 2) ∧ slotFilled tracks (m * 2 + 1))
  ∧ (∀ r : Z, (0 < r)%Z →
       is_Some (resolveMatchParticipants size tracks winners r m)
       ↔ recorded winners (r - 1) (m * 2) ∧ recorded winners (r - 1) (m * 2 + 1))
  ∧ (∀ tracks8 : list string,
       resolveMatchParticipants 8 tracks8 ∅ 1 0 = None).
Proof.
  intros Hlen. split; [|split].
  - by apply resolve_is_Some_round0.
  - intros r Hr. by apply resolve_is_Some_later.
  - intros tracks8. unfold resolveMatchParticipants.
    destruct (negb (length tracks8 =? 8)); [done|].
    cbn. by rewrite lookup_empty.
Qed.

Lemma resolveMatchParticipants_defined_witness :
  is_Some (resolveMatchParticipants 4 ["a"; "b"; "c"; "d"] ∅ 0 1)
  ↔ slotFilled ["a"; "b"; "c"; "d"] (1 * 2)
    ∧ slotFilled ["a"; "b"; "c"; "d"] (1 * 2 + 1).
Proof.
  apply (resolveMatchParticipants_defined 4 ["a"; "b"; "c"; "d"] ∅ 1).
  reflexivity.
Defined.

(** C5 as worded fails when [size] differs from [tracks.length]: slots 0 and
    1 exist, yet the size guard answers "not resolvable". *)
Lemma resolve_size_mismatch_counterexample :
  ¬ (is_Some (resolveMatchParticipants 4 ["a"; "b"] ∅ 0 0)
     ↔ slotFilled ["a"; "b"] (0 * 2) ∧ slotFilled ["a"; "b"] (0 * 2 + 1)).
Proof.
  intros [_ H]. destruct H as [p Hp].
  - split; reflexivity.
  - discriminate Hp.
Qed.

(** ** [nextOpenMatch] *)

Section NextOpen.

Variables (size : nat) (tracks : list string) (winners : gmap string string).

(** The inner loop over [s, s+1, ..., s+n-1] stops at the least open
    index. *)
Lemma nextOpenIn_Some r s n mr :
  nextOpenIn size tracks winners r (seq s n) = Some mr →
  ∃ m, s ≤ m < s + n
       ∧ round mr = Z.of_nat r ∧ match_ mr = Z.of_nat m
       ∧ ¬ recorded winners (Z.of_nat r) (Z.of_nat m)
       ∧ resolveMatchParticipants size tracks winners (Z.of_nat r) (Z.of_nat m)
         = Some (a mr, b mr)
       ∧ ∀ m', s ≤ m' < m → ¬ isOpen size tracks winners r m'.
Proof.
  revert s. induction n as [|n IH]; intros s; [discriminate|].
  cbn [seq nextOpenIn].
  destruct (truthy (winners !! matchKey (Z.of_nat r) (Z.of_nat s))) eqn:Hrec.
  - intros (m & Hm & Hr & Hmm & Hun & Hres & Hleast)%IH.
    exists m. repeat split; try done; try lia.
    intros m' Hm'. destruct (decide (m' = s)) as [->|Hne].
    + intros [Hopen _]. by apply Hopen.
    + apply Hleast. lia.
  - destruct (resolveMatchParticipants size tracks winners
                (Z.of_nat r) (Z.of_nat s)) as [[pa pb]|] eqn:Hres.
    + intros [= <-]. exists s. cbn.
      repeat split; try done; try lia.
      unfold recorded. by rewrite Hrec.
    + intros (m & Hm & Hr & Hmm & Hun & Hres' & Hleast)%IH.
      exists m. repeat split; try done; try lia.
      intros m' Hm'. destruct (decide (m' = s)) as [->|Hne].
      * intros [_ [p Hp]]. congruence.
      * apply Hleast. lia.
Qed.

Lemma nextOpenIn_None r s n :
  nextOpenIn size tracks winners r (seq s n) = None →
  ∀ m, s ≤ m < s + n → ¬ isOpen size tracks winners r m.
Proof.
  revert s. induction n as [|n IH]; intros s Hnone m Hm; [lia|].
  cbn [seq nextOpenIn] in Hnone.
  destruct (decide (m = s)) as [->|Hne].
  - intros [Hun [p Hp]].
    destruct (truthy (winners !! matchKey (Z.of_nat r) (Z.of_nat s))) eqn:Hrec.
    + by apply Hun.
    + rewrite Hp in Hnone. by destruct p.
  - destruct (truthy (winners !! matchKey (Z.of_nat r) (Z.of_nat s))).
    + apply (IH (S s)); [done|lia].
    + destruct (resolveMatchParticipants size tracks winners
                  (Z.of_nat r) (Z.of_nat s)) as [[pa pb]|]; [done|].
      apply (IH (S s)); [done|lia].
Qed.

Lemma nextOpenFrom_Some s n mr :
  nextOpenFrom size tracks winners (seq s n) = Some mr →
  ∃ r m, s ≤ r < s + n ∧ m < matchCount size r
         ∧ round mr = Z.of_nat r ∧ match_ mr = Z.of_nat m
         ∧ ¬ recorded winners (Z.of_nat r) (Z.of_nat m)
         ∧ resolveMatchParticipants size tracks winners
             (Z.of_nat r) (Z.of_nat m) = Some (a mr, b mr)
         ∧ ∀ r' m', s ≤ r' → m' < matchCount size r' →
             isOpen size tracks winners r' m' → lexLe r m r' m'.
Proof.
  revert s. induction n as [|n IH]; intros s; [discriminate|].
  cbn [seq nextOpenFrom].
  destruct (nextOpenIn size tracks winners s (seq 0 (matchCount size s)))
    as [found|] eqn:Hin.
  - intros [= <-].
    apply nextOpenIn_Some in Hin as (m & Hm & Hr & Hmm & Hun & Hres & Hleast).
    exists s, m. repeat split; try done; try lia.
    intros r' m' Hr' Hm' Hopen. unfold lexLe.
    destruct (decide (r' = s)) as [->|Hne]; [|left; lia].
    right. split; [done|].
    destruct (decide (m ≤ m')) as [|Hgt]; [done|].
    destruct (Hleast m'); [lia|done].
  - intros (r & m & Hr & Hm & Hround & Hmatch & Hun & Hres & Hleast)%IH.
    exists r, m. repeat split; try done; try lia.
    intros r' m' Hr' Hm' Hopen.
    destruct (decide (r' = s)) as [->|Hne].
    + destruct (nextOpenIn_None _ _ _ Hin m'); [lia|done].
    + apply Hleast; [lia|done..].
Qed.

Lemma nextOpenFrom_None s n :
  nextOpenFrom size tracks winners (seq s n) = None →
  ∀ r m, s ≤ r < s + n → m < matchCount size r →
    ¬ isOpen size tracks winners r m.
Proof.
  revert s. induction n as [|n IH]; intros s Hnone r m Hr Hm; [lia|].
  cbn [seq nextOpenFrom] in Hnone.
  destruct (nextOpenIn size tracks winners s (seq 0 (matchCount size s)))
    as [found|] eqn:Hin; [done|].
  destruct (decide (r = s)) as [->|Hne].
  - apply (nextOpenIn_None _ _ _ Hin). lia.
  - apply (IH (S s)); [done|lia|done].
Qed.

End NextOpen.

(** With feeder closure, a recorded final forces every match of the
    bracket to be recorded. *)
Lemma feederClosed_all_recorded k winners :
  1 ≤ k →
  feederClosed (2 ^ k) k winners →
  recorded winners (Z.of_nat k - 1) 0 →
  fullyDecided (2 ^ k) k winners.
Proof.
  intros Hk Hclosed Hfinal.
  cut (∀ d r m, r + d = k - 1 → m < matchCount (2 ^ k) r →
         recorded winners (Z.of_nat r) (Z.of_nat m)).
  { intros Hall r m [Hr Hm]. apply (Hall (k - 1 - r)); [lia|done]. }
  induction d as [|d IH]; intros r m Hr Hm.
  - assert (r = k - 1) as -> by lia.
    rewrite matchCount_final in Hm by done.
    assert (m = 0) as -> by lia.
    replace (Z.of_nat (k - 1)) with (Z.of_nat k - 1)%Z by lia. exact Hfinal.
  - rewrite matchCount_feeders in Hm by lia.
    assert (m / 2 < matchCount (2 ^ k) (S r)) as Hhalf.
    { apply Nat.Div0.div_lt_upper_bound. lia. }
    pose proof (IH (S r) (m / 2) ltac:(lia) Hhalf) as Hup.
    apply Hclosed in Hup as [Heven Hodd]; [|split; [lia|done]].
    pose proof (Nat.div_mod_eq m 2) as Hdm.
    pose proof (Nat.mod_upper_bound m 2 ltac:(lia)) as Hmod.
    destruct (decide (m `mod` 2 = 0)) as [H0|H1].
    + replace m with (2 * (m / 2)) at 1 by lia. exact Heven.
    + replace m with (2 * (m / 2) + 1) at 1 by lia. exact Hodd.
Qed.

(** C4, as the code has it.  For a power-of-two size and any winners map,
    [nextOpenMatch] returns normally; a returned match belongs to the
    bracket, has no recorded winner, carries its resolved entrants, and is
    the lexicographically least open match of the bracket; and it returns
    null once the final is recorded provided the winners map is closed
    under feeders (a recorded match past round 0 has both feeders
    recorded), which holds of the empty map and is kept by every vote. *)
Theorem nextOpenMatch_least
    (size k : nat) (tracks : list string) (winners : gmap string string) :
  size = 2 ^ k →
  ∃ result,
    nextOpenMatch size tracks winners = Ret result
    ∧ (∀ mr, result = Some mr →
         ∃ r m, round mr = Z.of_nat r ∧ match_ mr = Z.of_nat m
                ∧ inBracket size k r m
                ∧ ¬ recorded winners (Z.of_nat r) (Z.of_nat m)
                ∧ resolveMatchParticipants size tracks winners
                    (Z.of_nat r) (Z.of_nat m) = Some (a mr, b mr)
                ∧ ∀ r' m', inBracket size k r' m' →
                    isOpen size tracks winners r' m' → lexLe r m r' m')
    ∧ (result = None →
         ∀ r m, inBracket size k r m → ¬ isOpen size tracks winners r m)
    ∧ (feederClosed size k winners →
       recorded winners (Z.of_nat k - 1) 0 → result = None).
Proof.
  intros ->. unfold nextOpenMatch. rewrite totalRounds_pow2.
  eexists. split; [reflexivity|]. split; [|split].
  - intros mr Hmr.
    apply nextOpenFrom_Some in Hmr
      as (r & m & Hr & Hm & Hround & Hmatch & Hun & Hres & Hleast).
    exists r, m. repeat split; try done; try lia.
    intros r' m' [Hr' Hm'] Hopen. apply Hleast; [lia|done..].
  - intros Hnone r m [Hr Hm].
    apply (nextOpenFrom_None _ _ _ _ _ Hnone); [lia|done].
  - intros Hclosed Hfinal.
    destruct (nextOpenFrom (2 ^ k) tracks winners (seq 0 k)) as [mr|] eqn:Hres;
      [|done].
    apply nextOpenFrom_Some in Hres
      as (r & m & Hr & Hm & _ & _ & Hun & _).
    destruct Hun.
    apply (feederClosed_all_recorded k winners); [lia|done..|].
    split; [lia|done].
Qed.

Lemma nextOpenMatch_least_witness :
  ∃ result,
    nextOpenMatch 4 ["a"; "b"; "c"; "d"] {[ "r0m0" := "a" ]} = Ret result
    ∧ (∀ mr, result = Some mr →
         ∃ r m, round mr = Z.of_nat r ∧ match_ mr = Z.of_nat m
                ∧ inBracket 4 2 r m
                ∧ ¬ recorded {[ "r0m0" := "a" ]} (Z.of_nat r) (Z.of_nat m)
                ∧ resolveMatchParticipants 4 ["a"; "b"; "c"; "d"]
                    {[ "r0m0" := "a" ]} (Z.of_nat r) (Z.of_nat m)
                  = Some (a mr, b mr)
                ∧ ∀ r' m', inBracket 4 2 r' m' →
                    isOpen 4 ["a"; "b"; "c"; "d"] {[ "r0m0" := "a" ]} r' m' →
                    lexLe r m r' m')
    ∧ (result = None →
         ∀ r m, inBracket 4 2 r m →
           ¬ isOpen 4 ["a"; "b"; "c"; "d"] {[ "r0m0" := "a" ]} r m)
    ∧ (feederClosed 4 2 {[ "r0m0" := "a" ]} →
       recorded {[ "r0m0" := "a" ]} (Z.of_nat 2 - 1) 0 → result = None).
Proof.
  apply (nextOpenMatch_least 4 2 ["a"; "b"; "c"; "d"] {[ "r0m0" := "a" ]}).
  reflexivity.
Defined.

(** C4 as worded fails for an arbitrary winners map: with only the final
    recorded, round 0 is still open and is returned. *)
Lemma nextOpenMatch_final_recorded_counterexample :
  recorded {[ "r1m0" := "a" ]} 1 0
  ∧ nextOpenMatch 4 ["a"; "b"; "c"; "d"] {[ "r1m0" := "a" ]}
    = Ret (Some {| round := 0; match_ := 0; a := "a"; b := "b" |}).
Proof. split; reflexivity. Qed.

(** ** [computeRanking] on a fully decided bracket *)

Lemma index_nat {A} (l : list A) (i : nat) : index l (Z.of_nat i) = l !! i.
Proof.
  unfold index. destruct (Z.of_nat i <? 0)%Z eqn:H.
  - apply Z.ltb_lt in H. lia.
  - by rewrite Nat2Z.id.
Qed.

Lemma pushLosers_concat lbr rs ranking :
  pushLosers lbr rs ranking
  = ranking ++ concat (map (λ r, default [] (lbr !! r)) rs).
Proof.
  revert ranking. induction rs as [|r rs IH]; intros ranking; cbn.
  - by rewrite app_nil_r.
  - rewrite IH. by rewrite <- app_assoc.
Qed.

Lemma rankRounds_app size tracks winners rounds rs1 rs2 acc :
  rankRounds size tracks winners rounds (rs1 ++ rs2) acc
  = match rankRounds size tracks winners rounds rs1 acc with
    | Some acc' => rankRounds size tracks winners rounds rs2 acc'
    | None => None
    end.
Proof.
  revert acc. induction rs1 as [|r rs1 IH]; intros acc; cbn; [done|].
  destruct (rankMatches size tracks winners rounds r _ acc); [apply IH|done].
Qed.

Section Decided.

Variables (k : nat) (tracks : list string) (winners : gmap string string).

Hypothesis Hk : 1 ≤ k.
Hypothesis Hlen : length tracks = 2 ^ k.
Hypothesis Hids : Forall (λ t, t ≠ "") tracks.
Hypothesis Hall : fullyDecided (2 ^ k) k winners.

Let size := 2 ^ k.

Lemma decided_winner r m :
  inBracket size k r m →
  winners !! matchKey (Z.of_nat r) (Z.of_nat m) = Some (winnerOf winners r m)
  ∧ winnerOf winners r m ≠ "".
Proof.
  intros Hin. apply Hall in Hin. unfold recorded in Hin.
  apply truthy_spec in Hin as (w & Hw & Hne).
  unfold winnerOf. rewrite Hw. done.
Qed.

Lemma decided_slot i :
  i < size → ∃ t, tracks !! i = Some t ∧ t ≠ "".
Proof.
  intros Hi. destruct (lookup_lt_is_Some_2 tracks i) as [t Ht].
  { rewrite Hlen. exact Hi. }
  exists t. split; [done|].
  eapply (proj1 (Forall_lookup _ _) Hids); eauto.
Qed.

Lemma decided_participants r m :
  inBracket size k r m →
  resolveMatchParticipants size tracks winners (Z.of_nat r) (Z.of_nat m)
  = Some (participantsOf tracks winners r m)
  ∧ (participantsOf tracks winners r m).1 ≠ ""
  ∧ (participantsOf tracks winners r m).2 ≠ "".
Proof.
  intros [Hr Hm]. destruct r as [|r].
  - pose proof (matchCount_first k Hk) as Hfirst. fold size in Hfirst.
    destruct (decided_slot (2 * m)) as (ta & Ha & Hane); [lia|].
    destruct (decided_slot (2 * m + 1)) as (tb & Hb & Hbne); [lia|].
    cbn [participantsOf]. rewrite Ha, Hb. cbn [default fst snd].
    split; [|done].
    change (Z.of_nat 0) with 0%Z. apply resolve_round0; [done|].
    replace (Z.of_nat m * 2)%Z with (Z.of_nat (2 * m)) by lia.
    replace (Z.of_nat (2 * m) + 1)%Z with (Z.of_nat (2 * m + 1)) by lia.
    rewrite !index_nat. done.
  - pose proof (matchCount_feeders k r Hr) as Hfeed. fold size in Hfeed.
    destruct (decided_winner r (2 * m)) as [Ha Hane]; [split; lia|].
    destruct (decided_winner r (2 * m + 1)) as [Hb Hbne]; [split; lia|].
    cbn [participantsOf fst snd]. split; [|done].
    apply resolve_later; [done|lia|].
    replace (Z.of_nat (S r) - 1)%Z with (Z.of_nat r) by lia.
    replace (Z.of_nat m * 2)%Z with (Z.of_nat (2 * m)) by lia.
    replace (Z.of_nat (2 * m) + 1)%Z with (Z.of_nat (2 * m + 1)) by lia.
    done.
Qed.

Lemma decided_loser r m :
  inBracket size k r m → loserOf tracks winners r m ≠ "".
Proof.
  intros Hin. destruct (decided_participants r m Hin) as (_ & Ha & Hb).
  unfold loserOf. destruct (participantsOf tracks winners r m) as [pa pb].
  by destruct (String.eqb _ _).
Qed.

(** One step of the inner loop on a match of the bracket. *)
Lemma rankMatches_step r m ms acc :
  inBracket size k r m →
  rankMatches size tracks winners k r (m :: ms) acc
  = rankMatches size tracks winners k r ms
      (if r =? k - 1
       then {| loserByRound := loserByRound acc;
               runnerUp := Some (loserOf tracks winners r m) |}
       else {| loserByRound :=
                 alter (λ l, l ++ [loserOf tracks winners r m]) r
                   (loserByRound acc);
               runnerUp := runnerUp acc |}).
Proof.
  intros Hin. cbn [rankMatches].
  destruct (decided_participants r m Hin) as (-> & _ & _).
  destruct (decided_winner r m Hin) as [Hw Hne].
  unfold loserOf.
  destruct (participantsOf tracks winners r m) as [pa pb].
  rewrite Hw. apply truthy_Some in Hne. rewrite Hne. cbn [negb].
  reflexivity.
Qed.

(** A round before the final appends its losers, in match order, to its
    own row. *)
Lemma rankMatches_early r s n pre cur post ru :
  r < k - 1 → length pre = r → s + n ≤ matchCount size r →
  rankMatches size tracks winners k r (seq s n)
    {| loserByRound := pre ++ cur :: post; runnerUp := ru |}
  = Some {| loserByRound :=
              pre ++ (cur ++ map (loserOf tracks winners r) (seq s n)) :: post;
            runnerUp := ru |}.
Proof.
  intros Hr Hpre. revert s cur. induction n as [|n IH]; intros s cur Hs.
  - cbn. by rewrite app_nil_r.
  - cbn [seq]. rewrite rankMatches_step by (split; lia).
    destruct (r =? k - 1) eqn:Heq; [apply Nat.eqb_eq in Heq; lia|].
    cbn [loserByRound runnerUp].
    replace r with (length pre + 0) at 2 by lia.
    rewrite alter_app_r. cbn [alter list_alter].
    rewrite IH by lia. cbn [map]. by rewrite <- app_assoc.
Qed.

Lemma rankMatches_final acc :
  rankMatches size tracks winners k (k - 1) (seq 0 (matchCount size (k - 1))) acc
  = Some {| loserByRound := loserByRound acc;
            runnerUp := Some (loserOf tracks winners (k - 1) 0) |}.
Proof.
  unfold size. rewrite matchCount_final by done. cbn [seq].
  rewrite rankMatches_step.
  - by rewrite Nat.eqb_refl.
  - split; [lia|]. unfold size. rewrite matchCount_final by done. lia.
Qed.

Lemma rankRounds_early j :
  j ≤ k - 1 →
  rankRounds size tracks winners k (seq 0 j)
    {| loserByRound := replicate k []; runnerUp := None |}
  = Some {| loserByRound :=
              map (losersOfRound size tracks winners) (seq 0 j)
              ++ replicate (k - j) [];
            runnerUp := None |}.
Proof.
  induction j as [|j IH]; intros Hj.
  - cbn. by rewrite Nat.sub_0_r.
  - rewrite seq_S, rankRounds_app, IH by lia. cbn [rankRounds Nat.add].
    replace (k - j) with (S (k - S j)) by lia. cbn [replicate].
    rewrite rankMatches_early; [|lia| |lia].
    + rewrite map_app. cbn [map app]. rewrite <- app_assoc. reflexivity.
    + by rewrite length_map, length_seq.
Qed.

Lemma rankRounds_all :
  rankRounds size tracks winners k (seq 0 k)
    {| loserByRound := replicate k []; runnerUp := None |}
  = Some {| loserByRound :=
              map (losersOfRound size tracks winners) (seq 0 (k - 1)) ++ [[]];
            runnerUp := Some (loserOf tracks winners (k - 1) 0) |}.
Proof.
  replace k with (S (k - 1)) at 2 by lia.
  rewrite seq_S, rankRounds_app, rankRounds_early by lia.
  cbn [rankRounds Nat.add]. rewrite rankMatches_final.
  cbn [loserByRound]. replace (k - (k - 1)) with 1 by lia. reflexivity.
Qed.

Lemma pushLosers_rows (ranking : list string) :
  pushLosers
    (map (losersOfRound size tracks winners) (seq 0 (k - 1)) ++ [[]])
    (reverse (seq 0 (k - 1))) ranking
  = ranking ++ concat (map (losersOfRound size tracks winners)
                         (reverse (seq 0 (k - 1)))).
Proof.
  rewrite pushLosers_concat. do 2 f_equal.
  apply map_ext_in. intros r Hr.
  apply list_elem_of_In, elem_of_reverse, elem_of_seq in Hr.
  rewrite lookup_app_l by (rewrite length_map, length_seq; lia).
  rewrite list_lookup_fmap, lookup_seq_lt by lia. reflexivity.
Qed.

(** The loops of [computeRanking] produce the ranking of the document. *)
Lemma computeRanking_decided :
  computeRanking size tracks winners
  = Ret (Some (rankingOf size tracks winners k)).
Proof.
  unfold computeRanking, bracketWinner. unfold size at 1 2.
  rewrite totalRounds_pow2.
  assert (inBracket size k (k - 1) 0) as Hfinal.
  { split; [lia|]. unfold size. rewrite matchCount_final by done. lia. }
  destruct (decided_winner (k - 1) 0 Hfinal) as [Hw Hne].
  replace (Z.of_nat (k - 1)) with (Z.of_nat k - 1)%Z in Hw by lia.
  change (Z.of_nat 0) with 0%Z in Hw. rewrite Hw.
  apply truthy_Some in Hne. rewrite Hne. cbn [negb].
  fold size. rewrite rankRounds_all. cbn [runnerUp loserByRound].
  pose proof (decided_loser (k - 1) 0 Hfinal) as Hl.
  apply truthy_Some in Hl. rewrite Hl. cbn [negb].
  rewrite pushLosers_rows. reflexivity.
Qed.

End Decided.

(** ** The ranking is a rearrangement of the slots *)

(** A list of even length is the concatenation of its consecutive pairs. *)
Lemma pairs_flatten (pre l : list string) s n :
  length pre = 2 * s → length l = 2 * n →
  concat (map (λ m, [default "" ((pre ++ l) !! (2 * m));
                     default "" ((pre ++ l) !! (2 * m + 1))]) (seq s n)) = l.
Proof.
  revert pre l s. induction n as [|n IH]; intros pre l s Hpre Hl.
  - destruct l; [done|]. cbn in Hl. lia.
  - destruct l as [|x [|y l]]; cbn in Hl; try lia.
    cbn [seq map concat].
    rewrite !lookup_app_r by lia.
    replace (2 * s - length pre) with 0 by lia.
    replace (2 * s + 1 - length pre) with 1 by lia.
    cbn [lookup list_lookup default app]. do 2 f_equal.
    replace (pre ++ x :: y :: l) with ((pre ++ [x; y]) ++ l)
      by (by rewrite <- app_assoc).
    apply IH; [rewrite length_app; cbn; lia | lia].
Qed.

(** Winners followed by losers rearrange the entrants, match by match. *)
Lemma winners_losers_perm (w l pa pb : nat → string) ms :
  (∀ m, m ∈ ms → [w m; l m] ≡ₚ [pa m; pb m]) →
  map w ms ++ map l ms ≡ₚ concat (map (λ m, [pa m; pb m]) ms).
Proof.
  induction ms as [|m ms IH]; intros Hm; cbn; [done|].
  rewrite <- Permutation_middle.
  change (w m :: l m :: map w ms ++ map l ms)
    with ([w m; l m] ++ (map w ms ++ map l ms)).
  change (pa m :: pb m :: concat (map (λ m0, [pa m0; pb m0]) ms))
    with ([pa m; pb m] ++ concat (map (λ m0, [pa m0; pb m0]) ms)).
  apply Permutation_app.
  - apply Hm. by left.
  - apply IH. intros m' Hm'. apply Hm. by right.
Qed.

Section Valid.

Variables (k : nat) (tracks : list string) (winners : gmap string string).

Hypothesis Hk : 1 ≤ k.
Hypothesis Hlen : length tracks = 2 ^ k.
Hypothesis Hvalid : validlyDecided (2 ^ k) k tracks winners.

Let size := 2 ^ k.

Lemma resolved_nonempty r m pa pb :
  resolveMatchParticipants size tracks winners (Z.of_nat r) (Z.of_nat m)
  = Some (pa, pb) → pa ≠ "" ∧ pb ≠ "".
Proof.
  destruct r as [|r]; intros H.
  - change (Z.of_nat 0) with 0%Z in H.
    apply resolve_round0 in H as (_ & _ & ? & ?); done.
  - apply resolve_later in H as (_ & _ & ? & ?); [done..|lia].
Qed.

Lemma valid_fullyDecided : fullyDecided size k winners.
Proof.
  intros r m Hin.
  destruct (Hvalid r m Hin) as (pa & pb & w & Hres & Hw & Hor).
  apply resolved_nonempty in Hres as [Ha Hb].
  unfold recorded. rewrite Hw. apply truthy_Some.
  by destruct Hor as [-> | ->].
Qed.

Lemma valid_ids : Forall (λ t, t ≠ "") tracks.
Proof.
  apply Forall_lookup. intros i t Hi.
  pose proof (lookup_lt_Some _ _ _ Hi) as Hlt. rewrite Hlen in Hlt.
  pose proof (matchCount_first k Hk) as Hfirst.
  assert (inBracket size k 0 (i / 2)) as Hin.
  { split; [lia|]. apply Nat.Div0.div_lt_upper_bound. unfold size. lia. }
  destruct (Hvalid 0 (i / 2) Hin) as (pa & pb & w & Hres & _).
  change (Z.of_nat 0) with 0%Z in Hres.
  apply resolve_round0 in Hres as (Ha & Hb & Hane & Hbne); [|done].
  replace (Z.of_nat (i / 2) * 2)%Z with (Z.of_nat (2 * (i / 2))) in Ha, Hb by lia.
  replace (Z.of_nat (2 * (i / 2)) + 1)%Z
    with (Z.of_nat (2 * (i / 2) + 1)) in Hb by lia.
  rewrite index_nat in Ha, Hb.
  pose proof (Nat.div_mod_eq i 2) as Hdm.
  pose proof (Nat.mod_upper_bound i 2 ltac:(lia)) as Hmod.
  destruct (decide (i `mod` 2 = 0)) as [H0|H1].
  - replace (2 * (i / 2)) with i in Ha by lia. congruence.
  - replace (2 * (i / 2) + 1) with i in Hb by lia. congruence.
Qed.

Lemma valid_match_perm r m :
  inBracket size k r m →
  [winnerOf winners r m; loserOf tracks winners r m]
  ≡ₚ [(participantsOf tracks winners r m).1;
      (participantsOf tracks winners r m).2].
Proof.
  intros Hin.
  destruct (Hvalid r m Hin) as (pa & pb & w & Hres & Hw & Hor).
  destruct (decided_participants k tracks winners Hk Hlen valid_ids
              valid_fullyDecided r m Hin) as (Hres' & _).
  pose proof (eq_trans (eq_sym Hres) Hres') as [= Hp].
  unfold loserOf, winnerOf. rewrite Hw, <- Hp. simpl.
  destruct (String.eqb_spec w pa) as [->|Hne]; [done|].
  destruct Hor as [->| ->]; [done|]. apply perm_swap.
Qed.

(** The entrants of a round, in bracket order. *)
Lemma entrants_round0 :
  concat (map (λ m, [(participantsOf tracks winners 0 m).1;
                     (participantsOf tracks winners 0 m).2])
            (seq 0 (matchCount size 0))) = tracks.
Proof.
  apply (pairs_flatten [] tracks 0); [done|].
  unfold size. rewrite matchCount_first; done.
Qed.

Lemma entrants_later r :
  S r < k →
  concat (map (λ m, [(participantsOf tracks winners (S r) m).1;
                     (participantsOf tracks winners (S r) m).2])
            (seq 0 (matchCount size (S r))))
  = winnersOfRound size winners r.
Proof.
  intros Hr.
  pose proof (matchCount_feeders k r Hr) as Hfeed. fold size in Hfeed.
  etrans; [|apply (pairs_flatten [] (winnersOfRound size winners r) 0
                    (matchCount size (S r)));
            [done|unfold winnersOfRound; rewrite length_map, length_seq; lia]].
  f_equal. apply map_ext_in. intros m Hm%in_seq.
  cbn [participantsOf fst snd app]. unfold winnersOfRound.
  rewrite !list_lookup_fmap, !lookup_seq_lt by lia. reflexivity.
Qed.

Lemma round_perm r :
  r < k →
  winnersOfRound size winners r ++ losersOfRound size tracks winners r
  ≡ₚ match r with
     | O => tracks
     | S r' => winnersOfRound size winners r'
     end.
Proof.
  intros Hr.
  assert (winnersOfRound size winners r ++ losersOfRound size tracks winners r
          ≡ₚ concat (map (λ m, [(participantsOf tracks winners r m).1;
                                (participantsOf tracks winners r m).2])
                       (seq 0 (matchCount size r)))) as ->.
  { apply (winners_losers_perm (winnerOf winners r) (loserOf tracks winners r)).
    intros m Hm%elem_of_seq. apply valid_match_perm. split; [done|lia]. }
  destruct r as [|r].
  - by rewrite entrants_round0.
  - by rewrite entrants_later.
Qed.

Lemma reverse_seq_S n : reverse (seq 0 (S n)) = n :: reverse (seq 0 n).
Proof. by rewrite seq_S, reverse_app. Qed.

Lemma rounds_perm j :
  j < k →
  winnersOfRound size winners j
  ++ concat (map (losersOfRound size tracks winners) (reverse (seq 0 (S j))))
  ≡ₚ tracks.
Proof.
  induction j as [|j IH]; intros Hj.
  - cbn [seq reverse map concat]. change (reverse [0]) with [0].
    cbn [map concat]. rewrite app_nil_r. by rewrite (round_perm 0).
  - rewrite reverse_seq_S. cbn [map concat].
    rewrite app_assoc, (round_perm (S j)) by done.
    apply IH. lia.
Qed.

Lemma rankingOf_perm : rankingOf size tracks winners k ≡ₚ tracks.
Proof.
  etrans; [|apply (rounds_perm (k - 1)); lia].
  assert (winnersOfRound size winners (k - 1) = [winnerOf winners (k - 1) 0])
    as ->.
  { unfold winnersOfRound, size. by rewrite matchCount_final. }
  rewrite reverse_seq_S. cbn [map concat].
  assert (losersOfRound size tracks winners (k - 1)
          = [loserOf tracks winners (k - 1) 0]) as ->.
  { unfold losersOfRound, size. by rewrite matchCount_final. }
  reflexivity.
Qed.

End Valid.

(** C1. For every fully decided bracket, [computeRanking] returns the
    champion, then the runner-up, then for each round from
    [totalRounds - 2] down to [0] the losers of that round in ascending
    match-index order; on scenario A (size 8, slots a..h, round 0 won by
    a, d, e, h, round 1 by a, h, final by a) it returns
    [a, h, d, e, b, c, f, g]. *)
Theorem computeRanking_order :
  (∀ (k : nat) (tracks : list string) (winners : gmap string string),
     1 ≤ k → length tracks = 2 ^ k → Forall (λ t, t ≠ "") tracks →
     fullyDecided (2 ^ k) k winners →
     computeRanking (2 ^ k) tracks winners
     = Ret (Some ([winnerOf winners (k - 1) 0;
                   loserOf tracks winners (k - 1) 0]
                  ++ concat (map (losersOfRound (2 ^ k) tracks winners)
                               (reverse (seq 0 (k - 1)))))))
  ∧ computeRanking 8 Scenario.tracksA Scenario.winnersA
    = Ret (Some ["a"; "h"; "d"; "e"; "b"; "c"; "f"; "g"]).
Proof.
  split.
  - intros k tracks winners Hk Hlen Hids Hall.
    by apply computeRanking_decided.
  - vm_compute. reflexivity.
Qed.

Lemma computeRanking_order_witness :
  computeRanking (2 ^ 1) ["a"; "b"] {[ "r0m0" := "b" ]}
  = Ret (Some ([winnerOf {[ "r0m0" := "b" ]} (1 - 1) 0;
                loserOf ["a"; "b"] {[ "r0m0" := "b" ]} (1 - 1) 0]
               ++ concat (map (losersOfRound (2 ^ 1) ["a"; "b"] {[ "r0m0" := "b" ]})
                            (reverse (seq 0 (1 - 1)))))).
Proof.
  apply (proj1 computeRanking_order 1 ["a"; "b"] {[ "r0m0" := "b" ]}).
  - lia.
  - reflexivity.
  - repeat constructor; discriminate.
  - intros r m [Hr Hm]. assert (r = 0) as -> by lia.
    change (matchCount (2 ^ 1) 0) with 1 in Hm. assert (m = 0) as -> by lia.
    reflexivity.
Defined.

(** C2. For a bracket of power-of-two size [N >= 4] over [N] distinct
    identifiers, fully decided with every recorded winner one of the
    match's resolved entrants, [computeRanking] returns a list of exactly
    [N] distinct identifiers (a rearrangement of the slots) whose first
    element is the winner of the final and whose second is its loser. *)
Theorem computeRanking_roundtrip
    (k : nat) (tracks : list string) (winners : gmap string string) :
  2 ≤ k → length tracks = 2 ^ k → NoDup tracks →
  validlyDecided (2 ^ k) k tracks winners →
  ∃ ranking pa pb w,
    computeRanking (2 ^ k) tracks winners = Ret (Some ranking)
    ∧ length ranking = 2 ^ k
    ∧ NoDup ranking
    ∧ ranking ≡ₚ tracks
    ∧ resolveMatchParticipants (2 ^ k) tracks winners (Z.of_nat k - 1) 0
      = Some (pa, pb)
    ∧ winners !! matchKey (Z.of_nat k - 1) 0 = Some w
    ∧ ranking !! 0 = Some w
    ∧ ((w = pa ∧ ranking !! 1 = Some pb) ∨ (w = pb ∧ ranking !! 1 = Some pa)).
Proof.
  intros Hk Hlen Hnodup Hvalid.
  assert (1 ≤ k) as Hk1 by lia.
  assert (Forall (λ t, t ≠ "") tracks) as Hids
    by (eapply valid_ids; eassumption).
  assert (fullyDecided (2 ^ k) k winners) as Hall
    by (eapply valid_fullyDecided; eassumption).
  assert (rankingOf (2 ^ k) tracks winners k ≡ₚ tracks) as Hperm
    by (eapply rankingOf_perm; eassumption).
  assert (inBracket (2 ^ k) k (k - 1) 0) as Hfinal.
  { split; [lia|]. rewrite matchCount_final by done. lia. }
  destruct (Hvalid (k - 1) 0 Hfinal) as (pa & pb & w & Hres & Hw & Hor).
  replace (Z.of_nat (k - 1)) with (Z.of_nat k - 1)%Z in Hres, Hw by lia.
  change (Z.of_nat 0) with 0%Z in Hres, Hw.
  exists (rankingOf (2 ^ k) tracks winners k), pa, pb, w.
  split; [by apply computeRanking_decided|].
  split; [by rewrite Hperm|].
  split; [by rewrite Hperm|].
  split; [done|]. split; [done|]. split; [done|].
  assert (winnerOf winners (k - 1) 0 = w) as Hwin.
  { unfold winnerOf.
    replace (Z.of_nat (k - 1)) with (Z.of_nat k - 1)%Z by lia.
    change (Z.of_nat 0) with 0%Z. by rewrite Hw. }
  destruct (decided_participants k tracks winners Hk1 Hlen Hids Hall
              (k - 1) 0 Hfinal) as (Hres' & _).
  replace (Z.of_nat (k - 1)) with (Z.of_nat k - 1)%Z in Hres' by lia.
  change (Z.of_nat 0) with 0%Z in Hres'.
  pose proof (eq_trans (eq_sym Hres) Hres') as [= Hp].
  unfold rankingOf. cbn [app lookup list_lookup].
  split; [by rewrite Hwin|].
  unfold loserOf. rewrite Hwin, <- Hp.
  destruct (String.eqb_spec w pa) as [->|Hne]; [by left|].
  destruct Hor as [->| ->]; [done|by right].
Qed.

Lemma computeRanking_roundtrip_witness :
  ∃ ranking pa pb w,
    computeRanking (2 ^ 2) Scenario.tracks4 Scenario.winners4 = Ret (Some ranking)
    ∧ length ranking = 2 ^ 2
    ∧ NoDup ranking
    ∧ ranking ≡ₚ Scenario.tracks4
    ∧ resolveMatchParticipants (2 ^ 2) Scenario.tracks4 Scenario.winners4
        (Z.of_nat 2 - 1) 0 = Some (pa, pb)
    ∧ Scenario.winners4 !! matchKey (Z.of_nat 2 - 1) 0 = Some w
    ∧ ranking !! 0 = Some w
    ∧ ((w = pa ∧ ranking !! 1 = Some pb) ∨ (w = pb ∧ ranking !! 1 = Some pa)).
Proof.
  apply (computeRanking_roundtrip 2 Scenario.tracks4 Scenario.winners4).
  - lia.
  - reflexivity.
  - apply (bool_decide_unpack _). vm_compute. reflexivity.
  - intros r m [Hr Hm].
    destruct r as [|[|r]]; [| |lia].
    + change (matchCount (2 ^ 2) 0) with 2 in Hm.
      destruct m as [|[|m]]; [| |lia].
      * exists "a", "b", "a". repeat split; vm_compute; auto.
      * exists "c", "d", "c". repeat split; vm_compute; auto.
    + change (matchCount (2 ^ 2) 1) with 1 in Hm.
      destruct m as [|m]; [|lia].
      exists "a", "c", "a". repeat split; vm_compute; auto.
Defined.

(** ** [computeRanking] on an incomplete winners map *)

Section Incomplete.

Variables (size : nat) (tracks : list string) (winners : gmap string string).

(** The inner loop gives up at the first match that is not resolvable or
    has no recorded winner. *)
Lemma rankMatches_gap rounds r m ms acc :
  m ∈ ms →
  resolveMatchParticipants size tracks winners (Z.of_nat r) (Z.of_nat m) = None
  ∨ ¬ recorded winners (Z.of_nat r) (Z.of_nat m) →
  rankMatches size tracks winners rounds r ms acc = None.
Proof.
  intros Hin Hgap. revert acc.
  induction ms as [|m0 ms IH]; intros acc; [by apply elem_of_nil in Hin|].
  cbn [rankMatches].
  destruct (resolveMatchParticipants size tracks winners
              (Z.of_nat r) (Z.of_nat m0)) as [[pa pb]|] eqn:Hres; [|done].
  destruct (winners !! matchKey (Z.of_nat r) (Z.of_nat m0)) as [w|] eqn:Hw;
    [|done].
  destruct (truthy (Some w)) eqn:Htruthy; cbn [negb]; [|done].
  apply elem_of_cons in Hin as [->|Hin]; [|by apply IH].
  destruct Hgap as [Hnone|Hun]; [congruence|].
  destruct Hun. unfold recorded. by rewrite Hw.
Qed.

Lemma rankRounds_gap rounds r m rs acc :
  r ∈ rs → m < matchCount size r →
  resolveMatchParticipants size tracks winners (Z.of_nat r) (Z.of_nat m) = None
  ∨ ¬ recorded winners (Z.of_nat r) (Z.of_nat m) →
  rankRounds size tracks winners rounds rs acc = None.
Proof.
  intros Hin Hm Hgap. revert acc.
  induction rs as [|r0 rs IH]; intros acc; [by apply elem_of_nil in Hin|].
  cbn [rankRounds].
  apply elem_of_cons in Hin as [->|Hin].
  - rewrite (rankMatches_gap rounds r0 m); [done| |done].
    apply elem_of_seq. lia.
  - destruct (rankMatches size tracks winners rounds r0 _ acc); [|done].
    by apply IH.
Qed.

End Incomplete.

(** C9, as the code has it.  When the final's winner is recorded but some
    match of the bracket is not resolvable or has no recorded winner,
    [computeRanking] returns null, never a partial ranking; null is also
    what it returns while the champion is missing, so the two outcomes
    coincide. *)
Theorem computeRanking_inconsistent
    (size k : nat) (tracks : list string) (winners : gmap string string)
    (r m : nat) :
  size = 2 ^ k →
  recorded winners (Z.of_nat k - 1) 0 →
  inBracket size k r m →
  resolveMatchParticipants size tracks winners (Z.of_nat r) (Z.of_nat m) = None
  ∨ ¬ recorded winners (Z.of_nat r) (Z.of_nat m) →
  computeRanking size tracks winners = Ret None
  ∧ ∀ winners' : gmap string string,
      ¬ recorded winners' (Z.of_nat k - 1) 0 →
      computeRanking size tracks winners' = Ret None.
Proof.
  intros -> Hfinal [Hr Hm] Hgap. split.
  - unfold computeRanking, bracketWinner. rewrite totalRounds_pow2.
    unfold recorded in Hfinal. rewrite Hfinal. cbn [negb].
    apply truthy_spec in Hfinal as (w & -> & _).
    rewrite (rankRounds_gap _ _ _ k r m); [done| |done..].
    apply elem_of_seq. lia.
  - intros winners' Hmissing.
    unfold computeRanking, bracketWinner. rewrite totalRounds_pow2.
    unfold recorded in Hmissing. apply not_true_is_false in Hmissing.
    by rewrite Hmissing.
Qed.

Lemma computeRanking_inconsistent_witness :
  computeRanking 4 Scenario.tracks4 Scenario.winnersFinalOnly = Ret None
  ∧ ∀ winners' : gmap string string,
      ¬ recorded winners' (Z.of_nat 2 - 1) 0 →
      computeRanking 4 Scenario.tracks4 winners' = Ret None.
Proof.
  apply (computeRanking_inconsistent 4 2 Scenario.tracks4
           Scenario.winnersFinalOnly 0 0).
  - reflexivity.
  - reflexivity.
  - split; [lia|]. change (matchCount 4 0) with 2. lia.
  - right. intros H. vm_compute in H. discriminate H.
Defined.

(** C9 as worded fails: a bracket whose final is on record while round 0 is
    not gets the very result of a bracket with no champion yet. *)
Lemma computeRanking_no_distinct_error_counterexample :
  recorded Scenario.winnersFinalOnly 1 0
  ∧ ¬ recorded Scenario.winnersFinalOnly 0 0
  ∧ ¬ recorded ∅ 1 0
  ∧ computeRanking 4 Scenario.tracks4 Scenario.winnersFinalOnly
    = computeRanking 4 Scenario.tracks4 ∅.
Proof.
  split; [reflexivity|].
  split; [intros H; vm_compute in H; discriminate H|].
  split; [intros H; vm_compute in H; discriminate H|].
  vm_compute. reflexivity.
Qed.

(** ** [seededShuffle] *)

Section ShuffleFacts.

Context {T : Type}.
Implicit Types (h : gmap positive (list T)) (l : list T).

Lemma mulberry32_next_range a :
  (0 ≤ (Shuffle.mulberry32_next a).2 < 2 ^ 32)%Z.
Proof.
  unfold Shuffle.mulberry32_next. cbn [snd]. unfold ushr at 1.
  rewrite Z.shiftr_0_r. unfold toUint32. apply Z.mod_pos_bound. lia.
Qed.

(** The drawn index never exceeds the current one. *)
Lemma pickIndex_le u i :
  (0 ≤ u < 2 ^ 32)%Z → Shuffle.pickIndex u i ≤ i.
Proof.
  intros Hu. unfold Shuffle.pickIndex.
  assert (u * (Z.of_nat i + 1) / 2 ^ 32 < Z.of_nat i + 1)%Z.
  { apply Z.div_lt_upper_bound; [lia|]. nia. }
  assert (0 ≤ u * (Z.of_nat i + 1) / 2 ^ 32)%Z.
  { apply Z.div_pos; [nia|lia]. }
  lia.
Qed.

(** The first draw for seed 1 is 2693262067 / 2^32, about 0.62707. *)
Example mulberry32_seed1 :
  Shuffle.mulberry32_next (Shuffle.mulberry32 1)
  = (1831565814%Z, 2693262067%Z).
Proof. vm_compute. reflexivity. Qed.

Lemma shuffleList_perm l i a : shuffleList l i a ≡ₚ l.
Proof.
  revert l a. induction i as [|i IH]; intros l a; [done|].
  cbn [shuffleList]. destruct (Shuffle.mulberry32_next a) as [a' u].
  destruct (l !! S i) as [xi|] eqn:Hi; [|apply IH].
  destruct (l !! Shuffle.pickIndex u (S i)) as [xj|] eqn:Hj; [|apply IH].
  rewrite IH. by apply Permutation_insert_swap.
Qed.

(** The loop only ever writes the cell [out], leaving there the list
    computed by [shuffleList]. *)
Lemma shuffleLoop_spec out i a h l :
  h !! out = Some l → i < length l ∨ i = 0 →
  Shuffle.shuffleLoop out i a h = (tt, <[out := shuffleList l i a]> h).
Proof.
  revert a h l. induction i as [|i IH]; intros a h l Hout Hi.
  - cbn. by rewrite insert_id.
  - destruct Hi as [Hi|?]; [|lia].
    cbn [Shuffle.shuffleLoop shuffleList].
    pose proof (mulberry32_next_range a) as Hu.
    destruct (Shuffle.mulberry32_next a) as [a' u]. cbn [snd] in Hu.
    pose proof (pickIndex_le u (S i) Hu) as Hj.
    destruct (lookup_lt_is_Some_2 l (S i) Hi) as [xi Hxi].
    destruct (lookup_lt_is_Some_2 l (Shuffle.pickIndex u (S i))) as [xj Hxj];
      [lia|].
    unfold Shuffle.bind, Shuffle.swap. rewrite Hout, Hxi, Hxj.
    rewrite (IH a' _ (<[Shuffle.pickIndex u (S i):=xi]> (<[S i:=xj]> l))).
    + by rewrite insert_insert_eq.
    + by rewrite lookup_insert_eq.
    + left. rewrite !length_insert. lia.
Qed.

Lemma seededShuffle_spec h arr l seed :
  h !! arr = Some l →
  Shuffle.seededShuffle arr seed h
  = (fresh (dom h),
     <[fresh (dom h) := shuffleList l (length l - 1) (Shuffle.mulberry32 seed)]> h).
Proof.
  intros Harr.
  unfold Shuffle.seededShuffle, Shuffle.bind, Shuffle.slice,
    Shuffle.arrayLength, Shuffle.ret.
  rewrite Harr, lookup_insert_eq. cbn [default from_option id].
  rewrite (shuffleLoop_spec _ _ _ _ l).
  - by rewrite insert_insert_eq.
  - by rewrite lookup_insert_eq.
  - destruct l; cbn; [by right|left; lia].
Qed.

Lemma shuffled_shuffleList l seed :
  Shuffle.shuffled l seed
  = shuffleList l (length l - 1) (Shuffle.mulberry32 seed).
Proof.
  unfold Shuffle.shuffled.
  rewrite (seededShuffle_spec _ _ l) by apply lookup_singleton_eq.
  by rewrite lookup_insert_eq.
Qed.

Lemma shuffled_perm l seed : Shuffle.shuffled l seed ≡ₚ l.
Proof. rewrite shuffled_shuffleList. apply shuffleList_perm. Qed.

End ShuffleFacts.

(** C7. For every input array and every integer seed, [seededShuffle]
    returns a new array holding a permutation of the input (same elements,
    same length), leaves the input array and every other array as they
    were, and is deterministic: any other call on an array with the same
    contents and the same seed, in whatever store, returns the same
    contents. *)
Theorem seededShuffle_contract {T : Type}
    (h : gmap positive (list T)) (arr : positive) (l : list T) (seed : Z) :
  h !! arr = Some l →
  ∃ out h' l',
    Shuffle.seededShuffle arr seed h = (out, h')
    ∧ h' !! out = Some l'
    ∧ l' ≡ₚ l ∧ length l' = length l
    ∧ out ≠ arr ∧ h' !! arr = Some l
    ∧ (∀ p, p ≠ out → h' !! p = h !! p)
    ∧ (∀ (h2 : gmap positive (list T)) (arr2 : positive),
         h2 !! arr2 = Some l →
         ∃ out2 h2', Shuffle.seededShuffle arr2 seed h2 = (out2, h2')
                     ∧ h2' !! out2 = Some l').
Proof.
  intros Harr.
  exists (fresh (dom h)),
         (<[fresh (dom h) := shuffleList l (length l - 1) (Shuffle.mulberry32 seed)]> h),
         (shuffleList l (length l - 1) (Shuffle.mulberry32 seed)).
  assert (fresh (dom h) ≠ arr) as Hfresh.
  { intros Heq. apply (is_fresh (dom h)). rewrite Heq.
    apply elem_of_dom. by exists l. }
  split; [by apply seededShuffle_spec|].
  split; [by rewrite lookup_insert_eq|].
  split; [apply shuffleList_perm|].
  split; [by rewrite shuffleList_perm|].
  split; [done|].
  split; [by rewrite lookup_insert_ne|].
  split.
  - intros p Hp. by rewrite lookup_insert_ne.
  - intros h2 arr2 Harr2. eexists _, _.
    split; [by apply seededShuffle_spec|].
    by rewrite lookup_insert_eq.
Qed.

Lemma seededShuffle_contract_witness :
  ∃ out h' l',
    Shuffle.seededShuffle 1%positive 7 {[ 1%positive := ["a"; "b"; "c"] ]}
    = (out, h')
    ∧ h' !! out = Some l'
    ∧ l' ≡ₚ ["a"; "b"; "c"] ∧ length l' = length ["a"; "b"; "c"]
    ∧ out ≠ 1%positive ∧ h' !! 1%positive = Some ["a"; "b"; "c"]
    ∧ (∀ p, p ≠ out →
         h' !! p = ({[ 1%positive := ["a"; "b"; "c"] ]} : gmap positive (list string)) !! p)
    ∧ (∀ (h2 : gmap positive (list string)) (arr2 : positive),
         h2 !! arr2 = Some ["a"; "b"; "c"] →
         ∃ out2 h2', Shuffle.seededShuffle arr2 7 h2 = (out2, h2')
                     ∧ h2' !! out2 = Some l').
Proof.
  apply (seededShuffle_contract {[ 1%positive := ["a"; "b"; "c"] ]} 1%positive).
  reflexivity.
Defined.

(** ** The sizing loop *)

Section SizingFacts.

Import Sizing.

Lemma pickUniqueFrom_length tracks want seen out :
  length out ≤ want →
  length (pickUniqueFrom tracks want seen out).1 ≤ want.
Proof.
  revert seen out. induction tracks as [|rt rest IH]; intros seen out Hle.
  - exact Hle.
  - simpl. destruct (want <=? length out) eqn:Hfull; [exact Hle|].
    apply Nat.leb_gt in Hfull.
    destruct (decide (trk_id rt ∈ seen)).
    + apply IH. exact Hle.
    + apply IH. rewrite length_app. simpl. lia.
Qed.

(** A retry always lowers [perUser]: the rounded value is at most the
    number of picks, itself at most [perUser]. *)
Lemma loopBody_Retry_lt host challenger perUser next :
  loopBody host challenger perUser = Retry next → next < perUser.
Proof.
  unfold loopBody, picks.
  pose proof (pickUniqueFrom_length host perUser ∅ []) as Hhost.
  unfold pickUnique.
  destruct (pickUniqueFrom host perUser ∅ []) as [hostPicked seen].
  destruct (pickUniqueFrom challenger perUser seen []) as [challengerPicked ?].
  simpl in Hhost.
  set (effective := length hostPicked `min` length challengerPicked).
  pose proof (Nat.le_min_l (length hostPicked) (length challengerPicked)).
  assert (floorPow2 effective ≤ effective) as Hfloor.
  { destruct effective as [|e]; [done|]. unfold floorPow2.
    apply Nat.log2_spec. lia. }
  destruct (floorPow2 effective <? 4); [discriminate|].
  destruct (floorPow2 effective =? perUser) eqn:Heq; [discriminate|].
  apply Nat.eqb_neq in Heq. intros [= <-].
  specialize (Hhost ltac:(lia)). lia.
Qed.


Lemma sizingLoop_body host challenger perUser :
  sizingLoop host challenger perUser
  = match loopBody host challenger perUser with
    | Fail => NotEnough
    | Accept hostTracks challengerTracks =>
        Selected perUser hostTracks challengerTracks
    | Retry next => sizingLoop host challenger next
    end.
Proof.
  funelim (sizingLoop host challenger perUser);
    match goal with
    | e : loopBody _ _ _ = _ |- _ => by rewrite e
    end.
Qed.

(** The loop ends within [perUser + 1] passes. *)
Lemma sizingLoopWithin_enough fuel host challenger perUser :
  perUser < fuel →
  sizingLoopWithin fuel host challenger perUser
  = Some (sizingLoop host challenger perUser).
Proof.
  revert perUser. induction fuel as [|fuel IH]; intros perUser Hlt; [lia|].
  cbn [sizingLoopWithin]. rewrite sizingLoop_body.
  destruct (loopBody host challenger perUser) as [| |next] eqn:Hbody;
    [done..|].
  apply loopBody_Retry_lt in Hbody. apply IH. lia.
Qed.

(** On candidates that are pairwise distinct and unseen, [pickUnique]
    takes a prefix and records it. *)
Lemma pickUniqueFrom_fresh tracks want seen out :
  NoDup (map trk_id tracks) →
  (∀ x, x ∈ map trk_id tracks → x ∉ seen) →
  length out ≤ want →
  pickUniqueFrom tracks want seen out
  = (out ++ take (want - length out) tracks,
     list_to_set (map trk_id (take (want - length out) tracks)) ∪ seen).
Proof.
  revert seen out.
  induction tracks as [|rt rest IH]; intros seen out Hnd Hnew Hle.
  - cbn. rewrite take_nil, app_nil_r. cbn. f_equal. set_solver.
  - cbn [pickUniqueFrom].
    destruct (want <=? length out) eqn:Hfull.
    + apply Nat.leb_le in Hfull.
      replace (want - length out) with 0 by lia.
      cbn. rewrite app_nil_r. f_equal. set_solver.
    + apply Nat.leb_gt in Hfull.
      cbn [map] in Hnd. apply NoDup_cons in Hnd as [Hhead Hnd].
      destruct (decide (trk_id rt ∈ seen)) as [Hin|_].
      { destruct (Hnew (trk_id rt)); [cbn; by left|done]. }
      rewrite IH; [|done| |rewrite length_app; cbn; lia].
      * rewrite length_app. cbn [length].
        replace (want - length out) with (S (want - (length out + 1))) by lia.
        cbn [take map list_to_set]. rewrite <- app_assoc. cbn [app].
        f_equal. set_solver.
      * intros x Hx. cbn [map] in Hnew.
        pose proof (Hnew x ltac:(by right)). set_solver.
Qed.

Lemma pickUnique_fresh tracks want seen :
  NoDup (map trk_id tracks) →
  (∀ x, x ∈ map trk_id tracks → x ∉ seen) →
  pickUnique tracks want seen
  = (take want tracks, list_to_set (map trk_id (take want tracks)) ∪ seen).
Proof.
  intros Hnd Hnew. unfold pickUnique.
  rewrite pickUniqueFrom_fresh by (done || cbn; lia).
  cbn [length app]. by rewrite Nat.sub_0_r.
Qed.

(** With two duplicate-free candidate lists that share no identifier,
    each side gets its own prefix. *)
Lemma picks_disjoint host challenger perUser :
  NoDup (map trk_id host) → NoDup (map trk_id challenger) →
  (∀ x, x ∈ map trk_id host → x ∉ map trk_id challenger) →
  picks host challenger perUser = (take perUser host, take perUser challenger).
Proof.
  intros Hh Hc Hdisj. unfold picks.
  rewrite pickUnique_fresh by (done || set_solver).
  rewrite pickUnique_fresh; [done|done|].
  intros x Hx Hseen.
  apply elem_of_union in Hseen as [Hseen|Hseen]; [|set_solver].
  apply elem_of_list_to_set in Hseen.
  apply (Hdisj x); [|done].
  apply list_elem_of_fmap in Hseen as (rt & -> & Hrt).
  apply list_elem_of_fmap. exists rt. split; [done|].
  by eapply subseteq_take.
Qed.

End SizingFacts.

(** C6. With 30 unique host candidates, 9 unique challenger candidates, no
    identifier in common and a configured size of 32: [perUser] starts at
    16; the first pass has [effective = 9], rounded down to 8, and retries
    with 8; the second pass has [effective = 8] and accepts the first 8 of
    each side, so the bracket size is 16.  For all inputs a retry strictly
    lowers [perUser], and the loop returns within [perUser + 1] passes.
    Started through the route, in top-tracks and in playlist-vs mode, the
    duel of scenario C is stored with size 16 and 16 slots. *)
Theorem sizing_converges :
  (∀ host challenger : list Sizing.RankedTrack,
     NoDup (map Sizing.trk_id host) → NoDup (map Sizing.trk_id challenger) →
     (∀ x, x ∈ map Sizing.trk_id host → x ∉ map Sizing.trk_id challenger) →
     length host = 30 → length challenger = 9 →
     32 / 2 = 16
     ∧ Sizing.effectiveOf host challenger 16 = 9
     ∧ floorPow2 9 = 8
     ∧ Sizing.loopBody host challenger 16 = Sizing.Retry 8
     ∧ Sizing.effectiveOf host challenger 8 = 8
     ∧ Sizing.loopBody host challenger 8
       = Sizing.Accept (take 8 host) (take 8 challenger)
     ∧ Sizing.sizingLoop host challenger (32 / 2)
       = Sizing.Selected 8 (take 8 host) (take 8 challenger)
     ∧ 8 * 2 = 16)
  ∧ (∀ (host challenger : list Sizing.RankedTrack) (perUser next : nat),
       Sizing.loopBody host challenger perUser = Sizing.Retry next →
       next < perUser)
  ∧ (∀ (host challenger : list Sizing.RankedTrack) (perUser : nat),
       Sizing.sizingLoopWithin (S perUser) host challenger perUser
       = Some (Sizing.sizingLoop host challenger perUser))
  ∧ (Scenario.sizeOf (Scenario.dbStarted "top_tracks") = 16
     ∧ length (Scenario.slotsOf (Scenario.dbStarted "top_tracks")) = 16
     ∧ Scenario.sizeOf (Scenario.dbStarted "playlist_vs") = 16
     ∧ length (Scenario.slotsOf (Scenario.dbStarted "playlist_vs")) = 16).
Proof.
  split; [|split; [|split]]; [| | |repeat split; vm_compute; reflexivity].
  - intros host challenger Hh Hc Hdisj Hlh Hlc.
    assert (Sizing.loopBody host challenger 16 = Sizing.Retry 8) as Hfirst.
    { unfold Sizing.loopBody. rewrite picks_disjoint by done.
      rewrite !length_take, Hlh, Hlc. reflexivity. }
    assert (Sizing.loopBody host challenger 8
            = Sizing.Accept (take 8 host) (take 8 challenger)) as Hsecond.
    { unfold Sizing.loopBody. rewrite picks_disjoint by done.
      rewrite !length_take, Hlh, Hlc. cbn -[take]. by rewrite !take_take. }
    split; [reflexivity|].
    split.
    { unfold Sizing.effectiveOf. rewrite picks_disjoint by done.
      rewrite !length_take, Hlh, Hlc. reflexivity. }
    split; [reflexivity|]. split; [done|].
    split.
    { unfold Sizing.effectiveOf. rewrite picks_disjoint by done.
      rewrite !length_take, Hlh, Hlc. reflexivity. }
    split; [done|]. split; [|reflexivity].
    change (32 / 2) with 16.
    rewrite sizingLoop_body, Hfirst, sizingLoop_body, Hsecond. reflexivity.
  - intros host challenger perUser next. apply loopBody_Retry_lt.
  - intros host challenger perUser. apply sizingLoopWithin_enough. lia.
Qed.

Lemma sizing_converges_witness :
  32 / 2 = 16
  ∧ Sizing.effectiveOf Scenario.hostC Scenario.challengerC 16 = 9
  ∧ floorPow2 9 = 8
  ∧ Sizing.loopBody Scenario.hostC Scenario.challengerC 16 = Sizing.Retry 8
  ∧ Sizing.effectiveOf Scenario.hostC Scenario.challengerC 8 = 8
  ∧ Sizing.loopBody Scenario.hostC Scenario.challengerC 8
    = Sizing.Accept (take 8 Scenario.hostC) (take 8 Scenario.challengerC)
  ∧ Sizing.sizingLoop Scenario.hostC Scenario.challengerC (32 / 2)
    = Sizing.Selected 8 (take 8 Scenario.hostC) (take 8 Scenario.challengerC)
  ∧ 8 * 2 = 16.
Proof.
  apply (proj1 sizing_converges Scenario.hostC Scenario.challengerC).
  - apply (bool_decide_unpack _). vm_compute. reflexivity.
  - apply (bool_decide_unpack _). vm_compute. reflexivity.
  - apply Forall_forall. apply (bool_decide_unpack _). vm_compute. reflexivity.
  - reflexivity.
  - reflexivity.
Defined.

(** ** The vote route *)

Section VoteFacts.

Import Routes.

(** Every failing vote leaves the whole store as it was. *)
Lemma vote_failed_unchanged env id body db :
  failed (vote env id body db).1 → (vote env id body db).2 = db.
Proof.
  unfold vote. repeat case_match; cbn; done.
Qed.

(** What a successful vote went through, and what it stored. *)
Lemma vote_Voted_inv env id body db fw db' :
  vote env id body db = (Voted fw, db') →
  ∃ bracket rounds pa pb,
    id ≠ ""
    ∧ bodySchema body = true
    ∧ tournamentBracketState db !! id = Some bracket
    ∧ totalRounds (length (tracksJson bracket)) = Ret rounds
    ∧ (vb_round body < Z.of_nat rounds)%Z
    ∧ (vb_match body
       < Z.of_nat (matchCount (length (tracksJson bracket))
                     (Z.to_nat (vb_round body))))%Z
    ∧ truthy (winnersJson bracket !! matchKey (vb_round body) (vb_match body))
      = false
    ∧ resolveMatchParticipants (length (tracksJson bracket))
        (tracksJson bracket) (winnersJson bracket)
        (vb_round body) (vb_match body) = Some (pa, pb)
    ∧ (vb_winnerTrackId body = pa ∨ vb_winnerTrackId body = pb)
    ∧ ∃ stamp,
        tournamentBracketState db'
        = <[id := {| tracksJson := tracksJson bracket;
                     winnersJson :=
                       <[matchKey (vb_round body) (vb_match body)
                         := vb_winnerTrackId body]> (winnersJson bracket);
                     completedAt := stamp;
                     bs_updatedAt := nowMs env |}]>
            (tournamentBracketState db).
Proof.
  unfold vote.
  destruct (String.eqb_spec id "") as [|Hid]; [done|].
  destruct (bodySchema body) eqn:Hschema; cbn [negb]; [|done].
  destruct (tournamentBracketState db !! id) as [bracket|] eqn:Hb; [|done].
  destruct (totalRounds (length (tracksJson bracket))) as [rounds|] eqn:Hr;
    [|done].
  destruct (vb_round body >=? Z.of_nat rounds)%Z eqn:Hround; [done|].
  destruct (vb_match body >=? _)%Z eqn:Hmatch; [done|].
  destruct (truthy (winnersJson bracket !! _)) eqn:Hvoted; [done|].
  destruct (resolveMatchParticipants _ _ _ _ _) as [[pa pb]|] eqn:Hres; [|done].
  destruct (String.eqb_spec (vb_winnerTrackId body) pa) as [Hpa|Hpa];
    destruct (String.eqb_spec (vb_winnerTrackId body) pb) as [Hpb|Hpb];
    cbn [negb andb]; try done.
  all: intros [= <- <-]; exists bracket, rounds, pa, pb.
  all: repeat (split; [first [done | lia | by left | by right]|]).
  all: cbn; destruct (truthy (<[_:=_]> _ !! _)); eexists; reflexivity.
Qed.

(** A vote on a match whose key already holds an identifier is refused,
    whatever winner it names. *)
Lemma vote_decided_refused env id body db bracket rounds :
  id ≠ "" → bodySchema body = true →
  tournamentBracketState db !! id = Some bracket →
  totalRounds (length (tracksJson bracket)) = Ret rounds →
  (vb_round body < Z.of_nat rounds)%Z →
  (vb_match body
   < Z.of_nat (matchCount (length (tracksJson bracket))
                 (Z.to_nat (vb_round body))))%Z →
  truthy (winnersJson bracket !! matchKey (vb_round body) (vb_match body))
  = true →
  vote env id body db = (MatchAlreadyDecided, db).
Proof.
  intros Hid Hschema Hb Hr Hround Hmatch Hvoted. unfold vote.
  destruct (String.eqb_spec id "") as [|_]; [done|].
  rewrite Hschema, Hb, Hr. cbn [negb].
  destruct (vb_round body >=? Z.of_nat rounds)%Z eqn:Hge;
    [apply Z.geb_le in Hge; lia|].
  destruct (vb_match body >=? _)%Z eqn:Hge';
    [apply Z.geb_le in Hge'; lia|].
  by rewrite Hvoted.
Qed.

End VoteFacts.

(** ** The start route on a tournament already under way *)

Section StartFacts.

Import Routes.

(** The playlist modes return before touching the store. *)
Lemma start_started_playlist_modes env id db t :
  id ≠ "" →
  tournaments db !! id = Some t →
  sourceType t = "playlist" ∨ sourceType t = "playlist_vs" →
  startedAlready t = true →
  (start env id db).2 = db
  ∧ (truthy (hostUserId t) = true →
     requireUser env = hostUserId t →
     (start env id db).1 = Ok).
Proof.
  intros Hid Ht Hmode Hstarted. unfold start.
  destruct (String.eqb_spec id "") as [|_]; [done|].
  rewrite Ht. destruct Hmode as [Hmode|Hmode]; rewrite Hmode; cbn [String.eqb].
  - change (String.eqb "playlist" "playlist") with true. cbv iota.
    rewrite Hstarted. split.
    + by destruct (truthy (hostUserId t)).
    + by intros -> _.
  - change (String.eqb "playlist_vs" "playlist") with false.
    change (String.eqb "playlist_vs" "playlist_vs") with true. cbv iota.
    rewrite Hstarted. split.
    + repeat case_match; done.
    + intros Hhost ->. destruct (hostUserId t) as [host|]; [|done].
      rewrite Hhost. cbn. by rewrite String.eqb_refl.
Qed.

(** Outside the playlist modes there is no such guard: whenever the
    route answers [{ ok: true }], it has stored a fresh bracket with an
    empty winners map and set the status to [in_progress]. *)
Lemma start_top_tracks_fresh env id db t :
  tournaments db !! id = Some t →
  sourceType t ≠ "playlist" → sourceType t ≠ "playlist_vs" →
  (start env id db).1 = Ok →
  (winnersJson <$> tournamentBracketState (start env id db).2 !! id) = Some ∅
  ∧ (status <$> tournaments (start env id db).2 !! id) = Some "in_progress".
Proof.
  intros Ht Hp Hvs. unfold start.
  destruct (String.eqb_spec id "") as [|_]; [done|].
  rewrite Ht.
  destruct (String.eqb_spec (sourceType t) "playlist") as [|_]; [done|].
  destruct (requireUser env) as [user|]; [|done].
  destruct (negb (truthy (hostUserId t))); [done|].
  destruct (_ && _); [done|].
  destruct (String.eqb_spec (sourceType t) "playlist_vs") as [|_]; [done|].
  destruct (negb (truthy (challengerUserId t))); [done|].
  destruct (Sizing.sizingLoop _ _ _) as [|perUser hostTracks challengerTracks];
    [done|].
  intros _. cbn. rewrite lookup_insert_eq. split; [done|].
  unfold setStatus. rewrite lookup_alter_eq, Ht. done.
Qed.

End StartFacts.

(** C8 asks that the start command on a tournament already [in_progress]
    or [completed] leave the slot list, the winners map, the bracket size
    and the status as they are, in every source-type mode.  The two
    playlist modes do so ([start_started_playlist_modes]); the top-tracks
    path has no such guard.  On the duel of scenario C, started and with
    one vote on record, a second start command answers [{ ok: true }] and
    stores an empty winners map, whereas the same sequence in either
    playlist mode keeps the store. *)
Theorem start_top_tracks_discards_votes :
  Scenario.statusOf (Scenario.dbVoted "top_tracks") = "in_progress"
  ∧ Scenario.winnersOf (Scenario.dbVoted "top_tracks") = {[ "r0m0" := "h1" ]}
  ∧ (Routes.start Scenario.env "t1" (Scenario.dbVoted "top_tracks")).1
    = Routes.Ok
  ∧ Scenario.winnersOf
      (Routes.start Scenario.env "t1" (Scenario.dbVoted "top_tracks")).2 = ∅
  ∧ (Routes.start Scenario.env "t1" (Scenario.dbVoted "playlist_vs")).2
    = Scenario.dbVoted "playlist_vs"
  ∧ (Routes.start Scenario.env "t1" (Scenario.dbVoted "playlist")).2
    = Scenario.dbVoted "playlist".
Proof.
  repeat split; vm_compute; reflexivity.
Qed.

(** ** Stored brackets stay sound *)

Section Soundness.

Import Routes Sizing.

Lemma floorPow2_pow2 n :
  1 ≤ floorPow2 n → ∃ j, floorPow2 n = 2 ^ j ∧ floorPow2 n ≤ n.
Proof.
  intros Hpos. destruct n as [|n]; [cbn in Hpos; lia|].
  exists (Nat.log2 (S n)). split; [done|]. apply floorPow2_le.
Qed.

Lemma interleave_length hostIds challengerIds perUser :
  length (interleave hostIds challengerIds perUser) = 2 * perUser.
Proof.
  unfold interleave.
  assert (∀ (f : nat → list string) s n,
            (∀ i, length (f i) = 2) → length (flat_map f (seq s n)) = 2 * n)
    as Hlen.
  { intros f s n Hf. revert s. induction n as [|n IH]; intros s; [done|].
    cbn [seq flat_map]. rewrite length_app, Hf, IH. lia. }
  by apply Hlen.
Qed.

Lemma shuffled_length {T} (l : list T) seed :
  length (Shuffle.shuffled l seed) = length l.
Proof. by rewrite shuffled_perm. Qed.

Lemma bracketOf_length t perUser hostTracks challengerTracks :
  length hostTracks = perUser → length challengerTracks = perUser →
  length (bracketOf t perUser hostTracks challengerTracks) = 2 * perUser.
Proof.
  intros Hh Hc. unfold bracketOf.
  destruct (meshMode t =? 0)%Z; [apply interleave_length|].
  rewrite shuffled_length, length_app, !length_take, !shuffled_length,
    !length_map. lia.
Qed.

(** An accepted pass hands each side exactly [perUser] tracks, a power of
    two. *)
Lemma loopBody_Accept host challenger perUser hostTracks challengerTracks :
  loopBody host challenger perUser = Accept hostTracks challengerTracks →
  (∃ j, perUser = 2 ^ j)
  ∧ length hostTracks = perUser ∧ length challengerTracks = perUser.
Proof.
  unfold loopBody. destruct (picks host challenger perUser) as [hp cp].
  set (effective := length hp `min` length cp).
  destruct (floorPow2 effective <? 4) eqn:Hlow; [done|].
  apply Nat.ltb_ge in Hlow.
  destruct (floorPow2 effective =? perUser) eqn:Heq; [|done].
  apply Nat.eqb_eq in Heq. intros [= <- <-].
  destruct (floorPow2_pow2 effective ltac:(lia)) as (j & Hj & Hle).
  rewrite !length_take. subst effective. split; [exists j; lia|]. lia.
Qed.

Lemma sizingLoop_Selected host challenger perUser p hostTracks challengerTracks :
  sizingLoop host challenger perUser = Selected p hostTracks challengerTracks →
  (∃ j, p = 2 ^ j) ∧ length hostTracks = p ∧ length challengerTracks = p.
Proof.
  induction (lt_wf perUser) as [perUser _ IH].
  intros Hsel. rewrite sizingLoop_body in Hsel.
  destruct (loopBody host challenger perUser) as [|h c|next] eqn:Hbody.
  - done.
  - injection Hsel as <- <- <-. by eapply loopBody_Accept.
  - eapply IH; [|exact Hsel]. by eapply loopBody_Retry_lt.
Qed.

Lemma wellKeyed_empty size rounds : wellKeyed size rounds ∅.
Proof. intros key w Hw. by rewrite lookup_empty in Hw. Qed.

Lemma materialize_sound id rows bracketTracks size' now db k :
  storedSound db → length bracketTracks = 2 ^ k →
  storedSound (materialize id rows bracketTracks size' now db).
Proof.
  intros Hdb Hlen id' bracket. cbn.
  destruct (decide (id = id')) as [<-|Hne].
  - rewrite lookup_insert_eq. intros [= <-]. exists k. cbn.
    split; [done|apply wellKeyed_empty].
  - rewrite lookup_insert_ne by done. apply Hdb.
Qed.

(** The start route stores power-of-two slot lists with no winners. *)
Lemma start_keeps_sound env id db :
  storedSound db → storedSound (start env id db).2.
Proof.
  intros Hdb. unfold start.
  destruct (String.eqb id ""); [done|].
  destruct (tournaments db !! id) as [t|]; [|done].
  destruct (String.eqb (sourceType t) "playlist").
  - destruct (negb (truthy (hostUserId t))); [done|].
    destruct (startedAlready t); [done|].
    destruct (negb (truthy (hostPlaylistId t))); [done|].
    set (unique := uniqueById _).
    destruct (floorPow2 (bracketSize t `min` length unique) <? 8) eqn:Hlow;
      [done|].
    apply Nat.ltb_ge in Hlow. cbn [snd].
    destruct (floorPow2_pow2 (bracketSize t `min` length unique) ltac:(lia))
      as (j & Hj & Hle).
    apply (materialize_sound _ _ _ _ _ _ j); [done|].
    rewrite shuffled_length, length_map, length_take. lia.
  - destruct (requireUser env) as [user|]; [|done].
    destruct (negb (truthy (hostUserId t))); [done|].
    destruct (_ && _); [done|].
    destruct (String.eqb (sourceType t) "playlist_vs").
    + destruct (startedAlready t); [done|].
      destruct (_ || _); [done|]. destruct (_ || _); [done|].
      destruct (sizingLoop _ _ _) as [|perUser hostTracks challengerTracks]
        eqn:Hsized; [done|].
      destruct (perUser * 2 <? 8); [done|]. cbn [snd].
      apply sizingLoop_Selected in Hsized as ([j ->] & Hh & Hc).
      apply (materialize_sound _ _ _ _ _ _ (S j)); [done|].
      rewrite bracketOf_length by done. by rewrite Nat.pow_succ_r'.
    + destruct (negb (truthy (challengerUserId t))); [done|].
      destruct (sizingLoop _ _ _) as [|perUser hostTracks challengerTracks]
        eqn:Hsized; [done|].
      cbn [snd].
      apply sizingLoop_Selected in Hsized as ([j ->] & Hh & Hc).
      apply (materialize_sound _ _ _ _ _ _ (S j)); [done|].
      rewrite bracketOf_length by done. by rewrite Nat.pow_succ_r'.
Qed.

(** A successful vote keeps the winners map of its bracket well keyed. *)
Lemma vote_keeps_wellKeyed env id body db fw db' bracket k :
  vote env id body db = (Voted fw, db') →
  tournamentBracketState db !! id = Some bracket →
  length (tracksJson bracket) = 2 ^ k →
  wellKeyed (2 ^ k) k (winnersJson bracket) →
  ∃ bracket',
    tournamentBracketState db' = <[id := bracket']> (tournamentBracketState db)
    ∧ tracksJson bracket' = tracksJson bracket
    ∧ wellKeyed (2 ^ k) k (winnersJson bracket').
Proof.
  intros Hvote Hb Hlen Hkeys.
  apply vote_Voted_inv in Hvote
    as (bracket0 & rounds & pa & pb & Hid & Hschema & Hb0 & Hr & Hround
        & Hmatch & _ & Hres & Hwin & stamp & Hb').
  rewrite Hb in Hb0. injection Hb0 as <-.
  rewrite Hlen, totalRounds_pow2 in Hr. injection Hr as <-.
  eexists. split; [exact Hb'|]. split; [done|]. cbn.
  unfold bodySchema in Hschema.
  apply andb_true_iff in Hschema as [Hschema Hw].
  apply andb_true_iff in Hschema as [Hr0 Hm0].
  apply Z.leb_le in Hr0, Hm0. apply negb_true_iff, String.eqb_neq in Hw.
  intros key w Hkw. apply lookup_insert_Some in Hkw as [[<- <-]|[_ Hkw]].
  - split; [done|].
    exists (Z.to_nat (vb_round body)), (Z.to_nat (vb_match body)).
    split.
    + rewrite Hlen in Hmatch. split; lia.
    + by rewrite !Z2Nat.id.
  - by apply Hkeys.
Qed.

(** A successful vote keeps the winners map closed under feeders: the
    voted match was resolvable, and no recorded entry is overwritten. *)
Lemma vote_keeps_feederClosed env id body db fw db' bracket k :
  vote env id body db = (Voted fw, db') →
  tournamentBracketState db !! id = Some bracket →
  length (tracksJson bracket) = 2 ^ k →
  feederClosed (2 ^ k) k (winnersJson bracket) →
  ∃ bracket',
    tournamentBracketState db' !! id = Some bracket'
    ∧ feederClosed (2 ^ k) k (winnersJson bracket').
Proof.
  intros Hvote Hb Hlen Hclosed.
  apply vote_Voted_inv in Hvote
    as (bracket0 & rounds & pa & pb & Hid & Hschema & Hb0 & Hr & Hround
        & Hmatch & Hfree & Hres & Hwin & stamp & Hb').
  rewrite Hb in Hb0. injection Hb0 as <-.
  eexists. split; [rewrite Hb'; apply lookup_insert_eq|]. cbn.
  set (key := matchKey (vb_round body) (vb_match body)) in *.
  assert (∀ r m, recorded (winnersJson bracket) r m →
                 recorded (<[key := vb_winnerTrackId body]> (winnersJson bracket))
                   r m) as Hkeep.
  { intros r m Hrec. unfold recorded in *.
    destruct (decide (key = matchKey r m)) as [Heq|Hne].
    - rewrite <- Heq in Hrec. congruence.
    - by rewrite lookup_insert_ne. }
  intros r m Hin Hrec. unfold recorded in Hrec.
  destruct (decide (key = matchKey (Z.of_nat (S r)) (Z.of_nat m))) as [Heq|Hne].
  - apply matchKey_inj in Heq as [Hr' Hm'].
    rewrite Hr', Hm' in Hres.
    apply resolve_later in Hres as (Ha & Hb2 & Hane & Hbne); [|done|lia].
    replace (Z.of_nat (S r) - 1)%Z with (Z.of_nat r) in Ha, Hb2 by lia.
    replace (Z.of_nat m * 2)%Z with (Z.of_nat (2 * m)) in Ha, Hb2 by lia.
    replace (Z.of_nat (2 * m) + 1)%Z with (Z.of_nat (2 * m + 1)) in Hb2 by lia.
    split; apply Hkeep; unfold recorded.
    + rewrite Ha. by apply truthy_Some.
    + rewrite Hb2. by apply truthy_Some.
  - rewrite lookup_insert_ne in Hrec by done.
    destruct (Hclosed r m Hin Hrec) as [Heven Hodd].
    split; by apply Hkeep.
Qed.

Lemma feederClosed_empty size rounds : feederClosed size rounds ∅.
Proof. intros r m _ Hrec. unfold recorded in Hrec. by rewrite lookup_empty in Hrec. Qed.

Lemma vote_never_Ok env id body db : (vote env id body db).1 ≠ Ok.
Proof. unfold vote. repeat case_match; done. Qed.

Lemma vote_keeps_sound env id body db :
  storedSound db → storedSound (vote env id body db).2.
Proof.
  intros Hdb.
  pose proof (vote_failed_unchanged env id body db) as Hfail.
  pose proof (vote_never_Ok env id body db) as Hok.
  destruct (vote env id body db) as [r db'] eqn:Hvote. cbn [fst snd] in *.
  destruct r as [|fw| | |]; [done| |by rewrite Hfail..].
  pose proof Hvote as Hinv.
  apply vote_Voted_inv in Hinv as (bracket & _ & _ & _ & _ & _ & Hb & _).
  destruct (Hdb _ _ Hb) as (k & Hlen & Hkeys).
  destruct (vote_keeps_wellKeyed _ _ _ _ _ _ _ _ Hvote Hb Hlen Hkeys)
    as (bracket' & Hb' & Htracks & Hkeys').
  intros id' b'. rewrite Hb'.
  destruct (decide (id = id')) as [<-|Hne].
  - rewrite lookup_insert_eq. intros [= <-]. exists k.
    split; [by rewrite Htracks|done].
  - rewrite lookup_insert_ne by done. apply Hdb.
Qed.

End Soundness.

(** C3.  A stored bracket has a power-of-two number of slots and a winners
    map whose entries are identifiers filed under keys of its matches; the
    start and vote routes keep it so ([start_keeps_sound],
    [vote_keeps_sound]).  (1) On such a store, a vote on a match whose key
    already has an entry fails with [MatchAlreadyDecided] whatever winner
    it names, the stored winner included, and the store is unchanged.
    (2) After a successful vote, any further vote on the same
    (round, match) fails with [MatchAlreadyDecided] and changes nothing.
    (3) Every failing vote (invalid round, invalid match, not ready, winner
    not in match, already decided, or any other refusal) leaves the store,
    hence every entry of the winners map, unchanged. *)
Theorem vote_immutable :
  (∀ (env : Routes.Env) (id : string) (body : Routes.VoteBody) (db : Routes.Db)
     (bracket : Routes.BracketState),
     id ≠ "" → Routes.bodySchema body = true →
     storedSound db →
     Routes.tournamentBracketState db !! id = Some bracket →
     is_Some (Routes.winnersJson bracket
                !! matchKey (Routes.vb_round body) (Routes.vb_match body)) →
     Routes.vote env id body db = (MatchAlreadyDecided, db))
  ∧ (∀ (env env' : Routes.Env) (id : string) (body : Routes.VoteBody)
       (db db' : Routes.Db) (fw : option string) (again : string),
       Routes.vote env id body db = (Routes.Voted fw, db') →
       again ≠ "" →
       Routes.vote env' id
         {| Routes.vb_round := Routes.vb_round body;
            Routes.vb_match := Routes.vb_match body;
            Routes.vb_winnerTrackId := again |} db'
       = (MatchAlreadyDecided, db'))
  ∧ (∀ (env : Routes.Env) (id : string) (body : Routes.VoteBody) (db : Routes.Db),
       failed (Routes.vote env id body db).1 →
       (Routes.vote env id body db).2 = db).
Proof.
  split; [|split].
  - intros env id body db bracket Hid Hschema Hdb Hb [w Hw].
    destruct (Hdb _ _ Hb) as (k & Hlen & Hkeys).
    destruct (Hkeys _ _ Hw) as (Hne & r & m & [Hr Hm] & Hkey).
    apply matchKey_inj in Hkey as [Hround Hmatch].
    apply (vote_decided_refused env id body db bracket k); try done.
    + rewrite Hlen. apply totalRounds_pow2.
    + lia.
    + rewrite Hround, Nat2Z.id, Hlen, Hmatch. lia.
    + rewrite Hw. by apply truthy_Some.
  - intros env env' id body db db' fw again Hvote Hagain.
    apply vote_Voted_inv in Hvote
      as (bracket & rounds & pa & pb & Hid & Hschema & Hb & Hr & Hround
          & Hmatch & _ & Hres & Hwin & stamp & Hb').
    unfold Routes.bodySchema in Hschema.
    apply andb_true_iff in Hschema as [Hschema Hw].
    apply negb_true_iff, String.eqb_neq in Hw.
    eapply (vote_decided_refused env' id _ db' _ rounds).
    + done.
    + unfold Routes.bodySchema. cbn. rewrite Hschema. cbn.
      by apply negb_true_iff, String.eqb_neq.
    + rewrite Hb'. apply lookup_insert_eq.
    + exact Hr.
    + exact Hround.
    + exact Hmatch.
    + cbn. rewrite lookup_insert_eq. by apply truthy_Some.
  - intros env id body db. apply vote_failed_unchanged.
Qed.

Lemma vote_immutable_witness :
  Routes.vote Scenario.env "t1"
    {| Routes.vb_round := 0; Routes.vb_match := 0;
       Routes.vb_winnerTrackId := "a" |}
    {| Routes.tournaments := ∅;
       Routes.tournamentTracks := [];
       Routes.tournamentBracketState :=
         {[ "t1" := {| Routes.tracksJson := Scenario.tracks4;
                       Routes.winnersJson := {[ "r0m0" := "a" ]};
                       Routes.completedAt := None;
                       Routes.bs_updatedAt := 0 |} ]} |}
  = (MatchAlreadyDecided,
     {| Routes.tournaments := ∅;
        Routes.tournamentTracks := [];
        Routes.tournamentBracketState :=
          {[ "t1" := {| Routes.tracksJson := Scenario.tracks4;
                        Routes.winnersJson := {[ "r0m0" := "a" ]};
                        Routes.completedAt := None;
                        Routes.bs_updatedAt := 0 |} ]} |}).
Proof.
  eapply (proj1 vote_immutable).
  - discriminate.
  - reflexivity.
  - intros id bracket Hb. cbn in Hb.
    apply lookup_singleton_Some in Hb as [<- <-].
    exists 2. split; [reflexivity|].
    intros key w Hw. cbn in Hw.
    apply lookup_singleton_Some in Hw as [<- <-].
    split; [discriminate|].
    exists 0, 0. split; [|reflexivity].
    split; [lia|]. vm_compute. lia.
  - reflexivity.
  - cbn. exists "a". reflexivity.
Defined.

(** * Part III: further properties of the code *)

(** ** [isPowerOfTwo] and [totalRounds] on array lengths *)

Lemma toInt32_mod z : (toInt32 z mod 2 ^ 32 = z mod 2 ^ 32)%Z.
Proof.
  unfold toInt32. rewrite Zminus_mod_idemp_l. f_equal. lia.
Qed.

Lemma toInt32_zero z : toInt32 z = 0%Z ↔ (z mod 2 ^ 32 = 0)%Z.
Proof.
  split; intros H.
  - rewrite <- toInt32_mod, H. reflexivity.
  - unfold toInt32.
    pose proof (Z.mod_pos_bound (z + 2 ^ 31) (2 ^ 32) ltac:(lia)) as Hb.
    assert ((z + 2 ^ 31) mod 2 ^ 32 = 2 ^ 31)%Z; [|lia].
    rewrite <- Zplus_mod_idemp_l, H. reflexivity.
Qed.

Lemma land_mod a b n :
  (0 ≤ n)%Z →
  (Z.land a b mod 2 ^ n = Z.land (a mod 2 ^ n) (b mod 2 ^ n))%Z.
Proof.
  intros Hn. rewrite <- !Z.land_ones by done.
  apply Z.bits_inj'. intros m Hm. rewrite !Z.land_spec.
  by destruct (Z.testbit a m), (Z.testbit b m), (Z.testbit (Z.ones n) m).
Qed.

(** On unsigned 32-bit operands, [a & b] is zero exactly when the bitwise
    conjunction of the integers is. *)
Lemma and32_zero a b :
  (0 ≤ a < 2 ^ 32)%Z → (0 ≤ b < 2 ^ 32)%Z →
  and32 a b = 0%Z ↔ Z.land a b = 0%Z.
Proof.
  intros Ha Hb. unfold and32. rewrite toInt32_zero, land_mod by lia.
  rewrite !toInt32_mod, !Z.mod_small by lia. reflexivity.
Qed.

Lemma land_double_odd a b : (Z.land (2 * a) (2 * b + 1) = 2 * Z.land a b)%Z.
Proof.
  apply Z.bits_inj'. intros n Hn. rewrite Z.land_spec.
  destruct (decide (n = 0)%Z) as [->|Hne].
  - rewrite !Z.testbit_even_0. reflexivity.
  - replace n with (Z.succ (n - 1)) by lia.
    rewrite !Z.double_bits_succ, Z.testbit_odd_succ by lia.
    by rewrite Z.land_spec.
Qed.

Lemma land_pred_zero (p : positive) :
  Z.land (Z.pos p) (Z.pos p - 1) = 0%Z → ∃ k : nat, Z.pos p = (2 ^ Z.of_nat k)%Z.
Proof.
  induction p as [p IH|p IH|]; intros Hland.
  - exfalso.
    assert (Z.pos p~1 - 1 = 2 * Z.pos p)%Z as Heq by lia.
    rewrite Heq in Hland.
    assert (Z.testbit (Z.land (Z.pos p~1) (2 * Z.pos p)) (Z.succ (Z.log2 (Z.pos p)))
            = true) as Hbit.
    { rewrite Z.land_spec, Z.double_bits_succ.
      replace (Z.pos p~1) with (2 * Z.pos p + 1)%Z by lia.
      rewrite Z.testbit_odd_succ by apply Z.log2_nonneg.
      rewrite Z.bit_log2 by lia. reflexivity. }
    rewrite Hland, Z.bits_0 in Hbit. discriminate.
  - replace (Z.pos p~0) with (2 * Z.pos p)%Z in * by lia.
    replace (2 * Z.pos p - 1)%Z with (2 * (Z.pos p - 1) + 1)%Z in Hland by lia.
    rewrite land_double_odd in Hland.
    destruct IH as [k Hk]; [lia|].
    exists (S k). rewrite Hk, Nat2Z.inj_succ, Z.pow_succ_r by lia. reflexivity.
  - exists 0. reflexivity.
Qed.

Lemma isPowerOfTwo_sound n :
  (Z.of_nat n < 2 ^ 32)%Z → isPowerOfTwo n = true → ∃ k, n = 2 ^ k.
Proof.
  intros Hz. unfold isPowerOfTwo. rewrite andb_true_iff.
  intros [Hpos Hland]. apply Nat.ltb_lt in Hpos. apply Z.eqb_eq in Hland.
  apply and32_zero in Hland; [|lia..].
  destruct (Z.of_nat n) as [|p|p] eqn:Hp; [lia| |lia].
  apply land_pred_zero in Hland as [k Hk]. exists k.
  apply Nat2Z.inj. rewrite Hp, Hk, Nat2Z.inj_pow. reflexivity.
Qed.

(** X1. For an array length [size] (below 2^32), [totalRounds] returns [k]
    exactly when [size = 2^k], and throws for every other length, zero
    included. *)
Theorem totalRounds_exact (size : nat) :
  (Z.of_nat size < 2 ^ 32)%Z →
  (∀ k, totalRounds size = Ret k ↔ size = 2 ^ k)
  ∧ ((∀ k, size ≠ 2 ^ k) →
     totalRounds size = Throw "Bracket size must be power of two").
Proof.
  intros Hsize. split.
  - intros k. split.
    + unfold totalRounds.
      destruct (isPowerOfTwo size) eqn:Hpow; [|discriminate].
      intros [= <-].
      apply isPowerOfTwo_sound in Hpow as [j ->]; [|done].
      f_equal. symmetry. apply Nat.log2_pow2. lia.
    + intros ->. apply totalRounds_pow2.
  - intros Hnot. unfold totalRounds.
    destruct (isPowerOfTwo size) eqn:Hpow; [|done].
    apply isPowerOfTwo_sound in Hpow as [j ->]; [|done].
    by destruct (Hnot j).
Qed.

Lemma totalRounds_exact_witness :
  (∀ k, totalRounds 12 = Ret k ↔ 12 = 2 ^ k)
  ∧ ((∀ k, 12 ≠ 2 ^ k) →
     totalRounds 12 = Throw "Bracket size must be power of two").
Proof.
  apply (totalRounds_exact 12). lia.
Defined.

(** ** Counting matches *)

Lemma matchCount_double k r :
  r < k → matchCount (2 ^ S k) r = 2 * matchCount (2 ^ k) r.
Proof.
  intros Hr. rewrite !matchCount_pow2 by lia.
  replace (S k - S r) with (S (k - S r)) by lia. apply Nat.pow_succ_r'.
Qed.

Lemma matchCount_sum k :
  sum_list_with (matchCount (2 ^ k)) (seq 0 k) + 1 = 2 ^ k.
Proof.
  induction k as [|k IH]; [done|].
  rewrite seq_S, sum_list_with_app. cbn [sum_list_with Nat.add].
  replace (matchCount (2 ^ S k) k) with 1
    by (rewrite matchCount_pow2 by lia; by rewrite Nat.sub_diag).
  assert (sum_list_with (matchCount (2 ^ S k)) (seq 0 k)
          = 2 * sum_list_with (matchCount (2 ^ k)) (seq 0 k)) as ->.
  { assert (∀ rs, Forall (λ r, r < k) rs →
              sum_list_with (matchCount (2 ^ S k)) rs
              = 2 * sum_list_with (matchCount (2 ^ k)) rs) as Hrs.
    { induction rs as [|r rs IHrs]; intros Hall; [done|].
      apply Forall_cons in Hall as [Hr Hall]. cbn [sum_list_with].
      rewrite IHrs, matchCount_double by done. lia. }
    apply Hrs. apply Forall_forall. intros r Hr%elem_of_seq. lia. }
  rewrite Nat.pow_succ_r'. lia.
Qed.

(** X2. A bracket of size [2^k] has [2^k - 1] matches: the match counts of
    its [k] rounds add up to one less than the size, the last round having
    exactly one match. *)
Theorem matchCount_total (k : nat) :
  1 ≤ k →
  sum_list_with (matchCount (2 ^ k)) (seq 0 k) = 2 ^ k - 1
  ∧ matchCount (2 ^ k) (k - 1) = 1
  ∧ 2 * matchCount (2 ^ k) 0 = 2 ^ k.
Proof.
  intros Hk. pose proof (matchCount_sum k).
  split; [lia|]. split; [by apply matchCount_final|by apply matchCount_first].
Qed.

Lemma matchCount_total_witness :
  sum_list_with (matchCount (2 ^ 3)) (seq 0 3) = 2 ^ 3 - 1
  ∧ matchCount (2 ^ 3) (3 - 1) = 1
  ∧ 2 * matchCount (2 ^ 3) 0 = 2 ^ 3.
Proof. apply (matchCount_total 3). lia. Defined.

(** ** What a returned ranking implies *)

Lemma rankRounds_Some_good size tracks winners rounds rs acc acc' r m :
  rankRounds size tracks winners rounds rs acc = Some acc' →
  r ∈ rs → m < matchCount size r →
  is_Some (resolveMatchParticipants size tracks winners (Z.of_nat r) (Z.of_nat m))
  ∧ recorded winners (Z.of_nat r) (Z.of_nat m).
Proof.
  intros Hsome Hr Hm.
  destruct (resolveMatchParticipants size tracks winners (Z.of_nat r) (Z.of_nat m))
    as [p|] eqn:Hres.
  - split; [by exists p|]. unfold recorded.
    destruct (truthy (winners !! matchKey (Z.of_nat r) (Z.of_nat m))) eqn:Hrec;
      [done|].
    rewrite (rankRounds_gap size tracks winners rounds r m) in Hsome; [done..|].
    right. unfold recorded. by rewrite Hrec.
  - rewrite (rankRounds_gap size tracks winners rounds r m) in Hsome; [done..|].
    by left.
Qed.

Lemma resolvable_round0_ids k tracks winners :
  1 ≤ k →
  (∀ m, m < matchCount (2 ^ k) 0 →
     is_Some (resolveMatchParticipants (2 ^ k) tracks winners 0 (Z.of_nat m))) →
  length tracks = 2 ^ k ∧ Forall (λ t, t ≠ "") tracks.
Proof.
  intros Hk Hres.
  pose proof (matchCount_first k Hk) as Hfirst.
  pose proof (Nat.pow_nonzero 2 k ltac:(lia)) as Hpos.
  assert (length tracks = 2 ^ k) as Hlen.
  { destruct (decide (length tracks = 2 ^ k)) as [|Hne]; [done|].
    destruct (Hres 0) as [p Hp]; [lia|].
    by rewrite resolve_length_mismatch in Hp. }
  split; [done|].
  apply Forall_lookup. intros i t Hi.
  pose proof (lookup_lt_Some _ _ _ Hi) as Hlt. rewrite Hlen in Hlt.
  destruct (Hres (i / 2)) as [[pa pb] Hp].
  { apply Nat.Div0.div_lt_upper_bound. lia. }
  apply resolve_round0 in Hp as (Ha & Hb & Hane & Hbne); [|done].
  replace (Z.of_nat (i / 2) * 2)%Z with (Z.of_nat (2 * (i / 2))) in Ha, Hb by lia.
  replace (Z.of_nat (2 * (i / 2)) + 1)%Z
    with (Z.of_nat (2 * (i / 2) + 1)) in Hb by lia.
  rewrite index_nat in Ha, Hb.
  pose proof (Nat.div_mod_eq i 2) as Hdm.
  pose proof (Nat.mod_upper_bound i 2 ltac:(lia)) as Hmod.
  destruct (decide (i `mod` 2 = 0)) as [H0|H1].
  - replace (2 * (i / 2)) with i in Ha by lia. congruence.
  - replace (2 * (i / 2) + 1) with i in Hb by lia. congruence.
Qed.

Lemma length_losers size tracks winners rs :
  length (concat (map (losersOfRound size tracks winners) rs))
  = sum_list_with (matchCount size) rs.
Proof.
  induction rs as [|r rs IH]; [done|].
  cbn [map concat sum_list_with]. rewrite length_app, IH.
  unfold losersOfRound. by rewrite length_map, length_seq.
Qed.

Lemma length_rankingOf k tracks winners :
  1 ≤ k → length (rankingOf (2 ^ k) tracks winners k) = 2 ^ k.
Proof.
  intros Hk. unfold rankingOf. rewrite length_app, length_losers.
  rewrite sum_list_with_reverse.
  pose proof (matchCount_sum k) as Hsum.
  replace k with (S (k - 1)) in Hsum at 2 by lia.
  rewrite seq_S, sum_list_with_app in Hsum. cbn [sum_list_with Nat.add] in Hsum.
  rewrite matchCount_final in Hsum by done. cbn [length]. lia.
Qed.

Lemma totalRounds_Ret_pow2 size k :
  (Z.of_nat size < 2 ^ 32)%Z → totalRounds size = Ret k → size = 2 ^ k.
Proof.
  intros Hsize. unfold totalRounds.
  destruct (isPowerOfTwo size) eqn:Hpow; [|discriminate].
  intros [= <-]. apply isPowerOfTwo_sound in Hpow as [j ->]; [|done].
  f_equal. symmetry. apply Nat.log2_pow2. lia.
Qed.

Lemma rankingOf_nonempty k tracks winners :
  1 ≤ k → length tracks = 2 ^ k → Forall (λ t, t ≠ "") tracks →
  fullyDecided (2 ^ k) k winners →
  Forall (λ t, t ≠ "") (rankingOf (2 ^ k) tracks winners k).
Proof.
  intros Hk Hlen Hids Hall.
  assert (inBracket (2 ^ k) k (k - 1) 0) as Hfinal.
  { split; [lia|]. rewrite matchCount_final by done. lia. }
  unfold rankingOf. apply Forall_app. split.
  - repeat apply Forall_cons_2; [| |apply Forall_nil_2].
    + by eapply decided_winner.
    + by eapply decided_loser.
  - apply Forall_forall. intros x Hx. apply list_elem_of_In in Hx.
    apply in_concat in Hx as (l & Hl & Hx).
    apply in_map_iff in Hl as (r & <- & Hr).
    apply list_elem_of_In, elem_of_reverse, elem_of_seq in Hr.
    unfold losersOfRound in Hx.
    apply in_map_iff in Hx as (m & <- & Hm).
    apply in_seq in Hm.
    eapply decided_loser; try done. split; lia.
Qed.

(** X3. Whenever [computeRanking] returns a ranking (for an array length
    below 2^32), the size is a power of two at least 2, the slot list has
    that length and no empty identifier, every match of the bracket is
    resolvable and has a recorded winner, and the ranking has exactly
    [size] entries, none of them empty. *)
Theorem computeRanking_complete
    (size : nat) (tracks : list string) (winners : gmap string string)
    (ranking : list string) :
  (Z.of_nat size < 2 ^ 32)%Z →
  computeRanking size tracks winners = Ret (Some ranking) →
  ∃ k, 1 ≤ k ∧ size = 2 ^ k
       ∧ length tracks = size
       ∧ Forall (λ t, t ≠ "") tracks
       ∧ fullyDecided size k winners
       ∧ (∀ r m, inBracket size k r m →
            is_Some (resolveMatchParticipants size tracks winners
                       (Z.of_nat r) (Z.of_nat m)))
       ∧ length ranking = size
       ∧ Forall (λ t, t ≠ "") ranking.
Proof.
  intros Hsize Hrank. pose proof Hrank as Hcopy.
  unfold computeRanking in Hrank.
  destruct (totalRounds size) as [k|] eqn:Hrounds; [|done].
  apply totalRounds_Ret_pow2 in Hrounds as ->; [|done].
  destruct (bracketWinner (2 ^ k) winners) as [[fw|]|]; try done.
  destruct (rankRounds (2 ^ k) tracks winners k (seq 0 k) _) as [acc|] eqn:Hrr;
    [|done].
  assert (1 ≤ k) as Hk.
  { destruct k as [|k]; [|lia]. cbn in Hrr. injection Hrr as <-. done. }
  assert (∀ r m, inBracket (2 ^ k) k r m →
            is_Some (resolveMatchParticipants (2 ^ k) tracks winners
                       (Z.of_nat r) (Z.of_nat m))
            ∧ recorded winners (Z.of_nat r) (Z.of_nat m)) as Hgood.
  { intros r m [Hr Hm]. eapply rankRounds_Some_good; [exact Hrr| |done].
    apply elem_of_seq. lia. }
  destruct (resolvable_round0_ids k tracks winners Hk) as [Hlen Hids].
  { intros m Hm. apply (Hgood 0 m). split; [lia|done]. }
  assert (fullyDecided (2 ^ k) k winners) as Hall.
  { intros r m Hin. by apply Hgood. }
  rewrite (computeRanking_decided k tracks winners Hk Hlen Hids Hall) in Hcopy.
  injection Hcopy as <-.
  exists k. split; [done|]. split; [done|]. split; [done|]. split; [done|].
  split; [done|]. split; [intros r m Hin; by apply Hgood|].
  split; [by apply length_rankingOf|by apply rankingOf_nonempty].
Qed.

Lemma computeRanking_complete_witness :
  ∃ k, 1 ≤ k ∧ 4 = 2 ^ k
       ∧ length Scenario.tracks4 = 4
       ∧ Forall (λ t, t ≠ "") Scenario.tracks4
       ∧ fullyDecided 4 k Scenario.winners4
       ∧ (∀ r m, inBracket 4 k r m →
            is_Some (resolveMatchParticipants 4 Scenario.tracks4
                       Scenario.winners4 (Z.of_nat r) (Z.of_nat m)))
       ∧ length ["a"; "c"; "b"; "d"] = 4
       ∧ Forall (λ t, t ≠ "") ["a"; "c"; "b"; "d"].
Proof.
  apply (computeRanking_complete 4 Scenario.tracks4 Scenario.winners4).
  - lia.
  - vm_compute. reflexivity.
Defined.

(** ** A bracket in play always has a next match *)

Lemma no_open_all_recorded k tracks winners :
  1 ≤ k → length tracks = 2 ^ k → Forall (λ t, t ≠ "") tracks →
  (∀ r m, inBracket (2 ^ k) k r m → ¬ isOpen (2 ^ k) tracks winners r m) →
  fullyDecided (2 ^ k) k winners.
Proof.
  intros Hk Hlen Hids Hnone.
  assert (∀ r m, inBracket (2 ^ k) k r m →
            is_Some (resolveMatchParticipants (2 ^ k) tracks winners
                       (Z.of_nat r) (Z.of_nat m)) →
            recorded winners (Z.of_nat r) (Z.of_nat m)) as Hstep.
  { intros r m Hin Hres. unfold recorded.
    destruct (truthy (winners !! matchKey (Z.of_nat r) (Z.of_nat m))) eqn:Hrec;
      [done|].
    destruct (Hnone r m Hin). split; [|done].
    unfold recorded. by rewrite Hrec. }
  intros r. induction r as [|r IH]; intros m [Hr Hm].
  - apply Hstep; [done|].
    pose proof (matchCount_first k Hk) as Hfirst.
    destruct (lookup_lt_is_Some_2 tracks (2 * m)) as [ta Ha]; [lia|].
    destruct (lookup_lt_is_Some_2 tracks (2 * m + 1)) as [tb Hb]; [lia|].
    exists (ta, tb). change (Z.of_nat 0) with 0%Z.
    apply resolve_round0; [done|].
    replace (Z.of_nat m * 2)%Z with (Z.of_nat (2 * m)) by lia.
    replace (Z.of_nat (2 * m) + 1)%Z with (Z.of_nat (2 * m + 1)) by lia.
    rewrite !index_nat.
    pose proof (proj1 (Forall_lookup _ _) Hids).
    split; [done|]. split; [done|]. split; eauto.
  - apply Hstep; [done|].
    pose proof (matchCount_feeders k r Hr) as Hfeed.
    pose proof (IH (2 * m) ltac:(split; lia)) as Heven.
    pose proof (IH (2 * m + 1) ltac:(split; lia)) as Hodd.
    unfold recorded in Heven, Hodd.
    apply truthy_spec in Heven as (wa & Hwa & Hane).
    apply truthy_spec in Hodd as (wb & Hwb & Hbne).
    exists (wa, wb). apply resolve_later; [done|lia|].
    replace (Z.of_nat (S r) - 1)%Z with (Z.of_nat r) by lia.
    replace (Z.of_nat m * 2)%Z with (Z.of_nat (2 * m)) by lia.
    replace (Z.of_nat (2 * m) + 1)%Z with (Z.of_nat (2 * m + 1)) by lia.
    done.
Qed.

(** X4. On a bracket of power-of-two size (at least 2) whose slots all
    hold identifiers and whose winners map is closed under feeders,
    [nextOpenMatch] returns null exactly when the final has a recorded
    winner: as long as no champion is recorded there is a match to play. *)
Theorem nextOpenMatch_null_iff_final
    (size k : nat) (tracks : list string) (winners : gmap string string) :
  size = 2 ^ k → 1 ≤ k → length tracks = size →
  Forall (λ t, t ≠ "") tracks →
  feederClosed size k winners →
  (nextOpenMatch size tracks winners = Ret None
   ↔ recorded winners (Z.of_nat k - 1) 0)
  ∧ (¬ recorded winners (Z.of_nat k - 1) 0 →
     ∃ mr, nextOpenMatch size tracks winners = Ret (Some mr)).
Proof.
  intros -> Hk Hlen Hids Hclosed.
  assert (nextOpenMatch (2 ^ k) tracks winners = Ret None
          ↔ recorded winners (Z.of_nat k - 1) 0) as Hiff.
  { unfold nextOpenMatch. rewrite totalRounds_pow2. split.
    - intros [= Hnone].
      assert (fullyDecided (2 ^ k) k winners) as Hall.
      { apply (no_open_all_recorded k tracks); try done.
        intros r m [Hr Hm].
        apply (nextOpenFrom_None _ _ _ _ _ Hnone); [lia|done]. }
      replace (Z.of_nat k - 1)%Z with (Z.of_nat (k - 1)) by lia.
      apply (Hall (k - 1) 0). split; [lia|].
      rewrite matchCount_final by done. lia.
    - intros Hfinal.
      destruct (nextOpenFrom (2 ^ k) tracks winners (seq 0 k)) as [mr|] eqn:Hres;
        [|done].
      apply nextOpenFrom_Some in Hres as (r & m & Hr & Hm & _ & _ & Hun & _).
      destruct Hun.
      apply (feederClosed_all_recorded k winners); [lia|done..|].
      split; [lia|done]. }
  split; [done|].
  intros Hnot. unfold nextOpenMatch in *. rewrite totalRounds_pow2 in *.
  destruct (nextOpenFrom (2 ^ k) tracks winners (seq 0 k)) as [mr|]; [by exists mr|].
  destruct Hnot. by apply Hiff.
Qed.

Lemma nextOpenMatch_null_iff_final_witness :
  (nextOpenMatch 4 Scenario.tracks4 Scenario.winners4 = Ret None
   ↔ recorded Scenario.winners4 (Z.of_nat 2 - 1) 0)
  ∧ (¬ recorded Scenario.winners4 (Z.of_nat 2 - 1) 0 →
     ∃ mr, nextOpenMatch 4 Scenario.tracks4 Scenario.winners4 = Ret (Some mr)).
Proof.
  apply (nextOpenMatch_null_iff_final 4 2 Scenario.tracks4 Scenario.winners4).
  - reflexivity.
  - lia.
  - reflexivity.
  - apply (bool_decide_unpack _). vm_compute. reflexivity.
  - intros r m [Hr Hm] _.
    destruct r as [|r]; [|lia].
    change (matchCount 4 1) with 1 in Hm. destruct m as [|m]; [|lia].
    split; reflexivity.
Defined.

(** ** More on the generator and the shuffle *)

(** X5. Whatever the generator state, the float returned by one call of
    the [mulberry32] closure lies in [0, 1) (its numerator over 2^32 is
    below 2^32), so the index [Math.floor(rand() * (i + 1))] drawn by
    [seededShuffle] never exceeds [i]. *)
Theorem shuffle_draw_in_range (a : Z) (i : nat) :
  (0 ≤ (Shuffle.mulberry32_next a).2 < 2 ^ 32)%Z
  ∧ Shuffle.pickIndex (Shuffle.mulberry32_next a).2 i ≤ i.
Proof.
  pose proof (mulberry32_next_range a) as Hrange.
  split; [done|]. by apply pickIndex_le.
Qed.

Lemma mulberry32_low_bits seed n :
  Shuffle.mulberry32 (seed + n * 2 ^ 32) = Shuffle.mulberry32 seed.
Proof.
  unfold Shuffle.mulberry32, ushr, toUint32. by rewrite Z.mod_add by lia.
Qed.

(** X6. Only the low 32 bits of the seed matter: two seeds that differ by
    a multiple of 2^32 (a negative seed and its unsigned reading, say)
    make [seededShuffle] return the same result on every store. *)
Theorem seededShuffle_seed_mod {T : Type}
    (h : gmap positive (list T)) (arr : positive) (seed n : Z) :
  Shuffle.seededShuffle arr (seed + n * 2 ^ 32) h
  = Shuffle.seededShuffle arr seed h.
Proof.
  unfold Shuffle.seededShuffle. by rewrite mulberry32_low_bits.
Qed.

(** X7. An array with at most one element comes back as an unchanged
    copy, for every seed: the generator is never called. *)
Theorem seededShuffle_short {T : Type}
    (h : gmap positive (list T)) (arr : positive) (l : list T) (seed : Z) :
  h !! arr = Some l → length l ≤ 1 →
  ∃ out, Shuffle.seededShuffle arr seed h = (out, <[out := l]> h)
         ∧ out ≠ arr.
Proof.
  intros Harr Hlen. exists (fresh (dom h)).
  rewrite (seededShuffle_spec h arr l seed Harr).
  replace (length l - 1) with 0 by lia. split; [done|].
  intros Heq. apply (is_fresh (dom h)). rewrite Heq.
  apply elem_of_dom. by exists l.
Qed.

Lemma seededShuffle_short_witness :
  ∃ out, Shuffle.seededShuffle 1%positive 5 {[ 1%positive := ["a"] ]}
         = (out, <[out := ["a"]]> {[ 1%positive := ["a"] ]})
         ∧ out ≠ 1%positive.
Proof.
  apply (seededShuffle_short {[ 1%positive := ["a"] ]} 1%positive ["a"] 5).
  - reflexivity.
  - cbn. lia.
Defined.

(** ** Participants are stable under further votes *)

Lemma resolve_extend size tracks (winners winners' : gmap string string)
    r m pa pb :
  winners ⊆ winners' →
  resolveMatchParticipants size tracks winners r m = Some (pa, pb) →
  resolveMatchParticipants size tracks winners' r m = Some (pa, pb).
Proof.
  intros Hsub. unfold resolveMatchParticipants.
  destruct (negb (length tracks =? size)); [done|].
  destruct (r <? 0)%Z; [done|]. destruct (r =? 0)%Z; [done|].
  destruct (winners !! matchKey (r - 1) (m * 2)) as [x|] eqn:Hx; [|done].
  destruct (winners !! matchKey (r - 1) (m * 2 + 1)) as [y|] eqn:Hy; [|done].
  rewrite (lookup_weaken _ _ _ _ Hx Hsub), (lookup_weaken _ _ _ _ Hy Hsub).
  done.
Qed.

(** X8. Adding entries to the winners map never unresolves a match nor
    changes its participants: a pair returned for a winners map is returned
    for every map that extends it. *)
Theorem resolveMatchParticipants_stable
    (size : nat) (tracks : list string) (winners winners' : gmap string string)
    (r m : Z) (pa pb : string) :
  winners ⊆ winners' →
  resolveMatchParticipants size tracks winners r m = Some (pa, pb) →
  resolveMatchParticipants size tracks winners' r m = Some (pa, pb).
Proof. apply resolve_extend. Qed.

Lemma resolveMatchParticipants_stable_witness :
  resolveMatchParticipants 4 Scenario.tracks4 Scenario.winners4 1 0
  = Some ("a", "c").
Proof.
  apply (resolveMatchParticipants_stable 4 Scenario.tracks4
           (<["r0m1" := "c"]> (<["r0m0" := "a"]> ∅)) Scenario.winners4 1 0).
  - unfold Scenario.winners4. apply insert_subseteq. reflexivity.
  - reflexivity.
Defined.

(** ** Deduplication and selection *)

Section Selection.

Import Sizing.

Lemma uniqueByIdFrom_props arr seen out :
  ∃ kept,
    uniqueByIdFrom arr seen out = out ++ kept
    ∧ kept `sublist_of` arr
    ∧ NoDup (map trk_id kept)
    ∧ (∀ x, x ∈ map trk_id kept ↔ x ∈ map trk_id arr ∧ x ∉ seen)
    ∧ (∀ rt, rt ∈ kept →
         ∃ i, arr !! i = Some rt
              ∧ ∀ j rt', j < i → arr !! j = Some rt' → trk_id rt' ≠ trk_id rt).
Proof.
  revert seen out. induction arr as [|rt rest IH]; intros seen out.
  - exists []. split; [cbn; by rewrite app_nil_r|].
    split; [done|]. split; [constructor|]. split.
    + intros x. cbn. split.
      * intros Hx. by apply elem_of_nil in Hx.
      * intros [Hx _]. by apply elem_of_nil in Hx.
    + intros rt Hrt. by apply elem_of_nil in Hrt.
  - cbn [uniqueByIdFrom]. destruct (decide (trk_id rt ∈ seen)) as [Hseen|Hnew].
    + destruct (IH seen out) as (kept & Heq & Hsub & Hnd & Hids & Hfirst).
      exists kept. split; [done|]. split; [by apply sublist_cons|].
      split; [done|]. split.
      * intros x. rewrite Hids. cbn [map]. rewrite elem_of_cons.
        split; [intros [? ?]; split; [by right|done]|].
        intros [[->|?] ?]; done.
      * intros rt0 Hrt0. destruct (Hfirst rt0 Hrt0) as (i & Hi & Hbefore).
        exists (S i). split; [done|]. intros [|j] rt' Hj Hrt'.
        -- injection Hrt' as <-. intros Heq'.
           assert (trk_id rt0 ∈ map trk_id kept) as Hin
             by (apply list_elem_of_fmap; eauto).
           apply Hids in Hin as [_ Hin]. apply Hin. by rewrite <- Heq'.
        -- apply (Hbefore j); [lia|done].
    + destruct (IH ({[ trk_id rt ]} ∪ seen) (out ++ [rt]))
        as (kept & Heq & Hsub & Hnd & Hids & Hfirst).
      exists (rt :: kept). split; [by rewrite Heq, <- app_assoc|].
      split; [by apply sublist_skip|]. split.
      * cbn [map]. apply NoDup_cons. split; [|done].
        intros Hin. apply Hids in Hin as [_ Hin]. set_solver.
      * split.
        -- intros x. cbn [map]. rewrite !elem_of_cons, Hids.
           split.
           ++ intros [->|[? ?]]; [split; [by left|done]|].
              split; [by right|set_solver].
           ++ intros [[->|?] ?]; [by left|]. 
              destruct (decide (x = trk_id rt)) as [->|?]; [by left|].
              right. split; [done|set_solver].
        -- intros rt0 [->|Hrt0]%elem_of_cons.
           ++ exists 0. split; [done|]. intros j rt' Hj. lia.
           ++ destruct (Hfirst rt0 Hrt0) as (i & Hi & Hbefore).
              exists (S i). split; [done|]. intros [|j] rt' Hj Hrt'.
              ** injection Hrt' as <-. intros Heq'.
                 assert (trk_id rt0 ∈ map trk_id kept) as Hin
                   by (apply list_elem_of_fmap; eauto).
                 apply Hids in Hin as [_ Hin]. apply Hin.
                 rewrite <- Heq'. set_solver.
              ** apply (Hbefore j); [lia|done].
Qed.

Lemma uniqueById_sublist arr : uniqueById arr `sublist_of` arr.
Proof.
  unfold uniqueById.
  by destruct (uniqueByIdFrom_props arr ∅ []) as (kept & -> & Hsub & _).
Qed.

Lemma uniqueById_NoDup_id arr :
  NoDup (map trk_id arr) → uniqueById arr = arr.
Proof.
  unfold uniqueById.
  assert (∀ seen out,
            NoDup (map trk_id arr) → (∀ x, x ∈ map trk_id arr → x ∉ seen) →
            uniqueByIdFrom arr seen out = out ++ arr) as Hgen.
  { induction arr as [|rt rest IH]; intros seen out Hnd Hnew.
    - cbn. by rewrite app_nil_r.
    - cbn [uniqueByIdFrom]. cbn [map] in Hnd, Hnew.
      apply NoDup_cons in Hnd as [Hhead Hnd].
      destruct (decide (trk_id rt ∈ seen)) as [Hin|_].
      { destruct (Hnew (trk_id rt)); [by left|done]. }
      rewrite IH; [by rewrite <- app_assoc|done|].
      intros x Hx. pose proof (Hnew x ltac:(by right)). set_solver. }
  intros Hnd. apply (Hgen ∅ []); [done|]. set_solver.
Qed.

End Selection.

(** X9. [uniqueById] keeps exactly the first occurrence of every
    identifier, in the original order: its result is a subsequence of the
    input with pairwise distinct identifiers and the same set of
    identifiers, every kept track is preceded in the input by no track of
    the same identifier, and applying it again changes nothing. *)
Theorem uniqueById_first_occurrences (arr : list Sizing.RankedTrack) :
  Sizing.uniqueById arr `sublist_of` arr
  ∧ NoDup (map Sizing.trk_id (Sizing.uniqueById arr))
  ∧ (∀ x, x ∈ map Sizing.trk_id (Sizing.uniqueById arr)
          ↔ x ∈ map Sizing.trk_id arr)
  ∧ (∀ rt, rt ∈ Sizing.uniqueById arr →
       ∃ i, arr !! i = Some rt
            ∧ ∀ j rt', j < i → arr !! j = Some rt' →
                Sizing.trk_id rt' ≠ Sizing.trk_id rt)
  ∧ Sizing.uniqueById (Sizing.uniqueById arr) = Sizing.uniqueById arr.
Proof.
  unfold Sizing.uniqueById at 1 2 3 4.
  destruct (uniqueByIdFrom_props arr ∅ [])
    as (kept & Heq & Hsub & Hnd & Hids & Hfirst).
  assert (Sizing.uniqueById arr = kept) as Hkept by exact Heq.
  rewrite Heq, Hkept. cbn [app].
  split; [done|]. split; [done|]. split.
  - intros x. rewrite Hids. set_solver.
  - split; [done|]. by apply uniqueById_NoDup_id.
Qed.

Section Picking.

Import Sizing.

Lemma pickUniqueFrom_props tracks want seen out :
  ∃ picked,
    pickUniqueFrom tracks want seen out
    = (out ++ picked, list_to_set (map trk_id picked) ∪ seen)
    ∧ picked `sublist_of` tracks
    ∧ NoDup (map trk_id picked)
    ∧ (∀ x, x ∈ map trk_id picked → x ∉ seen)
    ∧ length picked ≤ want - length out
    ∧ (length out + length picked < want →
       ∀ x, x ∈ map trk_id tracks → x ∈ seen ∨ x ∈ map trk_id picked).
Proof.
  revert seen out. induction tracks as [|rt rest IH]; intros seen out.
  - exists []. cbn. rewrite app_nil_r.
    split; [f_equal; set_solver|]. split; [done|]. split; [constructor|].
    split; [intros x Hx; by apply elem_of_nil in Hx|]. split; [lia|].
    intros _ x Hx. by apply elem_of_nil in Hx.
  - cbn [pickUniqueFrom]. destruct (want <=? length out) eqn:Hfull.
    { apply Nat.leb_le in Hfull. exists []. cbn. rewrite app_nil_r.
      split; [f_equal; set_solver|]. split; [apply sublist_nil_l|].
      split; [constructor|].
      split; [intros x Hx; by apply elem_of_nil in Hx|]. split; lia. }
    apply Nat.leb_gt in Hfull.
    destruct (decide (trk_id rt ∈ seen)) as [Hseen|Hnew].
    + destruct (IH seen out) as (picked & Heq & Hsub & Hnd & Hfresh & Hlen & Hex).
      exists picked. split; [done|]. split; [by apply sublist_cons|].
      split; [done|]. split; [done|]. split; [done|].
      intros Hshort x. cbn [map]. intros [->|Hx]%elem_of_cons; [by left|].
      by apply Hex.
    + destruct (IH ({[ trk_id rt ]} ∪ seen) (out ++ [rt]))
        as (picked & Heq & Hsub & Hnd & Hfresh & Hlen & Hex).
      rewrite length_app in Hlen, Hex. cbn [length] in Hlen, Hex.
      exists (rt :: picked). rewrite Heq, <- app_assoc. cbn [app map length].
      split; [f_equal; set_solver|]. split; [by apply sublist_skip|].
      split.
      { apply NoDup_cons. split; [|done].
        intros Hin. apply Hfresh in Hin. set_solver. }
      split.
      { intros x [->|Hx]%elem_of_cons; [done|].
        apply Hfresh in Hx. set_solver. }
      split; [lia|].
      intros Hshort x [->|Hx]%elem_of_cons; [right; by left|].
      destruct (Hex ltac:(lia) x Hx) as [Hin|Hin]; [|right; by right].
      apply elem_of_union in Hin as [Hin|Hin]; [|by left].
      apply elem_of_singleton in Hin as ->. right. by left.
Qed.

Lemma picks_props host challenger perUser :
  ∃ hp cp,
    picks host challenger perUser = (hp, cp)
    ∧ hp `sublist_of` host ∧ cp `sublist_of` challenger
    ∧ length hp ≤ perUser ∧ length cp ≤ perUser
    ∧ NoDup (map trk_id (hp ++ cp)).
Proof.
  unfold picks, pickUnique.
  destruct (pickUniqueFrom_props host perUser ∅ [])
    as (hp & -> & Hhs & Hhnd & _ & Hhl & _).
  destruct (pickUniqueFrom_props challenger perUser
              (list_to_set (map trk_id hp) ∪ ∅) [])
    as (cp & -> & Hcs & Hcnd & Hcf & Hcl & _).
  cbn [length app] in *. exists hp, cp.
  split; [done|]. split; [done|]. split; [done|]. split; [lia|]. split; [lia|].
  rewrite map_app. apply NoDup_app. split; [done|]. split; [|done].
  intros x Hx Hx'. apply Hcf in Hx'. set_solver.
Qed.

Lemma loopBody_Accept_props host challenger perUser hostTracks challengerTracks :
  loopBody host challenger perUser = Accept hostTracks challengerTracks →
  hostTracks `sublist_of` host ∧ challengerTracks `sublist_of` challenger
  ∧ NoDup (map trk_id (hostTracks ++ challengerTracks))
  ∧ 4 ≤ perUser.
Proof.
  unfold loopBody.
  destruct (picks_props host challenger perUser)
    as (hp & cp & -> & Hhs & Hcs & Hhl & Hcl & Hnd).
  destruct (floorPow2 _ <? 4) eqn:Hlow; [done|]. apply Nat.ltb_ge in Hlow.
  destruct (floorPow2 _ =? perUser) eqn:Heq; [|done].
  apply Nat.eqb_eq in Heq. intros [= <- <-].
  split; [by etrans; [apply sublist_take|]|].
  split; [by etrans; [apply sublist_take|]|].
  split; [|lia].
  eapply sublist_NoDup; [exact Hnd|].
  apply (fmap_sublist trk_id), sublist_app; apply sublist_take.
Qed.

Lemma sizingLoop_Selected_props host challenger perUser p hostTracks
    challengerTracks :
  sizingLoop host challenger perUser = Selected p hostTracks challengerTracks →
  p ≤ perUser ∧ 4 ≤ p
  ∧ hostTracks `sublist_of` host ∧ challengerTracks `sublist_of` challenger
  ∧ NoDup (map trk_id (hostTracks ++ challengerTracks)).
Proof.
  induction (lt_wf perUser) as [perUser _ IH].
  intros Hsel. rewrite sizingLoop_body in Hsel.
  destruct (loopBody host challenger perUser) as [|h c|next] eqn:Hbody.
  - done.
  - injection Hsel as <- <- <-.
    apply loopBody_Accept_props in Hbody as (? & ? & ? & ?). done.
  - pose proof (loopBody_Retry_lt _ _ _ _ Hbody) as Hlt.
    destruct (IH next Hlt Hsel) as (? & ? & ? & ? & ?).
    split; [lia|done].
Qed.

Lemma floorPow2_idem n : floorPow2 (floorPow2 n) = floorPow2 n.
Proof.
  destruct n as [|n]; [done|]. unfold floorPow2 at 2.
  pose proof (Nat.pow_nonzero 2 (Nat.log2 (S n)) ltac:(lia)) as Hpos.
  unfold floorPow2. destruct (2 ^ Nat.log2 (S n)) as [|q] eqn:Hq; [done|].
  rewrite <- Hq. by rewrite Nat.log2_pow2 by lia.
Qed.

End Picking.


(** X11. Whenever the sizing loop selects, the final [perUser] is a power
    of two, at least 4 and at most the starting value; each side holds
    exactly [perUser] tracks taken in order from its candidates; and no
    identifier occurs twice across the two sides.  In particular the later
    [bracketSize < 8] test of the playlist-vs branch can never fire. *)
Theorem sizingLoop_selection
    (host challenger : list Sizing.RankedTrack) (perUser p : nat)
    (hostTracks challengerTracks : list Sizing.RankedTrack) :
  Sizing.sizingLoop host challenger perUser
  = Sizing.Selected p hostTracks challengerTracks →
  (∃ j, 2 ≤ j ∧ p = 2 ^ j)
  ∧ p ≤ perUser
  ∧ length hostTracks = p ∧ length challengerTracks = p
  ∧ hostTracks `sublist_of` host ∧ challengerTracks `sublist_of` challenger
  ∧ NoDup (map Sizing.trk_id (hostTracks ++ challengerTracks))
  ∧ (p * 2 <? 8) = false.
Proof.
  intros Hsel.
  destruct (sizingLoop_Selected _ _ _ _ _ _ Hsel) as ([j ->] & Hh & Hc).
  destruct (sizingLoop_Selected_props _ _ _ _ _ _ Hsel)
    as (Hle & Hfour & Hhs & Hcs & Hnd).
  split.
  { exists j. split; [|done].
    destruct j as [|[|j]]; cbn in Hfour; lia. }
  split; [done|]. split; [done|]. split; [done|]. split; [done|].
  split; [done|]. split; [done|]. apply Nat.ltb_ge. lia.
Qed.

Lemma sizingLoop_selection_witness :
  (∃ j, 2 ≤ j ∧ 8 = 2 ^ j)
  ∧ 8 ≤ 16
  ∧ length (take 8 Scenario.hostC) = 8
  ∧ length (take 8 Scenario.challengerC) = 8
  ∧ take 8 Scenario.hostC `sublist_of` Scenario.hostC
  ∧ take 8 Scenario.challengerC `sublist_of` Scenario.challengerC
  ∧ NoDup (map Sizing.trk_id
             (take 8 Scenario.hostC ++ take 8 Scenario.challengerC))
  ∧ (8 * 2 <? 8) = false.
Proof.
  apply (sizingLoop_selection Scenario.hostC Scenario.challengerC 16).
  vm_compute. reflexivity.
Defined.

(** X12. When both candidate lists are duplicate-free and share no
    identifier, the loop has a closed form: with [q] the largest power of
    two not above [perUser] and both list lengths, it fails if [q < 4] and
    otherwise selects the first [q] tracks of each side. *)
Theorem sizingLoop_closed_form
    (host challenger : list Sizing.RankedTrack) (perUser : nat) :
  NoDup (map Sizing.trk_id host) → NoDup (map Sizing.trk_id challenger) →
  (∀ x, x ∈ map Sizing.trk_id host → x ∉ map Sizing.trk_id challenger) →
  Sizing.sizingLoop host challenger perUser
  = (let q := floorPow2 (perUser `min` (length host `min` length challenger)) in
     if q <? 4 then Sizing.NotEnough
     else Sizing.Selected q (take q host) (take q challenger)).
Proof.
  intros Hh Hc Hdisj. cbv zeta.
  set (e := perUser `min` (length host `min` length challenger)).
  pose proof (floorPow2_le e) as Hqe.
  rewrite sizingLoop_body. unfold Sizing.loopBody.
  rewrite picks_disjoint by done. rewrite !length_take.
  replace ((perUser `min` length host) `min` (perUser `min` length challenger))
    with e by (subst e; lia).
  destruct (floorPow2 e <? 4) eqn:Hlow; [done|].
  destruct (floorPow2 e =? perUser) eqn:Heq.
  - apply Nat.eqb_eq in Heq. rewrite Heq, !take_take, Nat.min_id. done.
  - rewrite sizingLoop_body. unfold Sizing.loopBody.
    rewrite picks_disjoint by done. rewrite !length_take.
    replace ((floorPow2 e `min` length host)
             `min` (floorPow2 e `min` length challenger))
      with (floorPow2 e) by (subst e; lia).
    rewrite floorPow2_idem, Hlow, Nat.eqb_refl, !take_take, Nat.min_id. done.
Qed.

Lemma sizingLoop_closed_form_witness :
  Sizing.sizingLoop Scenario.hostC Scenario.challengerC 16
  = (let q := floorPow2 (16 `min` (length Scenario.hostC
                                   `min` length Scenario.challengerC)) in
     if q <? 4 then Sizing.NotEnough
     else Sizing.Selected q (take q Scenario.hostC)
            (take q Scenario.challengerC)).
Proof.
  apply (sizingLoop_closed_form Scenario.hostC Scenario.challengerC 16).
  - apply (bool_decide_unpack _). vm_compute. reflexivity.
  - apply (bool_decide_unpack _). vm_compute. reflexivity.
  - apply Forall_forall. apply (bool_decide_unpack _). vm_compute. reflexivity.
Defined.

(** ** What a successful vote does *)

Section VoteEffects.

Import Routes.

(** The complete account of a successful vote. *)
Lemma vote_Voted_full env id body db fw db' :
  vote env id body db = (Voted fw, db') →
  ∃ bracket rounds pa pb,
    id ≠ ""
    ∧ bodySchema body = true
    ∧ tournamentBracketState db !! id = Some bracket
    ∧ totalRounds (length (tracksJson bracket)) = Ret rounds
    ∧ (vb_round body < Z.of_nat rounds)%Z
    ∧ (vb_match body
       < Z.of_nat (matchCount (length (tracksJson bracket))
                     (Z.to_nat (vb_round body))))%Z
    ∧ truthy (winnersJson bracket !! matchKey (vb_round body) (vb_match body))
      = false
    ∧ resolveMatchParticipants (length (tracksJson bracket))
        (tracksJson bracket) (winnersJson bracket)
        (vb_round body) (vb_match body) = Some (pa, pb)
    ∧ (vb_winnerTrackId body = pa ∨ vb_winnerTrackId body = pb)
    ∧ fw = <[matchKey (vb_round body) (vb_match body)
             := vb_winnerTrackId body]> (winnersJson bracket)
           !! matchKey (Z.of_nat rounds - 1) 0
    ∧ db' = {| tournaments :=
                 if truthy fw
                 then setStatus id "completed" None (nowMs env) (tournaments db)
                 else tournaments db;
               tournamentTracks := tournamentTracks db;
               tournamentBracketState :=
                 <[id := {| tracksJson := tracksJson bracket;
                            winnersJson :=
                              <[matchKey (vb_round body) (vb_match body)
                                := vb_winnerTrackId body]> (winnersJson bracket);
                            completedAt :=
                              if truthy fw then Some (nowMs env) else None;
                            bs_updatedAt := nowMs env |}]>
                   (tournamentBracketState db) |}.
Proof.
  unfold vote.
  destruct (String.eqb_spec id "") as [|Hid]; [done|].
  destruct (bodySchema body) eqn:Hschema; cbn [negb]; [|done].
  destruct (tournamentBracketState db !! id) as [bracket|] eqn:Hb; [|done].
  destruct (totalRounds (length (tracksJson bracket))) as [rounds|] eqn:Hr;
    [|done].
  destruct (vb_round body >=? Z.of_nat rounds)%Z eqn:Hround; [done|].
  destruct (vb_match body >=? _)%Z eqn:Hmatch; [done|].
  destruct (truthy (winnersJson bracket !! _)) eqn:Hvoted; [done|].
  destruct (resolveMatchParticipants _ _ _ _ _) as [[pa pb]|] eqn:Hres; [|done].
  destruct (String.eqb_spec (vb_winnerTrackId body) pa) as [Hpa|Hpa];
    destruct (String.eqb_spec (vb_winnerTrackId body) pb) as [Hpb|Hpb];
    cbn [negb andb]; try done.
  all: intros [= <- <-]; exists bracket, rounds, pa, pb.
  all: repeat (split; [first [done | lia | by left | by right]|]).
  all: by destruct (truthy (<[_:=_]> _ !! _)).
Qed.

End VoteEffects.

(** X13. A successful vote writes exactly one entry: the voted key, which
    held no identifier before, now holds the submitted winner, who is one
    of the two resolved participants; every other entry of that winners
    map, the slot list, the track rows and every other tournament's bracket
    are as before. *)
Theorem vote_writes_one_entry
    (env : Routes.Env) (id : string) (body : Routes.VoteBody)
    (db db' : Routes.Db) (fw : option string) :
  Routes.vote env id body db = (Routes.Voted fw, db') →
  ∃ bracket bracket' pa pb,
    Routes.tournamentBracketState db !! id = Some bracket
    ∧ Routes.tournamentBracketState db' !! id = Some bracket'
    ∧ Routes.tracksJson bracket' = Routes.tracksJson bracket
    ∧ truthy (Routes.winnersJson bracket
                !! matchKey (Routes.vb_round body) (Routes.vb_match body))
      = false
    ∧ Routes.winnersJson bracket'
        !! matchKey (Routes.vb_round body) (Routes.vb_match body)
      = Some (Routes.vb_winnerTrackId body)
    ∧ (∀ key, key ≠ matchKey (Routes.vb_round body) (Routes.vb_match body) →
         Routes.winnersJson bracket' !! key = Routes.winnersJson bracket !! key)
    ∧ resolveMatchParticipants (length (Routes.tracksJson bracket))
        (Routes.tracksJson bracket) (Routes.winnersJson bracket)
        (Routes.vb_round body) (Routes.vb_match body) = Some (pa, pb)
    ∧ (Routes.vb_winnerTrackId body = pa ∨ Routes.vb_winnerTrackId body = pb)
    ∧ Routes.tournamentTracks db' = Routes.tournamentTracks db
    ∧ (∀ other, other ≠ id →
         Routes.tournamentBracketState db' !! other
         = Routes.tournamentBracketState db !! other
         ∧ Routes.tournaments db' !! other = Routes.tournaments db !! other).
Proof.
  intros Hvote.
  apply vote_Voted_full in Hvote
    as (bracket & rounds & pa & pb & Hid & Hschema & Hb & Hr & Hround
        & Hmatch & Hfree & Hres & Hwin & Hfw & ->).
  eexists bracket, _, pa, pb. cbn.
  split; [done|]. split; [apply lookup_insert_eq|]. cbn.
  split; [done|]. split; [done|]. split; [apply lookup_insert_eq|].
  split; [intros key Hkey; by rewrite lookup_insert_ne|].
  split; [done|]. split; [done|]. split; [done|].
  intros other Hother. split; [by rewrite lookup_insert_ne|].
  destruct (truthy fw); [|done].
  unfold Routes.setStatus. by rewrite lookup_alter_ne.
Qed.

Lemma vote_writes_one_entry_witness :
  ∃ bracket bracket' pa pb,
    Routes.tournamentBracketState (Scenario.dbStarted "top_tracks") !! "t1"
    = Some bracket
    ∧ Routes.tournamentBracketState (Scenario.dbVoted "top_tracks") !! "t1"
      = Some bracket'
    ∧ Routes.tracksJson bracket' = Routes.tracksJson bracket
    ∧ truthy (Routes.winnersJson bracket
                !! matchKey (Routes.vb_round (Scenario.firstVote "top_tracks"))
                     (Routes.vb_match (Scenario.firstVote "top_tracks")))
      = false
    ∧ Routes.winnersJson bracket'
        !! matchKey (Routes.vb_round (Scenario.firstVote "top_tracks"))
             (Routes.vb_match (Scenario.firstVote "top_tracks"))
      = Some (Routes.vb_winnerTrackId (Scenario.firstVote "top_tracks"))
    ∧ (∀ key,
         key ≠ matchKey (Routes.vb_round (Scenario.firstVote "top_tracks"))
                 (Routes.vb_match (Scenario.firstVote "top_tracks")) →
         Routes.winnersJson bracket' !! key = Routes.winnersJson bracket !! key)
    ∧ resolveMatchParticipants (length (Routes.tracksJson bracket))
        (Routes.tracksJson bracket) (Routes.winnersJson bracket)
        (Routes.vb_round (Scenario.firstVote "top_tracks"))
        (Routes.vb_match (Scenario.firstVote "top_tracks")) = Some (pa, pb)
    ∧ (Routes.vb_winnerTrackId (Scenario.firstVote "top_tracks") = pa
       ∨ Routes.vb_winnerTrackId (Scenario.firstVote "top_tracks") = pb)
    ∧ Routes.tournamentTracks (Scenario.dbVoted "top_tracks")
      = Routes.tournamentTracks (Scenario.dbStarted "top_tracks")
    ∧ (∀ other, other ≠ "t1" →
         Routes.tournamentBracketState (Scenario.dbVoted "top_tracks") !! other
         = Routes.tournamentBracketState (Scenario.dbStarted "top_tracks")
             !! other
         ∧ Routes.tournaments (Scenario.dbVoted "top_tracks") !! other
           = Routes.tournaments (Scenario.dbStarted "top_tracks") !! other).
Proof.
  apply (vote_writes_one_entry Scenario.env "t1"
           (Scenario.firstVote "top_tracks") (Scenario.dbStarted "top_tracks")
           (Scenario.dbVoted "top_tracks") None).
  vm_compute. reflexivity.
Defined.

(** A vote for a participant of the match [nextOpenMatch] returns goes
    through. *)
Lemma next_open_votable
    (env : Routes.Env) (id : string) (db : Routes.Db)
    (bracket : Routes.BracketState) (mr : MatchRef) (w : string) :
  id ≠ "" →
  Routes.tournamentBracketState db !! id = Some bracket →
  nextOpenMatch (length (Routes.tracksJson bracket))
    (Routes.tracksJson bracket) (Routes.winnersJson bracket) = Ret (Some mr) →
  w = a mr ∨ w = b mr →
  ∃ fw db',
    Routes.vote env id
      {| Routes.vb_round := round mr; Routes.vb_match := match_ mr;
         Routes.vb_winnerTrackId := w |} db
    = (Routes.Voted fw, db').
Proof.
  intros Hid Hb Hnext Hw. unfold nextOpenMatch in Hnext.
  destruct (totalRounds (length (Routes.tracksJson bracket)))
    as [rounds|] eqn:Hr; [|done].
  injection Hnext as Hnext.
  apply nextOpenFrom_Some in Hnext
    as (r & m & Hrr & Hm & Hround & Hmatch & Hun & Hres & _).
  assert (a mr ≠ "" ∧ b mr ≠ "") as [Ha Hb'].
  { destruct r as [|r].
    - change (Z.of_nat 0) with 0%Z in Hres.
      apply resolve_round0 in Hres as (_ & _ & ? & ?); done.
    - apply resolve_later in Hres as (_ & _ & ? & ?); [done..|lia]. }
  assert (w ≠ "") as Hwne by (by destruct Hw as [->| ->]).
  unfold Routes.vote, Routes.bodySchema. cbn.
  rewrite Hround, Hmatch, Hb, Hr, Nat2Z.id.
  destruct (String.eqb_spec id "") as [|_]; [done|].
  destruct (String.eqb_spec w "") as [|_]; [done|].
  destruct (0 <=? Z.of_nat r)%Z eqn:H0r; [|apply Z.leb_gt in H0r; lia].
  destruct (0 <=? Z.of_nat m)%Z eqn:H0m; [|apply Z.leb_gt in H0m; lia].
  cbn.
  destruct (Z.of_nat r >=? Z.of_nat rounds)%Z eqn:Hge; [lia|].
  destruct (Z.of_nat m >=? _)%Z eqn:Hgem; [lia|].
  unfold recorded in Hun.
  destruct (truthy (Routes.winnersJson bracket !! _)); [done|].
  rewrite Hres.
  destruct (String.eqb_spec w (a mr)) as [|Hna];
    destruct (String.eqb_spec w (b mr)) as [|Hnb]; cbn.
  4: by destruct Hw.
  all: by eexists _, _.
Qed.

(** ** The stored tables stay consistent *)

Section Consistency.

Import Sizing Routes.

Lemma interleave_perm hostIds challengerIds perUser :
  length hostIds = perUser → length challengerIds = perUser →
  interleave hostIds challengerIds perUser ≡ₚ hostIds ++ challengerIds.
Proof.
  intros Hh Hc. unfold interleave.
  assert (∀ n s, s + n = perUser →
            flat_map (λ i, [default "" (hostIds !! i);
                            default "" (challengerIds !! i)]) (seq s n)
            ≡ₚ drop s hostIds ++ drop s challengerIds) as Hgen.
  { induction n as [|n IH]; intros s Hs.
    - cbn. by rewrite !drop_ge by lia.
    - cbn [seq flat_map].
      destruct (lookup_lt_is_Some_2 hostIds s) as [x Hx]; [lia|].
      destruct (lookup_lt_is_Some_2 challengerIds s) as [y Hy]; [lia|].
      rewrite Hx, Hy, (drop_S _ _ _ Hx), (drop_S _ _ _ Hy). simpl.
      rewrite IH by lia. constructor. apply Permutation_middle. }
  apply (Hgen perUser 0). lia.
Qed.

Lemma bracketOf_perm t perUser hostTracks challengerTracks :
  length hostTracks = perUser → length challengerTracks = perUser →
  bracketOf t perUser hostTracks challengerTracks
  ≡ₚ map trk_id (hostTracks ++ challengerTracks).
Proof.
  intros Hh Hc. unfold bracketOf. rewrite map_app.
  destruct (meshMode t =? 0)%Z.
  - rewrite interleave_perm by (by rewrite shuffled_length, length_map).
    by rewrite !shuffled_perm.
  - rewrite shuffled_perm.
    rewrite !take_ge by (rewrite shuffled_length, length_map; lia).
    by rewrite !shuffled_perm.
Qed.

Lemma trackRows_owner id owner picked :
  Forall (λ r, tr_tournamentId r = id) (trackRows id owner picked).
Proof. unfold trackRows. apply Forall_forall. intros r Hr.
  apply list_elem_of_fmap in Hr as (rt & -> & _). done.
Qed.

Lemma trackRows_ids id owner picked :
  map tr_trackId (trackRows id owner picked) = map trk_id picked.
Proof. unfold trackRows. rewrite map_map. done. Qed.

Lemma filter_all {A} (P : A → Prop) `{!∀ x, Decision (P x)} (l : list A) :
  Forall P l → filter P l = l.
Proof.
  induction 1 as [|x l Hx _ IH]; [done|].
  by rewrite filter_cons_True, IH.
Qed.

Lemma filter_none {A} (P : A → Prop) `{!∀ x, Decision (P x)} (l : list A) :
  Forall (λ x, ¬ P x) l → filter P l = [].
Proof.
  induction 1 as [|x l Hx _ IH]; [done|].
  by rewrite filter_cons_False.
Qed.

Lemma rowsOf_materialize id rows bracketTracks size' now db id' :
  Forall (λ r, tr_tournamentId r = id) rows →
  rowsOf (materialize id rows bracketTracks size' now db) id'
  = if decide (id' = id) then rows else rowsOf db id'.
Proof.
  intros Hrows. unfold rowsOf, materialize. cbn.
  rewrite filter_app, list_filter_filter.
  destruct (decide (id' = id)) as [->|Hne].
  - rewrite filter_none, filter_all; [done..|].
    apply Forall_forall. intros r _ [? ?]. done.
  - rewrite (filter_none _ rows).
    + rewrite app_nil_r. apply list_filter_iff. intros r. split; [by intros []|].
      intros Hr. split; [done|]. by rewrite Hr.
    + eapply Forall_impl; [exact Hrows|]. cbn. intros r -> Heq. done.
Qed.

Lemma materialize_consistent id rows bracketTracks size' now db k t :
  consistent db → tournaments db !! id = Some t →
  3 ≤ k → length bracketTracks = 2 ^ k → size' = 2 ^ k → NoDup bracketTracks →
  Forall (λ r, tr_tournamentId r = id) rows →
  map tr_trackId rows ≡ₚ bracketTracks →
  consistent (materialize id rows bracketTracks size' now db).
Proof.
  intros Hdb Ht Hk Hlen -> Hnd Hrows Hperm id' bracket Hb.
  cbn in Hb. destruct (decide (id' = id)) as [->|Hne].
  - rewrite lookup_insert_eq in Hb. injection Hb as <-.
    eexists k, _. constructor.
    + done.
    + done.
    + done.
    + rewrite rowsOf_materialize by done. by rewrite decide_True.
    + apply wellKeyed_empty.
    + apply feederClosed_empty.
    + intros r m w _ Hw. cbn in Hw. by rewrite lookup_empty in Hw.
    + cbn. unfold setStatus. by rewrite lookup_alter_eq, Ht.
    + done.
    + cbn. by rewrite lookup_empty.
    + unfold recorded. cbn. rewrite lookup_empty. cbn.
      split; [by intros []|done].
  - rewrite lookup_insert_ne in Hb by done.
    destruct (Hdb id' bracket Hb) as (k' & t' & []).
    exists k', t'. constructor; try done.
    + rewrite rowsOf_materialize by done. by rewrite decide_False.
    + cbn. unfold setStatus. by rewrite lookup_alter_ne.
Qed.

Lemma start_consistent env id db :
  consistent db → consistent (start env id db).2.
Proof.
  intros Hdb. unfold start.
  destruct (String.eqb id ""); [done|].
  destruct (tournaments db !! id) as [t|] eqn:Ht; [|done].
  destruct (String.eqb (sourceType t) "playlist").
  - destruct (negb (truthy (hostUserId t))); [done|].
    destruct (startedAlready t); [done|].
    destruct (negb (truthy (hostPlaylistId t))); [done|].
    set (unique := uniqueById _).
    destruct (floorPow2 (bracketSize t `min` length unique) <? 8) eqn:Hlow;
      [done|].
    apply Nat.ltb_ge in Hlow. cbn [snd].
    destruct (floorPow2_pow2 (bracketSize t `min` length unique) ltac:(lia))
      as (j & Hj & Hle).
    assert (NoDup (map trk_id unique)) as Hnd.
    { subst unique. unfold uniqueById.
      destruct (uniqueByIdFrom_props
                  (fetchPlaylistTracks env (default "" (hostUserId t))
                     (default "" (hostPlaylistId t))) ∅ [])
        as (kept & -> & _ & Hnd & _). done. }
    apply (materialize_consistent _ _ _ _ _ _ j t); try done.
    + destruct j as [|[|[|j]]]; cbn in Hj; lia.
    + rewrite shuffled_length, length_map, length_take. lia.
    + rewrite shuffled_perm. eapply sublist_NoDup; [exact Hnd|].
      apply (fmap_sublist trk_id), sublist_take.
    + apply trackRows_owner.
    + by rewrite trackRows_ids, shuffled_perm.
  - destruct (requireUser env) as [user|]; [|done].
    destruct (negb (truthy (hostUserId t))); [done|].
    destruct (_ && _); [done|].
    assert (∀ host challenger perUser hostTracks challengerTracks now
              hostCandidates challengerCandidates requested,
              sizingLoop hostCandidates challengerCandidates requested
              = Selected perUser hostTracks challengerTracks →
              consistent
                (materialize id
                   (trackRows id host hostTracks
                    ++ trackRows id challenger challengerTracks)
                   (bracketOf t perUser hostTracks challengerTracks)
                   (perUser * 2) now db)) as Hdual.
    { intros host challenger perUser hostTracks challengerTracks now
        hostCandidates challengerCandidates requested Hsized.
      destruct (sizingLoop_Selected _ _ _ _ _ _ Hsized) as ([j ->] & Hh & Hc).
      destruct (sizingLoop_Selected_props _ _ _ _ _ _ Hsized)
        as (_ & Hfour & _ & _ & Hnd).
      apply (materialize_consistent _ _ _ _ _ _ (S j) t); try done.
      - destruct j as [|[|j]]; cbn in Hfour; lia.
      - rewrite bracketOf_length by done. by rewrite Nat.pow_succ_r'.
      - rewrite Nat.pow_succ_r'. lia.
      - by rewrite bracketOf_perm.
      - apply Forall_app. split; apply trackRows_owner.
      - rewrite map_app, !trackRows_ids, bracketOf_perm by done.
        by rewrite map_app. }
    destruct (String.eqb (sourceType t) "playlist_vs").
    + destruct (startedAlready t); [done|].
      destruct (_ || _); [done|]. destruct (_ || _); [done|].
      destruct (sizingLoop _ _ _) as [|perUser hostTracks challengerTracks]
        eqn:Hsized; [done|].
      destruct (perUser * 2 <? 8); [done|]. cbn [snd].
      by eapply Hdual.
    + destruct (negb (truthy (challengerUserId t))); [done|].
      destruct (sizingLoop _ _ _) as [|perUser hostTracks challengerTracks]
        eqn:Hsized; [done|].
      cbn [snd]. by eapply Hdual.
Qed.

Lemma vote_consistent env id body db :
  consistent db → consistent (vote env id body db).2.
Proof.
  intros Hdb.
  destruct (vote env id body db) as [resp db'] eqn:Hvote. cbn [snd].
  assert (failed resp → db' = db) as Hfail.
  { intros Hf. pose proof (vote_failed_unchanged env id body db) as Hsame.
    rewrite Hvote in Hsame. by apply Hsame. }
  destruct resp as [|fw|e c| |msg]; try (by rewrite Hfail).
  { pose proof (vote_never_Ok env id body db) as Hnot.
    by rewrite Hvote in Hnot. }
  clear Hfail.
  apply vote_Voted_full in Hvote
    as (bracket & rounds & pa & pb & Hid & Hschema & Hb & Hr & Hround
        & Hmatch & Hfree & Hres & Hwin & Hfw & ->).
  destruct (Hdb id bracket Hb) as (k & t & Hinv).
  pose proof (play_length _ _ _ _ _ Hinv) as Hlen.
  rewrite Hlen in Hr, Hmatch, Hres.
  rewrite totalRounds_pow2 in Hr. injection Hr as <-.
  unfold bodySchema in Hschema.
  apply andb_true_iff in Hschema as [Hschema Hw].
  apply andb_true_iff in Hschema as [Hr0 Hm0].
  apply Z.leb_le in Hr0, Hm0. apply negb_true_iff, String.eqb_neq in Hw.
  set (key := matchKey (vb_round body) (vb_match body)) in *.
  set (winners' := <[key := vb_winnerTrackId body]> (winnersJson bracket)) in *.
  assert (winnersJson bracket !! key = None) as Hnone.
  { destruct (winnersJson bracket !! key) as [x|] eqn:Hx; [|done].
    destruct (play_keys _ _ _ _ _ Hinv key x Hx) as [Hne _].
    apply truthy_Some in Hne. congruence. }
  assert (winnersJson bracket ⊆ winners') as Hsub
    by (by apply insert_subseteq).
  assert (truthy (winnersJson bracket !! matchKey (Z.of_nat k - 1) 0) = true →
          truthy fw = true) as Hfinal.
  { intros Hrec. apply truthy_spec in Hrec as (x & Hx & Hne).
    rewrite Hfw, (lookup_weaken _ _ _ _ Hx Hsub). by apply truthy_Some. }
  intros id' bracket' Hb'. cbn in Hb'.
  destruct (decide (id' = id)) as [->|Hne].
  - rewrite lookup_insert_eq in Hb'. injection Hb' as <-.
    exists k.
    eexists (if truthy fw then _ else t).
    constructor.
    + by destruct Hinv.
    + by destruct Hinv.
    + by destruct Hinv.
    + by destruct Hinv.
    + cbn. fold winners'. intros key0 w0 Hkw.
      apply lookup_insert_Some in Hkw as [[<- <-]|[_ Hkw]].
      * split; [done|].
        exists (Z.to_nat (vb_round body)), (Z.to_nat (vb_match body)).
        split; [split; lia|]. by rewrite !Z2Nat.id.
      * by apply (play_keys _ _ _ _ _ Hinv).
    + cbn. fold winners'.
      assert (∀ r m, recorded (winnersJson bracket) r m → recorded winners' r m)
        as Hkeep.
      { intros r m Hrec. unfold recorded in *.
        apply truthy_spec in Hrec as (x & Hx & Hxne).
        rewrite (lookup_weaken _ _ _ _ Hx Hsub). by apply truthy_Some. }
      intros r m Hin Hrec. unfold recorded in Hrec.
      destruct (decide (key = matchKey (Z.of_nat (S r)) (Z.of_nat m)))
        as [Heq|Hkne].
      * apply matchKey_inj in Heq as [Hr' Hm'].
        rewrite Hr', Hm' in Hres.
        apply resolve_later in Hres as (Ha & Hb2 & Hane & Hbne); [|done|lia].
        replace (Z.of_nat (S r) - 1)%Z with (Z.of_nat r) in Ha, Hb2 by lia.
        replace (Z.of_nat m * 2)%Z with (Z.of_nat (2 * m)) in Ha, Hb2 by lia.
        replace (Z.of_nat (2 * m) + 1)%Z with (Z.of_nat (2 * m + 1)) in Hb2
          by lia.
        split; apply Hkeep; unfold recorded.
        -- rewrite Ha. by apply truthy_Some.
        -- rewrite Hb2. by apply truthy_Some.
      * unfold winners' in Hrec. rewrite lookup_insert_ne in Hrec by done.
        destruct (play_feeders _ _ _ _ _ Hinv r m Hin Hrec) as [Heven Hodd].
        split; by apply Hkeep.
    + cbn. fold winners'. intros r m w0 Hin Hw0.
      apply lookup_insert_Some in Hw0 as [[Hkey <-]|[_ Hw0]].
      * apply matchKey_inj in Hkey as [Hr' Hm'].
        exists pa, pb. split; [|done].
        apply (resolve_extend _ _ (winnersJson bracket)); [done|].
        by rewrite <- Hr', <- Hm'.
      * destruct (play_winners _ _ _ _ _ Hinv r m w0 Hin Hw0)
          as (pa' & pb' & Hres' & Hor).
        exists pa', pb'. split; [|done].
        by apply (resolve_extend _ _ (winnersJson bracket)).
    + cbn. destruct (truthy fw).
      * unfold setStatus.
        by rewrite lookup_alter_eq, (play_tournament _ _ _ _ _ Hinv).
      * by destruct Hinv.
    + destruct (truthy fw); [cbn|]; by destruct Hinv.
    + cbn. fold winners'. rewrite <- Hfw.
      destruct (truthy fw) eqn:Hdone; [by cbn|].
      rewrite (play_status _ _ _ _ _ Hinv).
      destruct (truthy (winnersJson bracket !! matchKey (Z.of_nat k - 1) 0));
        [|done].
      by specialize (Hfinal eq_refl).
    + cbn. fold winners'. unfold recorded. rewrite <- Hfw.
      destruct (truthy fw); [done|]. split; [by intros []|done].
  - rewrite lookup_insert_ne in Hb' by done.
    destruct (Hdb id' bracket' Hb') as (k' & t' & []).
    exists k', t'. constructor; try done.
    cbn. destruct (truthy fw); [|done].
    unfold setStatus. by rewrite lookup_alter_ne.
Qed.

Lemma serve_consistent rqs db :
  consistent db → consistent (serve rqs db).
Proof.
  revert db. induction rqs as [|rq rqs IH]; intros db Hdb; [done|].
  cbn. apply IH. destruct rq as [env id|env id body]; cbn.
  - by apply start_consistent.
  - by apply vote_consistent.
Qed.

Lemma consistent_fresh db :
  tournamentBracketState db = ∅ → consistent db.
Proof. intros Hnone id bracket. by rewrite Hnone, lookup_empty. Qed.

Lemma trackById_Some id db x v :
  trackById id db !! x = Some v →
  ∃ r, r ∈ rowsOf db id ∧ tr_trackId r = x ∧ v = viewOf r.
Proof.
  unfold trackById. fold (rowsOf db id).
  assert (∀ l (acc : gmap string TrackView),
            foldl (λ acc r, <[tr_trackId r := viewOf r]> acc) acc l !! x = Some v →
            acc !! x = Some v
            ∨ ∃ r, r ∈ l ∧ tr_trackId r = x ∧ v = viewOf r) as Hgen.
  { induction l as [|r l IH]; intros acc Hv; [by left|].
    cbn [foldl] in Hv. apply IH in Hv as [Hv|(r' & Hr' & Hx & Hview)].
    - apply lookup_insert_Some in Hv as [[Hx Hview]|[_ Hv]]; [|by left].
      right. exists r. split; [by left|done].
    - right. exists r'. split; [by right|done]. }
  intros Hv. apply Hgen in Hv as [Hv|?]; [|done].
  by rewrite lookup_empty in Hv.
Qed.

Lemma trackById_is_Some id db x :
  x ∈ map tr_trackId (rowsOf db id) → is_Some (trackById id db !! x).
Proof.
  unfold trackById. fold (rowsOf db id).
  assert (∀ l (acc : gmap string TrackView),
            x ∈ map tr_trackId l ∨ is_Some (acc !! x) →
            is_Some (foldl (λ acc r, <[tr_trackId r := viewOf r]> acc) acc l
                     !! x)) as Hgen.
  { induction l as [|r l IH]; intros acc Hx.
    - destruct Hx as [Hx|Hx]; [by apply elem_of_nil in Hx|done].
    - cbn [foldl]. apply IH. cbn [map] in Hx.
      destruct Hx as [[->|Hx]%elem_of_cons|Hx].
      + right. rewrite lookup_insert_eq. by eexists.
      + by left.
      + right. destruct (decide (tr_trackId r = x)) as [->|Hne].
        * rewrite lookup_insert_eq. by eexists.
        * by rewrite lookup_insert_ne. }
  intros Hx. apply Hgen. by left.
Qed.

(** In a consistent store every resolved participant and every recorded
    winner is one of the slots. *)
Lemma inPlay_participants db id bracket k t r m pa pb :
  inPlay db id bracket k t → inBracket (2 ^ k) k r m →
  resolveMatchParticipants (2 ^ k) (tracksJson bracket) (winnersJson bracket)
    (Z.of_nat r) (Z.of_nat m) = Some (pa, pb) →
  pa ∈ tracksJson bracket ∧ pb ∈ tracksJson bracket.
Proof.
  intros Hinv. pose proof (play_length _ _ _ _ _ Hinv) as Hlen.
  revert m pa pb. induction r as [|r IH]; intros m pa pb Hin Hres.
  - change (Z.of_nat 0) with 0%Z in Hres.
    apply resolve_round0 in Hres as (Ha & Hb & _ & _); [|done].
    replace (Z.of_nat m * 2)%Z with (Z.of_nat (2 * m)) in Ha, Hb by lia.
    replace (Z.of_nat (2 * m) + 1)%Z with (Z.of_nat (2 * m + 1)) in Hb by lia.
    rewrite index_nat in Ha, Hb.
    split; by eapply list_elem_of_lookup_2.
  - destruct Hin as [Hr Hm].
    pose proof (matchCount_feeders k r Hr) as Hfeed.
    apply resolve_later in Hres as (Ha & Hb & _ & _); [|done|lia].
    replace (Z.of_nat (S r) - 1)%Z with (Z.of_nat r) in Ha, Hb by lia.
    replace (Z.of_nat m * 2)%Z with (Z.of_nat (2 * m)) in Ha, Hb by lia.
    replace (Z.of_nat (2 * m) + 1)%Z with (Z.of_nat (2 * m + 1)) in Hb by lia.
    assert (inBracket (2 ^ k) k r (2 * m)) as Hina by (split; lia).
    assert (inBracket (2 ^ k) k r (2 * m + 1)) as Hinb by (split; lia).
    destruct (play_winners _ _ _ _ _ Hinv r (2 * m) pa Hina Ha)
      as (xa & ya & Hresa & Hora).
    destruct (play_winners _ _ _ _ _ Hinv r (2 * m + 1) pb Hinb Hb)
      as (xb & yb & Hresb & Horb).
    destruct (IH _ _ _ Hina Hresa), (IH _ _ _ Hinb Hresb).
    split; [by destruct Hora as [->| ->]|by destruct Horb as [->| ->]].
Qed.

(** In a consistent store a recorded final means a validly decided
    bracket. *)
Lemma inPlay_completed db id bracket k t :
  inPlay db id bracket k t →
  recorded (winnersJson bracket) (Z.of_nat k - 1) 0 →
  validlyDecided (2 ^ k) k (tracksJson bracket) (winnersJson bracket).
Proof.
  intros Hinv Hfinal.
  pose proof (play_rounds _ _ _ _ _ Hinv) as Hk.
  assert (fullyDecided (2 ^ k) k (winnersJson bracket)) as Hall.
  { apply feederClosed_all_recorded; [lia| |done]. by destruct Hinv. }
  intros r m Hin. pose proof (Hall r m Hin) as Hrec.
  apply truthy_spec in Hrec as (w & Hw & _).
  destruct (play_winners _ _ _ _ _ Hinv r m w Hin Hw) as (pa & pb & Hres & Hor).
  by exists pa, pb, w.
Qed.

Lemma views_exist id db ranking :
  (∀ x, x ∈ ranking → x ∈ map tr_trackId (rowsOf db id)) →
  ∃ views,
    map (λ trackId, trackById id db !! trackId) ranking = map Some views
    ∧ map tv_trackId views = ranking
    ∧ ∀ v, v ∈ views → ∃ r, r ∈ rowsOf db id ∧ v = viewOf r.
Proof.
  induction ranking as [|x ranking IH]; intros Hin.
  - exists []. split; [done|]. split; [done|].
    intros v Hv. by apply elem_of_nil in Hv.
  - destruct IH as (views & Hmap & Hids & Hrows).
    { intros y Hy. apply Hin. by right. }
    destruct (trackById_is_Some id db x) as [v Hv]; [apply Hin; by left|].
    destruct (trackById_Some _ _ _ _ Hv) as (r & Hr & Hx & Hview).
    exists (v :: views). cbn [map]. rewrite Hv, Hmap, Hids.
    split; [done|]. split; [by rewrite Hview, <- Hx|].
    intros v' [->|Hv']%elem_of_cons; [by exists r|by apply Hrows].
Qed.

(** The results route on a bracket in play. *)
Lemma inPlay_results db id bracket k t :
  id ≠ "" → tournamentBracketState db !! id = Some bracket →
  inPlay db id bracket k t →
  if String.eqb (status t) "completed"
  then ∃ ranking views,
         computeRanking (length (tracksJson bracket)) (tracksJson bracket)
           (winnersJson bracket) = Ret (Some ranking)
         ∧ results id db = inr (map Some views)
         ∧ map tv_trackId views = ranking
         ∧ ranking ≡ₚ tracksJson bracket
         ∧ (∀ v, v ∈ views → ∃ r, r ∈ rowsOf db id ∧ v = viewOf r)
  else results id db = inl (Error "tournament_not_completed" 409).
Proof.
  intros Hid Hb Hinv.
  pose proof (play_rounds _ _ _ _ _ Hinv) as Hk.
  pose proof (play_length _ _ _ _ _ Hinv) as Hlen.
  assert (1 ≤ k) as Hk1 by lia.
  rewrite (play_status _ _ _ _ _ Hinv). unfold results.
  destruct (String.eqb_spec id "") as [|_]; [done|]. rewrite Hb, Hlen.
  destruct (truthy (winnersJson bracket !! matchKey (Z.of_nat k - 1) 0))
    eqn:Hfinal.
  - change (String.eqb "completed" "completed") with true. cbv iota.
    pose proof (inPlay_completed _ _ _ _ _ Hinv Hfinal) as Hvalid.
    assert (Forall (λ x, x ≠ "") (tracksJson bracket)) as Hids
      by (eapply valid_ids; eassumption).
    assert (fullyDecided (2 ^ k) k (winnersJson bracket)) as Hall
      by (eapply valid_fullyDecided; eassumption).
    assert (rankingOf (2 ^ k) (tracksJson bracket) (winnersJson bracket) k
            ≡ₚ tracksJson bracket) as Hperm
      by (eapply rankingOf_perm; eassumption).
    rewrite (computeRanking_decided k (tracksJson bracket) (winnersJson bracket))
      by done.
    destruct (views_exist id db
                (rankingOf (2 ^ k) (tracksJson bracket) (winnersJson bracket) k))
      as (views & Hmap & Hviews & Hrows).
    { intros x Hx. rewrite (play_rows _ _ _ _ _ Hinv). by rewrite <- Hperm. }
    eexists _, views. split; [done|]. rewrite Hmap. done.
  - change (String.eqb "in_progress" "completed") with false. cbv iota.
    unfold computeRanking, bracketWinner.
    by rewrite totalRounds_pow2, Hfinal.
Qed.

(** The state route on a bracket in play. *)
Lemma inPlay_state env db id bracket k t :
  id ≠ "" → tournamentBracketState db !! id = Some bracket →
  inPlay db id bracket k t →
  ∃ tournament view,
    state id db = inr (InPlay tournament view)
    ∧ tnv_bracketSize tournament = bv_size view
    ∧ bv_size view = length (tracksJson bracket)
    ∧ bv_tracks view = tracksJson bracket
    ∧ bv_winners view = winnersJson bracket
    ∧ match bv_nextMatch view with
      | Some nm =>
          tnv_status tournament = "in_progress"
          ∧ bv_winnerTrackId view = None
          ∧ bv_completedAt view = None
          ∧ ∃ va vb,
              nm_a nm = Some va ∧ nm_b nm = Some vb
              ∧ tv_trackId va ∈ tracksJson bracket
              ∧ tv_trackId vb ∈ tracksJson bracket
              ∧ ∀ w, w = tv_trackId va ∨ w = tv_trackId vb →
                  ∃ fw db',
                    vote env id {| vb_round := nm_round nm;
                                   vb_match := nm_match nm;
                                   vb_winnerTrackId := w |} db
                    = (Voted fw, db')
      | None =>
          Forall (λ x, x ≠ "") (tracksJson bracket) →
          tnv_status tournament = "completed"
          ∧ is_Some (bv_winnerTrackId view)
          ∧ is_Some (bv_completedAt view)
      end.
Proof.
  intros Hid Hb Hinv.
  pose proof (play_rounds _ _ _ _ _ Hinv) as Hk.
  pose proof (play_length _ _ _ _ _ Hinv) as Hlen.
  assert (totalRounds (length (tracksJson bracket)) = Ret k) as Hrounds
    by (rewrite Hlen; apply totalRounds_pow2).
  destruct (nextOpenMatch (length (tracksJson bracket)) (tracksJson bracket)
              (winnersJson bracket)) as [next|e] eqn:Hnext.
  2: { unfold nextOpenMatch in Hnext. by rewrite Hrounds in Hnext. }
  eexists _, _. split.
  { unfold state. destruct (String.eqb_spec id "") as [|_]; [done|].
    rewrite (play_tournament _ _ _ _ _ Hinv), Hb. cbv zeta.
    rewrite Hrounds, Hnext. reflexivity. }
  cbn.
  split; [by rewrite (play_size _ _ _ _ _ Hinv)|].
  split; [done|]. split; [done|]. split; [done|].
  destruct next as [mr|].
  - pose proof Hnext as Hopen. unfold nextOpenMatch in Hopen.
    rewrite Hlen, totalRounds_pow2 in Hopen. injection Hopen as Hopen.
    apply nextOpenFrom_Some in Hopen
      as (r & m & Hr & Hm & Hround & Hmatch & Hun & Hres & _).
    assert (truthy (winnersJson bracket !! matchKey (Z.of_nat k - 1) 0) = false)
      as Hfinal.
    { destruct (truthy _) eqn:Hrec; [|done]. destruct Hun.
      apply (feederClosed_all_recorded k (winnersJson bracket));
        [lia|by destruct Hinv|done|]. split; [lia|done]. }
    rewrite (play_status _ _ _ _ _ Hinv), Hfinal.
    split; [done|]. split.
    { destruct (winnersJson bracket !! matchKey (Z.of_nat k - 1) 0)
        as [x|] eqn:Hx; [|done].
      destruct (play_keys _ _ _ _ _ Hinv _ x Hx) as [Hne _].
      apply truthy_Some in Hne. congruence. }
    split.
    { destruct (completedAt bracket) as [stamp|] eqn:Hstamp; [|done].
      assert (is_Some (completedAt bracket)) as Hsome by (by rewrite Hstamp).
      apply (play_completedAt _ _ _ _ _ Hinv) in Hsome.
      unfold recorded in Hsome. congruence. }
    destruct (inPlay_participants _ _ _ _ _ r m (a mr) (b mr) Hinv)
      as [Ha Hb']; [split; lia|done|].
    destruct (trackById_is_Some id db (a mr)) as [va Hva];
      [by rewrite (play_rows _ _ _ _ _ Hinv)|].
    destruct (trackById_is_Some id db (b mr)) as [vb Hvb];
      [by rewrite (play_rows _ _ _ _ _ Hinv)|].
    destruct (trackById_Some _ _ _ _ Hva) as (ra & _ & Hida & ->).
    destruct (trackById_Some _ _ _ _ Hvb) as (rb & _ & Hidb & ->).
    exists (viewOf ra), (viewOf rb). cbn.
    rewrite Hida, Hidb. split; [done|]. split; [done|].
    split; [done|]. split; [done|].
    intros w Hw. by eapply next_open_votable.
  - intros Hids.
    unfold nextOpenMatch in Hnext.
    rewrite Hlen, totalRounds_pow2 in Hnext. injection Hnext as Hnext.
    assert (fullyDecided (2 ^ k) k (winnersJson bracket)) as Hall.
    { apply (no_open_all_recorded k (tracksJson bracket)); try done; [lia|].
      intros r m [Hr Hm].
      apply (nextOpenFrom_None _ _ _ _ _ Hnext); [lia|done]. }
    assert (recorded (winnersJson bracket) (Z.of_nat k - 1) 0) as Hfinal.
    { replace (Z.of_nat k - 1)%Z with (Z.of_nat (k - 1)) by lia.
      apply (Hall (k - 1) 0). split; [lia|].
      rewrite matchCount_final by lia. lia. }
    rewrite (play_status _ _ _ _ _ Hinv). unfold recorded in Hfinal.
    rewrite Hfinal. split; [done|]. split.
    + apply truthy_spec in Hfinal as (x & -> & _). by eexists.
    + by apply (play_completedAt _ _ _ _ _ Hinv).
Qed.

End Consistency.

(** X14. The match that [nextOpenMatch] returns for a stored bracket is one
    the vote route accepts: a vote for either of its two participants, on
    its round and match index, succeeds. *)
Theorem vote_accepts_next_open
    (env : Routes.Env) (id : string) (db : Routes.Db)
    (bracket : Routes.BracketState) (mr : MatchRef) (w : string) :
  id ≠ "" →
  Routes.tournamentBracketState db !! id = Some bracket →
  nextOpenMatch (length (Routes.tracksJson bracket))
    (Routes.tracksJson bracket) (Routes.winnersJson bracket) = Ret (Some mr) →
  w = a mr ∨ w = b mr →
  ∃ fw db',
    Routes.vote env id
      {| Routes.vb_round := round mr; Routes.vb_match := match_ mr;
         Routes.vb_winnerTrackId := w |} db
    = (Routes.Voted fw, db').
Proof. apply next_open_votable. Qed.

Lemma vote_accepts_next_open_witness :
  ∃ fw db',
    Routes.vote Scenario.env "t1"
      {| Routes.vb_round := 0; Routes.vb_match := 0;
         Routes.vb_winnerTrackId := "h1" |}
      (Scenario.dbStarted "top_tracks")
    = (Routes.Voted fw, db').
Proof.
  apply (vote_accepts_next_open Scenario.env "t1"
           (Scenario.dbStarted "top_tracks")
           {| Routes.tracksJson := Scenario.slotsOf (Scenario.dbStarted "top_tracks");
              Routes.winnersJson := ∅;
              Routes.completedAt := None;
              Routes.bs_updatedAt := 1000 |}
           {| round := 0; match_ := 0; a := "h1"; b := "c2" |} "h1").
  - discriminate.
  - vm_compute. reflexivity.
  - vm_compute. reflexivity.
  - left. reflexivity.
Defined.

(** X15. In any store reached from one without brackets by start and vote
    requests, the three tables agree on every started tournament: the slot
    list has [2 ^ k >= 8] pairwise distinct entries, as many as the
    tournament row's [bracketSize]; the identifiers of the tournament's
    track rows are exactly the slots; the status is [completed] when the
    final has a recorded winner and [in_progress] otherwise; and
    [completedAt] is set exactly when the status is [completed]. *)
Theorem served_tables_agree
    (db0 : Routes.Db) (rqs : list Routes.Request) (id : string)
    (bracket : Routes.BracketState) :
  Routes.tournamentBracketState db0 = ∅ →
  Routes.tournamentBracketState (Routes.serve rqs db0) !! id = Some bracket →
  ∃ k t,
    Routes.tournaments (Routes.serve rqs db0) !! id = Some t
    ∧ 3 ≤ k
    ∧ length (Routes.tracksJson bracket) = 2 ^ k
    ∧ Routes.bracketSize t = 2 ^ k
    ∧ NoDup (Routes.tracksJson bracket)
    ∧ map Routes.tr_trackId (rowsOf (Routes.serve rqs db0) id)
      ≡ₚ Routes.tracksJson bracket
    ∧ Routes.status t
      = (if truthy (Routes.winnersJson bracket !! matchKey (Z.of_nat k - 1) 0)
         then "completed" else "in_progress")
    ∧ (is_Some (Routes.completedAt bracket) ↔ Routes.status t = "completed").
Proof.
  intros Hfresh Hb.
  destruct (serve_consistent rqs db0 (consistent_fresh db0 Hfresh) id bracket Hb)
    as (k & t & []).
  exists k, t. repeat (split; [done|]).
  rewrite play_completedAt0, play_status0. unfold recorded.
  by destruct (truthy _).
Qed.

Lemma served_tables_agree_witness :
  ∃ k t,
    Routes.tournaments
      (Routes.serve Scenario.requests (Scenario.dbReady "top_tracks")) !! "t1"
    = Some t
    ∧ 3 ≤ k
    ∧ length (Routes.tracksJson (Scenario.bracketAt Scenario.dbServed)) = 2 ^ k
    ∧ Routes.bracketSize t = 2 ^ k
    ∧ NoDup (Routes.tracksJson (Scenario.bracketAt Scenario.dbServed))
    ∧ map Routes.tr_trackId
        (rowsOf (Routes.serve Scenario.requests (Scenario.dbReady "top_tracks"))
           "t1")
      ≡ₚ Routes.tracksJson (Scenario.bracketAt Scenario.dbServed)
    ∧ Routes.status t
      = (if truthy (Routes.winnersJson (Scenario.bracketAt Scenario.dbServed)
                      !! matchKey (Z.of_nat k - 1) 0)
         then "completed" else "in_progress")
    ∧ (is_Some (Routes.completedAt (Scenario.bracketAt Scenario.dbServed))
       ↔ Routes.status t = "completed").
Proof.
  apply (served_tables_agree (Scenario.dbReady "top_tracks")
           Scenario.requests "t1" (Scenario.bracketAt Scenario.dbServed)).
  - reflexivity.
  - vm_compute. reflexivity.
Defined.

Section Served.

Import Routes.

Variables (db0 : Db) (rqs : list Request).

Hypothesis Hfresh : tournamentBracketState db0 = ∅.

Lemma served_inPlay id bracket :
  tournamentBracketState (serve rqs db0) !! id = Some bracket →
  ∃ k t, inPlay (serve rqs db0) id bracket k t.
Proof. apply serve_consistent, consistent_fresh, Hfresh. Qed.

End Served.

(** X16. In any store reached from one without brackets by start and vote
    requests, every entry of a winners map is filed under the key of a
    match of the bracket, that match is resolvable, and the recorded
    winner is one of its two participants and one of the slots. *)
Theorem served_winners_valid
    (db0 : Routes.Db) (rqs : list Routes.Request) (id : string)
    (bracket : Routes.BracketState) (key w : string) :
  Routes.tournamentBracketState db0 = ∅ →
  Routes.tournamentBracketState (Routes.serve rqs db0) !! id = Some bracket →
  Routes.winnersJson bracket !! key = Some w →
  ∃ k r m pa pb,
    length (Routes.tracksJson bracket) = 2 ^ k
    ∧ r < k ∧ m < matchCount (2 ^ k) r
    ∧ key = matchKey (Z.of_nat r) (Z.of_nat m)
    ∧ resolveMatchParticipants (2 ^ k) (Routes.tracksJson bracket)
        (Routes.winnersJson bracket) (Z.of_nat r) (Z.of_nat m) = Some (pa, pb)
    ∧ (w = pa ∨ w = pb)
    ∧ w ≠ ""
    ∧ w ∈ Routes.tracksJson bracket.
Proof.
  intros Hfresh Hb Hw.
  destruct (served_inPlay db0 rqs Hfresh id bracket Hb) as (k & t & Hinv).
  destruct (play_keys _ _ _ _ _ Hinv key w Hw) as (Hne & r & m & Hin & ->).
  destruct (play_winners _ _ _ _ _ Hinv r m w Hin Hw) as (pa & pb & Hres & Hor).
  destruct (inPlay_participants _ _ _ _ _ _ _ _ _ Hinv Hin Hres) as [Ha Hb'].
  exists k, r, m, pa, pb.
  split; [by destruct Hinv|]. destruct Hin as [Hr Hm].
  repeat (split; [done|]). by destruct Hor as [->| ->].
Qed.

Lemma served_winners_valid_witness :
  ∃ k r m pa pb,
    length (Routes.tracksJson (Scenario.bracketAt Scenario.dbServed)) = 2 ^ k
    ∧ r < k ∧ m < matchCount (2 ^ k) r
    ∧ "r0m0" = matchKey (Z.of_nat r) (Z.of_nat m)
    ∧ resolveMatchParticipants (2 ^ k)
        (Routes.tracksJson (Scenario.bracketAt Scenario.dbServed))
        (Routes.winnersJson (Scenario.bracketAt Scenario.dbServed))
        (Z.of_nat r) (Z.of_nat m) = Some (pa, pb)
    ∧ ("h1" = pa ∨ "h1" = pb)
    ∧ "h1" ≠ ""
    ∧ "h1" ∈ Routes.tracksJson (Scenario.bracketAt Scenario.dbServed).
Proof.
  apply (served_winners_valid (Scenario.dbReady "top_tracks")
           Scenario.requests "t1" (Scenario.bracketAt Scenario.dbServed)).
  - reflexivity.
  - vm_compute. reflexivity.
  - vm_compute. reflexivity.
Defined.

(** X17. In any store reached from one without brackets by start and vote
    requests, the results route answers a started tournament according to
    its status: for a [completed] tournament it returns the ranking of
    [computeRanking] with every identifier replaced by the view of one of
    the tournament's track rows, no entry null, the ranking being a
    rearrangement of the slots; for any other status it answers
    [tournament_not_completed] with status 409. *)
Theorem results_follow_status
    (db0 : Routes.Db) (rqs : list Routes.Request) (id : string)
    (bracket : Routes.BracketState) :
  Routes.tournamentBracketState db0 = ∅ →
  id ≠ "" →
  Routes.tournamentBracketState (Routes.serve rqs db0) !! id = Some bracket →
  ∃ t,
    Routes.tournaments (Routes.serve rqs db0) !! id = Some t
    ∧ if String.eqb (Routes.status t) "completed"
      then ∃ ranking views,
             computeRanking (length (Routes.tracksJson bracket))
               (Routes.tracksJson bracket) (Routes.winnersJson bracket)
             = Ret (Some ranking)
             ∧ Routes.results id (Routes.serve rqs db0) = inr (map Some views)
             ∧ map Routes.tv_trackId views = ranking
             ∧ ranking ≡ₚ Routes.tracksJson bracket
             ∧ (∀ v, v ∈ views →
                  ∃ r, r ∈ rowsOf (Routes.serve rqs db0) id
                       ∧ v = Routes.viewOf r)
      else Routes.results id (Routes.serve rqs db0)
           = inl (Routes.Error "tournament_not_completed" 409).
Proof.
  intros Hfresh Hid Hb.
  destruct (served_inPlay db0 rqs Hfresh id bracket Hb) as (k & t & Hinv).
  exists t. split; [by destruct Hinv|]. by eapply inPlay_results.
Qed.

Lemma results_follow_status_witness :
  ∃ t,
    Routes.tournaments
      (Routes.serve Scenario.fullRun (Scenario.dbReady "top_tracks")) !! "t1"
    = Some t
    ∧ if String.eqb (Routes.status t) "completed"
      then ∃ ranking views,
             computeRanking
               (length (Routes.tracksJson (Scenario.bracketAt Scenario.dbCompleted)))
               (Routes.tracksJson (Scenario.bracketAt Scenario.dbCompleted))
               (Routes.winnersJson (Scenario.bracketAt Scenario.dbCompleted))
             = Ret (Some ranking)
             ∧ Routes.results "t1"
                 (Routes.serve Scenario.fullRun (Scenario.dbReady "top_tracks"))
               = inr (map Some views)
             ∧ map Routes.tv_trackId views = ranking
             ∧ ranking
               ≡ₚ Routes.tracksJson (Scenario.bracketAt Scenario.dbCompleted)
             ∧ (∀ v, v ∈ views →
                  ∃ r, r ∈ rowsOf
                             (Routes.serve Scenario.fullRun
                                (Scenario.dbReady "top_tracks")) "t1"
                       ∧ v = Routes.viewOf r)
      else Routes.results "t1"
             (Routes.serve Scenario.fullRun (Scenario.dbReady "top_tracks"))
           = inl (Routes.Error "tournament_not_completed" 409).
Proof.
  apply (results_follow_status (Scenario.dbReady "top_tracks")
           Scenario.fullRun "t1" (Scenario.bracketAt Scenario.dbCompleted)).
  - reflexivity.
  - discriminate.
  - vm_compute. reflexivity.
Defined.

(** X18. In any store reached from one without brackets by start and vote
    requests, the state route answers a started tournament with a bracket
    view, never with an error.  If the view proposes a next match, the
    tournament is [in_progress] with no champion and no completion stamp,
    both participants are shown with their track rows (neither is null),
    and a vote for either on that round and match succeeds.  If it
    proposes none and every slot holds an identifier, the tournament is
    [completed] with a champion and a completion stamp. *)
Theorem state_follows_play
    (db0 : Routes.Db) (rqs : list Routes.Request) (env : Routes.Env)
    (id : string) (bracket : Routes.BracketState) :
  Routes.tournamentBracketState db0 = ∅ →
  id ≠ "" →
  Routes.tournamentBracketState (Routes.serve rqs db0) !! id = Some bracket →
  ∃ tournament view,
    Routes.state id (Routes.serve rqs db0)
    = inr (Routes.InPlay tournament view)
    ∧ Routes.tnv_bracketSize tournament = Routes.bv_size view
    ∧ Routes.bv_size view = length (Routes.tracksJson bracket)
    ∧ Routes.bv_tracks view = Routes.tracksJson bracket
    ∧ Routes.bv_winners view = Routes.winnersJson bracket
    ∧ match Routes.bv_nextMatch view with
      | Some nm =>
          Routes.tnv_status tournament = "in_progress"
          ∧ Routes.bv_winnerTrackId view = None
          ∧ Routes.bv_completedAt view = None
          ∧ ∃ va vb,
              Routes.nm_a nm = Some va ∧ Routes.nm_b nm = Some vb
              ∧ Routes.tv_trackId va ∈ Routes.tracksJson bracket
              ∧ Routes.tv_trackId vb ∈ Routes.tracksJson bracket
              ∧ ∀ w, w = Routes.tv_trackId va ∨ w = Routes.tv_trackId vb →
                  ∃ fw db',
                    Routes.vote env id
                      {| Routes.vb_round := Routes.nm_round nm;
                         Routes.vb_match := Routes.nm_match nm;
                         Routes.vb_winnerTrackId := w |}
                      (Routes.serve rqs db0)
                    = (Routes.Voted fw, db')
      | None =>
          Forall (λ x, x ≠ "") (Routes.tracksJson bracket) →
          Routes.tnv_status tournament = "completed"
          ∧ is_Some (Routes.bv_winnerTrackId view)
          ∧ is_Some (Routes.bv_completedAt view)
      end.
Proof.
  intros Hfresh Hid Hb.
  destruct (served_inPlay db0 rqs Hfresh id bracket Hb) as (k & t & Hinv).
  by eapply inPlay_state.
Qed.

Lemma state_follows_play_witness :
  ∃ tournament view,
    Routes.state "t1"
      (Routes.serve Scenario.requests (Scenario.dbReady "top_tracks"))
    = inr (Routes.InPlay tournament view)
    ∧ Routes.tnv_bracketSize tournament = Routes.bv_size view
    ∧ Routes.bv_size view
      = length (Routes.tracksJson (Scenario.bracketAt Scenario.dbServed))
    ∧ Routes.bv_tracks view
      = Routes.tracksJson (Scenario.bracketAt Scenario.dbServed)
    ∧ Routes.bv_winners view
      = Routes.winnersJson (Scenario.bracketAt Scenario.dbServed)
    ∧ match Routes.bv_nextMatch view with
      | Some nm =>
          Routes.tnv_status tournament = "in_progress"
          ∧ Routes.bv_winnerTrackId view = None
          ∧ Routes.bv_completedAt view = None
          ∧ ∃ va vb,
              Routes.nm_a nm = Some va ∧ Routes.nm_b nm = Some vb
              ∧ Routes.tv_trackId va
                ∈ Routes.tracksJson (Scenario.bracketAt Scenario.dbServed)
              ∧ Routes.tv_trackId vb
                ∈ Routes.tracksJson (Scenario.bracketAt Scenario.dbServed)
              ∧ ∀ w, w = Routes.tv_trackId va ∨ w = Routes.tv_trackId vb →
                  ∃ fw db',
                    Routes.vote Scenario.env "t1"
                      {| Routes.vb_round := Routes.nm_round nm;
                         Routes.vb_match := Routes.nm_match nm;
                         Routes.vb_winnerTrackId := w |}
                      (Routes.serve Scenario.requests
                         (Scenario.dbReady "top_tracks"))
                    = (Routes.Voted fw, db')
      | None =>
          Forall (λ x, x ≠ "")
            (Routes.tracksJson (Scenario.bracketAt Scenario.dbServed)) →
          Routes.tnv_status tournament = "completed"
          ∧ is_Some (Routes.bv_winnerTrackId view)
          ∧ is_Some (Routes.bv_completedAt view)
      end.
Proof.
  apply (state_follows_play (Scenario.dbReady "top_tracks") Scenario.requests
           Scenario.env "t1" (Scenario.bracketAt Scenario.dbServed)).
  - reflexivity.
  - discriminate.
  - vm_compute. reflexivity.
Defined.

Example fullRun_completes :
  Scenario.statusOf Scenario.dbCompleted = "completed"
  ∧ size (Scenario.winnersOf Scenario.dbCompleted) = 15
  ∧ length Scenario.fullRun = 16.
Proof. vm_compute. done. Qed.

(** X19. In any store reached from one without brackets by start and vote
    requests, a successful vote announces a champion exactly when it is
    the vote on the final: then the response carries the submitted winner
    and the tournament becomes [completed]; for every other match the
    response carries no champion and the tournament stays
    [in_progress]. *)
Theorem vote_announces_champion
    (db0 : Routes.Db) (rqs : list Routes.Request) (env : Routes.Env)
    (id : string) (body : Routes.VoteBody) (fw : option string)
    (db' : Routes.Db) :
  Routes.tournamentBracketState db0 = ∅ →
  Routes.vote env id body (Routes.serve rqs db0) = (Routes.Voted fw, db') →
  ∃ k bracket t',
    Routes.tournamentBracketState (Routes.serve rqs db0) !! id = Some bracket
    ∧ length (Routes.tracksJson bracket) = 2 ^ k
    ∧ Routes.tournaments db' !! id = Some t'
    ∧ if (Routes.vb_round body =? Z.of_nat k - 1)%Z
      then Routes.vb_match body = 0%Z
           ∧ fw = Some (Routes.vb_winnerTrackId body)
           ∧ Routes.status t' = "completed"
      else fw = None ∧ Routes.status t' = "in_progress".
Proof.
  intros Hfresh Hvote.
  pose proof (serve_consistent rqs db0 (consistent_fresh db0 Hfresh)) as Hdb.
  pose proof (vote_consistent env id body _ Hdb) as Hdb'.
  rewrite Hvote in Hdb'. cbn [snd] in Hdb'.
  apply vote_Voted_full in Hvote
    as (bracket & rounds & pa & pb & Hid & Hschema & Hb & Hr & Hround
        & Hmatch & Hfree & Hres & Hwin & Hfw & Hdb'eq).
  destruct (Hdb id bracket Hb) as (k & t & Hinv).
  pose proof (play_length _ _ _ _ _ Hinv) as Hlen.
  pose proof (play_rounds _ _ _ _ _ Hinv) as Hk.
  rewrite Hlen in Hr, Hmatch. rewrite totalRounds_pow2 in Hr.
  injection Hr as <-.
  unfold Routes.bodySchema in Hschema.
  apply andb_true_iff in Hschema as [Hschema Hw].
  apply andb_true_iff in Hschema as [Hr0 Hm0].
  apply Z.leb_le in Hr0, Hm0. apply negb_true_iff, String.eqb_neq in Hw.
  assert (∃ bracket',
            Routes.tournamentBracketState db' !! id = Some bracket'
            ∧ Routes.tracksJson bracket' = Routes.tracksJson bracket
            ∧ Routes.winnersJson bracket' !! matchKey (Z.of_nat k - 1) 0 = fw)
    as (bracket' & Hb' & Htracks & Hfinal').
  { rewrite Hdb'eq. cbn. eexists. rewrite lookup_insert_eq.
    split; [done|]. split; [done|]. cbn. by rewrite Hfw. }
  destruct (Hdb' id bracket' Hb') as (k' & t' & Hinv').
  assert (k' = k) as ->.
  { pose proof (play_length _ _ _ _ _ Hinv') as Hlen'.
    rewrite Htracks, Hlen in Hlen'.
    by apply (Nat.pow_inj_r 2) in Hlen'; [|lia]. }
  exists k, bracket, t'. split; [done|]. split; [done|].
  split; [by destruct Hinv'|].
  rewrite (play_status _ _ _ _ _ Hinv'), Hfinal'.
  destruct (Z.eqb_spec (Routes.vb_round body) (Z.of_nat k - 1)) as [Heq|Hne].
  - assert (Routes.vb_match body = 0%Z) as Hm.
    { replace (Z.to_nat (Routes.vb_round body)) with (k - 1) in Hmatch by lia.
      rewrite matchCount_final in Hmatch by lia. lia. }
    split; [done|]. rewrite Hfw, Heq, Hm, lookup_insert_eq.
    split; [done|]. by rewrite (proj2 (truthy_Some _) Hw).
  - assert (matchKey (Routes.vb_round body) (Routes.vb_match body)
            ≠ matchKey (Z.of_nat k - 1) 0) as Hkey.
    { intros [? _]%matchKey_inj. done. }
    rewrite lookup_insert_ne in Hfw by done.
    destruct (Routes.winnersJson bracket !! matchKey (Z.of_nat k - 1) 0)
      as [x|] eqn:Hx; [|by subst fw].
    destruct (play_keys _ _ _ _ _ Hinv _ x Hx) as [Hxne _].
    assert (fullyDecided (2 ^ k) k (Routes.winnersJson bracket)) as Hall.
    { apply feederClosed_all_recorded; [lia|by destruct Hinv|].
      unfold recorded. rewrite Hx. by apply truthy_Some. }
    assert (recorded (Routes.winnersJson bracket)
              (Z.of_nat (Z.to_nat (Routes.vb_round body)))
              (Z.of_nat (Z.to_nat (Routes.vb_match body)))) as Hrec.
    { apply Hall. split; lia. }
    rewrite !Z2Nat.id in Hrec by done. unfold recorded in Hrec. congruence.
Qed.

Lemma vote_announces_champion_witness :
  ∃ k bracket t',
    Routes.tournamentBracketState
      (Routes.serve [Routes.StartRequest Scenario.env "t1"]
         (Scenario.dbReady "top_tracks")) !! "t1" = Some bracket
    ∧ length (Routes.tracksJson bracket) = 2 ^ k
    ∧ Routes.tournaments (Scenario.dbVoted "top_tracks") !! "t1" = Some t'
    ∧ if (Routes.vb_round (Scenario.firstVote "top_tracks") =? Z.of_nat k - 1)%Z
      then Routes.vb_match (Scenario.firstVote "top_tracks") = 0%Z
           ∧ None = Some (Routes.vb_winnerTrackId
                            (Scenario.firstVote "top_tracks"))
           ∧ Routes.status t' = "completed"
      else @None string = None ∧ Routes.status t' = "in_progress".
Proof.
  apply (vote_announces_champion (Scenario.dbReady "top_tracks")
           [Routes.StartRequest Scenario.env "t1"] Scenario.env "t1"
           (Scenario.firstVote "top_tracks") None
           (Scenario.dbVoted "top_tracks")).
  - reflexivity.
  - vm_compute. reflexivity.
Defined.

(** ** The layout of a duel bracket *)

Lemma interleave_lookup hostIds challengerIds perUser i :
  i < perUser →
  Routes.interleave hostIds challengerIds perUser !! (2 * i)
  = Some (default "" (hostIds !! i))
  ∧ Routes.interleave hostIds challengerIds perUser !! (2 * i + 1)
    = Some (default "" (challengerIds !! i)).
Proof.
  unfold Routes.interleave.
  assert (∀ n s j, j < n →
            flat_map (λ i, [default "" (hostIds !! i);
                            default "" (challengerIds !! i)]) (seq s n)
              !! (2 * j) = Some (default "" (hostIds !! (s + j)))
            ∧ flat_map (λ i, [default "" (hostIds !! i);
                              default "" (challengerIds !! i)]) (seq s n)
                !! (2 * j + 1) = Some (default "" (challengerIds !! (s + j))))
    as Hgen.
  { induction n as [|n IH]; intros s j Hj; [lia|].
    cbn [seq flat_map]. destruct j as [|j].
    - rewrite Nat.add_0_r. done.
    - replace (2 * S j) with (S (S (2 * j))) by lia.
      replace (S (S (2 * j)) + 1) with (S (S (2 * j + 1))) by lia.
      cbn [app lookup list_lookup].
      replace (s + S j) with (S s + j) by lia. apply IH. lia. }
  intros Hi. apply (Hgen perUser 0 i Hi).
Qed.

(** X20. Without mesh mode the slots of a duel alternate between the two
    players: slot [2m] holds a host track and slot [2m + 1] a challenger
    track, so every first-round match pits a track of the host against a
    track of the challenger. *)
Theorem bracketOf_alternates
    (t : Routes.Tournament) (perUser : nat)
    (hostTracks challengerTracks : list Sizing.RankedTrack)
    (winners : gmap string string) (m : nat) :
  Routes.meshMode t = 0%Z →
  length hostTracks = perUser → length challengerTracks = perUser →
  m < perUser →
  ∃ h c,
    Routes.bracketOf t perUser hostTracks challengerTracks !! (2 * m) = Some h
    ∧ Routes.bracketOf t perUser hostTracks challengerTracks !! (2 * m + 1)
      = Some c
    ∧ h ∈ map Sizing.trk_id hostTracks
    ∧ c ∈ map Sizing.trk_id challengerTracks
    ∧ (h ≠ "" → c ≠ "" →
       resolveMatchParticipants (2 * perUser)
         (Routes.bracketOf t perUser hostTracks challengerTracks) winners
         0 (Z.of_nat m) = Some (h, c)).
Proof.
  intros Hmesh Hh Hc Hm.
  pose proof (bracketOf_length t perUser hostTracks challengerTracks Hh Hc)
    as Hlen.
  unfold Routes.bracketOf in *. rewrite Hmesh in *.
  change (0 =? 0)%Z with true in *. cbv iota in *.
  set (hostIds := Shuffle.shuffled (map Sizing.trk_id hostTracks) _) in *.
  set (challengerIds :=
         Shuffle.shuffled (map Sizing.trk_id challengerTracks) _) in *.
  destruct (interleave_lookup hostIds challengerIds perUser m Hm) as [He Ho].
  destruct (lookup_lt_is_Some_2 hostIds m) as [h Hhm].
  { subst hostIds. rewrite shuffled_length, length_map. lia. }
  destruct (lookup_lt_is_Some_2 challengerIds m) as [c Hcm].
  { subst challengerIds. rewrite shuffled_length, length_map. lia. }
  rewrite Hhm in He. rewrite Hcm in Ho. simpl in He, Ho.
  exists h, c. split; [done|]. split; [done|].
  split.
  { apply list_elem_of_lookup_2 in Hhm. subst hostIds.
    by rewrite shuffled_perm in Hhm. }
  split.
  { apply list_elem_of_lookup_2 in Hcm. subst challengerIds.
    by rewrite shuffled_perm in Hcm. }
  intros Hhne Hcne. apply resolve_round0; [done|].
  replace (Z.of_nat m * 2)%Z with (Z.of_nat (2 * m)) by lia.
  replace (Z.of_nat (2 * m) + 1)%Z with (Z.of_nat (2 * m + 1)) by lia.
  by rewrite !index_nat.
Qed.

Lemma bracketOf_alternates_witness :
  ∃ h c,
    Routes.bracketOf (Scenario.duel "top_tracks" "ready") 8
      (take 8 Scenario.hostC) (take 8 Scenario.challengerC) !! (2 * 3) = Some h
    ∧ Routes.bracketOf (Scenario.duel "top_tracks" "ready") 8
        (take 8 Scenario.hostC) (take 8 Scenario.challengerC) !! (2 * 3 + 1)
      = Some c
    ∧ h ∈ map Sizing.trk_id (take 8 Scenario.hostC)
    ∧ c ∈ map Sizing.trk_id (take 8 Scenario.challengerC)
    ∧ (h ≠ "" → c ≠ "" →
       resolveMatchParticipants (2 * 8)
         (Routes.bracketOf (Scenario.duel "top_tracks" "ready") 8
            (take 8 Scenario.hostC) (take 8 Scenario.challengerC)) ∅
         0 (Z.of_nat 3) = Some (h, c)).
Proof.
  apply (bracketOf_alternates (Scenario.duel "top_tracks" "ready") 8
           (take 8 Scenario.hostC) (take 8 Scenario.challengerC) ∅ 3).
  - reflexivity.
  - reflexivity.
  - reflexivity.
  - lia.
Defined.

(** ** What the start route writes *)

Section StartEffects.

Import Sizing Routes.

(** Every run of the start route either writes nothing, or ends in the
    writes of [materialize] for a duplicate-free slot list of [2 ^ k >= 8]
    entries, no more than the configured size, with one row per slot. *)
Lemma start_cases env id db resp db' :
  start env id db = (resp, db') →
  (db' = db
   ∧ (resp = Ok →
      ∃ t, tournaments db !! id = Some t ∧ startedAlready t = true
           ∧ (sourceType t = "playlist" ∨ sourceType t = "playlist_vs")))
  ∨ (resp = Ok
     ∧ ∃ t rows bracketTracks k,
         tournaments db !! id = Some t
         ∧ db' = materialize id rows bracketTracks (2 ^ k) (nowMs env) db
         ∧ 3 ≤ k ∧ length bracketTracks = 2 ^ k ∧ 2 ^ k ≤ bracketSize t
         ∧ NoDup bracketTracks
         ∧ Forall (λ r, tr_tournamentId r = id) rows
         ∧ map tr_trackId rows ≡ₚ bracketTracks
         ∧ ∀ x, x ∈ bracketTracks →
             ∃ user arg,
               x ∈ map trk_id (fetchPlaylistTracks env user arg)
               ∨ x ∈ map trk_id (fetchUserTopTracks env user arg)).
Proof.
  unfold start.
  destruct (String.eqb id ""); [intros [= <- <-]; by left|].
  destruct (tournaments db !! id) as [t|] eqn:Ht; [|intros [= <- <-]; by left].
  destruct (String.eqb_spec (sourceType t) "playlist") as [Hsrc|Hsrc].
  - destruct (negb (truthy (hostUserId t))); [intros [= <- <-]; by left|].
    destruct (startedAlready t) eqn:Hstarted.
    { intros [= <- <-]. left. split; [done|]. intros _. exists t. auto. }
    destruct (negb (truthy (hostPlaylistId t))); [intros [= <- <-]; by left|].
    set (unique := uniqueById _).
    destruct (floorPow2 (bracketSize t `min` length unique) <? 8) eqn:Hlow;
      [intros [= <- <-]; by left|].
    apply Nat.ltb_ge in Hlow. intros [= <- <-]. right. split; [done|].
    destruct (floorPow2_pow2 (bracketSize t `min` length unique) ltac:(lia))
      as (j & Hj & Hle).
    assert (NoDup (map trk_id unique)
            ∧ unique `sublist_of`
                fetchPlaylistTracks env (default "" (hostUserId t))
                  (default "" (hostPlaylistId t))) as [Hnd Hsub].
    { subst unique. unfold uniqueById.
      destruct (uniqueByIdFrom_props
                  (fetchPlaylistTracks env (default "" (hostUserId t))
                     (default "" (hostPlaylistId t))) ∅ [])
        as (kept & -> & Hsub & Hnd & _). done. }
    eexists t, _, _, j. rewrite <- Hj. split; [done|]. split; [reflexivity|].
    split; [destruct j as [|[|[|j]]]; cbn in Hj; lia|].
    split; [rewrite shuffled_length, length_map, length_take; lia|].
    split; [lia|]. split.
    { rewrite shuffled_perm. eapply sublist_NoDup; [exact Hnd|].
      apply (fmap_sublist trk_id), sublist_take. }
    split; [apply trackRows_owner|].
    split; [by rewrite trackRows_ids, shuffled_perm|].
    intros x Hx. rewrite shuffled_perm in Hx. eexists _, _. left.
    eapply (sublist_subseteq _ _ (fmap_sublist trk_id _ _ Hsub)).
    eapply (sublist_subseteq _ _ (fmap_sublist trk_id _ _ (sublist_take _ _))).
    exact Hx.
  - destruct (requireUser env) as [user|]; [|intros [= <- <-]; by left].
    destruct (negb (truthy (hostUserId t))); [intros [= <- <-]; by left|].
    destruct (_ && _); [intros [= <- <-]; by left|].
    assert (∀ host challenger perUser hostTracks challengerTracks
              hostCandidates challengerCandidates,
              sizingLoop hostCandidates challengerCandidates (bracketSize t / 2)
              = Selected perUser hostTracks challengerTracks →
              (∀ x, x ∈ map trk_id (hostCandidates ++ challengerCandidates) →
                 ∃ user arg,
                   x ∈ map trk_id (fetchPlaylistTracks env user arg)
                   ∨ x ∈ map trk_id (fetchUserTopTracks env user arg)) →
              ∃ rows bracketTracks k,
                materialize id
                  (trackRows id host hostTracks
                   ++ trackRows id challenger challengerTracks)
                  (bracketOf t perUser hostTracks challengerTracks)
                  (perUser * 2) (nowMs env) db
                = materialize id rows bracketTracks (2 ^ k) (nowMs env) db
                ∧ 3 ≤ k ∧ length bracketTracks = 2 ^ k
                ∧ 2 ^ k ≤ bracketSize t
                ∧ NoDup bracketTracks
                ∧ Forall (λ r, tr_tournamentId r = id) rows
                ∧ map tr_trackId rows ≡ₚ bracketTracks
                ∧ ∀ x, x ∈ bracketTracks →
                    ∃ user arg,
                      x ∈ map trk_id (fetchPlaylistTracks env user arg)
                      ∨ x ∈ map trk_id (fetchUserTopTracks env user arg))
      as Hdual.
    { intros host challenger perUser hostTracks challengerTracks
        hostCandidates challengerCandidates Hsized Hfrom.
      destruct (sizingLoop_Selected _ _ _ _ _ _ Hsized) as ([j ->] & Hh & Hc).
      destruct (sizingLoop_Selected_props _ _ _ _ _ _ Hsized)
        as (Hle & Hfour & Hhs & Hcs & Hnd).
      eexists _, _, (S j).
      split; [by rewrite Nat.pow_succ_r', Nat.mul_comm|].
      split; [destruct j as [|[|j]]; cbn in Hfour; lia|].
      split; [rewrite bracketOf_length by done; by rewrite Nat.pow_succ_r'|].
      split.
      { rewrite Nat.pow_succ_r'.
        pose proof (Nat.Div0.mul_div_le (bracketSize t) 2). lia. }
      split; [by rewrite bracketOf_perm|].
      split; [apply Forall_app; split; apply trackRows_owner|].
      split.
      { rewrite map_app, !trackRows_ids, bracketOf_perm by done.
        by rewrite map_app. }
      intros x Hx. rewrite bracketOf_perm in Hx by done. apply Hfrom.
      eapply (sublist_subseteq _ _
                (fmap_sublist trk_id _ _ (sublist_app _ _ _ _ Hhs Hcs))).
      exact Hx. }
    destruct (String.eqb_spec (sourceType t) "playlist_vs") as [Hvs|Hvs].
    + destruct (startedAlready t) eqn:Hstarted.
      { intros [= <- <-]. left. split; [done|]. intros _. exists t. auto. }
      destruct (_ || _); [intros [= <- <-]; by left|].
      destruct (_ || _); [intros [= <- <-]; by left|].
      destruct (sizingLoop _ _ _) as [|perUser hostTracks challengerTracks]
        eqn:Hsized; [intros [= <- <-]; by left|].
      destruct (perUser * 2 <? 8); [intros [= <- <-]; by left|].
      intros [= <- <-]. right. split; [done|].
      destruct (Hdual (default "" (hostUserId t))
                  (default "" (challengerUserId t)) _ _ _ _ _ Hsized)
        as (rows & bt & k & -> & ?).
      { intros x Hx. rewrite map_app in Hx.
        apply elem_of_app in Hx as [Hx|Hx]; eexists _, _; left.
        - eapply (sublist_subseteq _ _
                    (fmap_sublist trk_id _ _ (uniqueById_sublist _))), Hx.
        - eapply (sublist_subseteq _ _
                    (fmap_sublist trk_id _ _ (uniqueById_sublist _))), Hx. }
      by exists t, rows, bt, k.
    + destruct (negb (truthy (challengerUserId t)));
        [intros [= <- <-]; by left|].
      destruct (sizingLoop _ _ _) as [|perUser hostTracks challengerTracks]
        eqn:Hsized; [intros [= <- <-]; by left|].
      intros [= <- <-]. right. split; [done|].
      destruct (Hdual (default "" (hostUserId t))
                  (default "" (challengerUserId t)) _ _ _ _ _ Hsized)
        as (rows & bt & k & -> & ?).
      { intros x Hx. rewrite map_app in Hx.
        apply elem_of_app in Hx as [Hx|Hx]; eexists _, _; by right. }
      by exists t, rows, bt, k.
Qed.

End StartEffects.

(** X21. The start route writes all or nothing.  Any answer other than
    [{ ok: true }] leaves the store as it was.  On [{ ok: true }] either
    nothing is written (a playlist or playlist-vs tournament already in
    progress or completed), or the tournament has a fresh bracket: an
    empty winners map, no completion stamp, status [in_progress], a slot
    list of [2 ^ k >= 8] pairwise distinct identifiers, no more than the
    size configured before, which becomes the stored [bracketSize], and
    exactly one track row per slot; every other tournament, its bracket
    and its track rows are untouched. *)
Theorem start_all_or_nothing
    (env : Routes.Env) (id : string) (db : Routes.Db)
    (resp : Routes.Response) (db' : Routes.Db) :
  Routes.start env id db = (resp, db') →
  (resp ≠ Routes.Ok → db' = db)
  ∧ (resp = Routes.Ok →
     ∃ t,
       Routes.tournaments db !! id = Some t
       ∧ ((db' = db ∧ Routes.startedAlready t = true
           ∧ (Routes.sourceType t = "playlist"
              ∨ Routes.sourceType t = "playlist_vs"))
          ∨ ∃ t' bracket k,
              Routes.tournaments db' !! id = Some t'
              ∧ Routes.tournamentBracketState db' !! id = Some bracket
              ∧ Routes.winnersJson bracket = ∅
              ∧ Routes.completedAt bracket = None
              ∧ Routes.status t' = "in_progress"
              ∧ 3 ≤ k
              ∧ length (Routes.tracksJson bracket) = 2 ^ k
              ∧ Routes.bracketSize t' = 2 ^ k
              ∧ 2 ^ k ≤ Routes.bracketSize t
              ∧ NoDup (Routes.tracksJson bracket)
              ∧ map Routes.tr_trackId (rowsOf db' id)
                ≡ₚ Routes.tracksJson bracket
              ∧ ∀ other, other ≠ id →
                  Routes.tournaments db' !! other
                  = Routes.tournaments db !! other
                  ∧ Routes.tournamentBracketState db' !! other
                    = Routes.tournamentBracketState db !! other
                  ∧ rowsOf db' other = rowsOf db other)).
Proof.
  intros Hstart.
  apply start_cases in Hstart
    as [[-> Hok]|(-> & t & rows & bt & k & Ht & -> & Hk & Hlen & Hle & Hnd
                  & Hrows & Hperm & _)].
  - split; [done|]. intros Hresp.
    destruct (Hok Hresp) as (t & Ht & Hstarted & Hsrc).
    exists t. split; [done|]. by left.
  - split; [done|]. intros _. exists t. split; [done|]. right.
    eexists _, _, k.
    split; [cbn; unfold Routes.setStatus; by rewrite lookup_alter_eq, Ht|].
    split; [cbn; apply lookup_insert_eq|].
    do 8 (split; [done|]).
    split; [rewrite rowsOf_materialize by done; by rewrite decide_True|].
    intros other Hother.
    split; [cbn; unfold Routes.setStatus; by rewrite lookup_alter_ne|].
    split; [cbn; by rewrite lookup_insert_ne|].
    rewrite rowsOf_materialize by done. by rewrite decide_False.
Qed.

Lemma start_all_or_nothing_witness :
  (Routes.Ok ≠ Routes.Ok → Scenario.dbStarted "top_tracks"
                           = Scenario.dbReady "top_tracks")
  ∧ (Routes.Ok = Routes.Ok →
     ∃ t,
       Routes.tournaments (Scenario.dbReady "top_tracks") !! "t1" = Some t
       ∧ ((Scenario.dbStarted "top_tracks" = Scenario.dbReady "top_tracks"
           ∧ Routes.startedAlready t = true
           ∧ (Routes.sourceType t = "playlist"
              ∨ Routes.sourceType t = "playlist_vs"))
          ∨ ∃ t' bracket k,
              Routes.tournaments (Scenario.dbStarted "top_tracks") !! "t1"
              = Some t'
              ∧ Routes.tournamentBracketState (Scenario.dbStarted "top_tracks")
                  !! "t1" = Some bracket
              ∧ Routes.winnersJson bracket = ∅
              ∧ Routes.completedAt bracket = None
              ∧ Routes.status t' = "in_progress"
              ∧ 3 ≤ k
              ∧ length (Routes.tracksJson bracket) = 2 ^ k
              ∧ Routes.bracketSize t' = 2 ^ k
              ∧ 2 ^ k ≤ Routes.bracketSize t
              ∧ NoDup (Routes.tracksJson bracket)
              ∧ map Routes.tr_trackId (rowsOf (Scenario.dbStarted "top_tracks")
                                         "t1")
                ≡ₚ Routes.tracksJson bracket
              ∧ ∀ other, other ≠ "t1" →
                  Routes.tournaments (Scenario.dbStarted "top_tracks") !! other
                  = Routes.tournaments (Scenario.dbReady "top_tracks") !! other
                  ∧ Routes.tournamentBracketState
                      (Scenario.dbStarted "top_tracks") !! other
                    = Routes.tournamentBracketState
                        (Scenario.dbReady "top_tracks") !! other
                  ∧ rowsOf (Scenario.dbStarted "top_tracks") other
                    = rowsOf (Scenario.dbReady "top_tracks") other)).
Proof.
  apply (start_all_or_nothing Scenario.env "t1" (Scenario.dbReady "top_tracks")
           Routes.Ok (Scenario.dbStarted "top_tracks")).
  vm_compute. reflexivity.
Defined.

(** ** Counting votes *)

Section Counting.

Import Routes.

Lemma elem_of_matchKeys size rounds key :
  key ∈ matchKeys size rounds
  ↔ ∃ r m, inBracket size rounds r m
           ∧ key = matchKey (Z.of_nat r) (Z.of_nat m).
Proof.
  unfold matchKeys. rewrite list_elem_of_In, in_flat_map. split.
  - intros (r & Hr & Hkey).
    apply list_elem_of_In, elem_of_seq in Hr.
    apply list_elem_of_In, list_elem_of_fmap in Hkey as (m & -> & Hm).
    apply elem_of_seq in Hm. exists r, m. split; [split; lia|done].
  - intros (r & m & [Hr Hm] & ->). exists r. split.
    + apply list_elem_of_In, elem_of_seq. lia.
    + apply list_elem_of_In, list_elem_of_fmap. exists m.
      split; [done|]. apply elem_of_seq. lia.
Qed.

Lemma matchKeys_length size rounds :
  length (matchKeys size rounds)
  = sum_list_with (matchCount size) (seq 0 rounds).
Proof.
  unfold matchKeys. generalize (seq 0 rounds). intros rs.
  induction rs as [|r rs IH]; [done|].
  cbn [flat_map sum_list_with].
  by rewrite length_app, length_map, length_seq, IH.
Qed.

Lemma matchKeys_NoDup size rounds : NoDup (matchKeys size rounds).
Proof.
  unfold matchKeys.
  assert (∀ rs, NoDup rs →
            NoDup (flat_map (λ r, map (λ m, matchKey (Z.of_nat r) (Z.of_nat m))
                                     (seq 0 (matchCount size r))) rs)) as Hgen.
  { induction rs as [|r rs IH]; intros Hnd; [constructor|].
    apply NoDup_cons in Hnd as [Hr Hnd]. cbn [flat_map].
    apply NoDup_app. split; [|split; [|by apply IH]].
    - apply (NoDup_fmap_2_strong
               (λ m, matchKey (Z.of_nat r) (Z.of_nat m))); [|apply NoDup_seq].
      intros m1 m2 _ _ Heq. by apply matchKey_inj_nat in Heq as [_ ?].
    - intros key Hkey Hrest.
      apply list_elem_of_fmap in Hkey as (m & -> & _).
      apply list_elem_of_In, in_flat_map in Hrest as (r' & Hr' & Hkey').
      apply list_elem_of_In, list_elem_of_fmap in Hkey' as (m' & Heq & _).
      apply matchKey_inj_nat in Heq as [-> _].
      by apply list_elem_of_In in Hr'. }
  apply Hgen, NoDup_seq.
Qed.

Lemma wellKeyed_dom size rounds (winners : gmap string string) :
  wellKeyed size rounds winners →
  dom winners ⊆ (list_to_set (matchKeys size rounds) : gset string).
Proof.
  intros Hkeys key [w Hw]%elem_of_dom.
  destruct (Hkeys key w Hw) as (_ & r & m & Hin & ->).
  apply elem_of_list_to_set, elem_of_matchKeys. by exists r, m.
Qed.

Lemma wellKeyed_size k (winners : gmap string string) :
  wellKeyed (2 ^ k) k winners → size winners < 2 ^ k.
Proof.
  intros Hkeys. rewrite <- size_dom.
  pose proof (subseteq_size _ _ (wellKeyed_dom _ _ _ Hkeys)) as Hle.
  rewrite size_list_to_set in Hle by apply matchKeys_NoDup.
  rewrite matchKeys_length in Hle. pose proof (matchCount_sum k). lia.
Qed.

Lemma full_iff_champion k (winners : gmap string string) :
  1 ≤ k → wellKeyed (2 ^ k) k winners → feederClosed (2 ^ k) k winners →
  S (size winners) = 2 ^ k ↔ recorded winners (Z.of_nat k - 1) 0.
Proof.
  intros Hk Hkeys Hclosed.
  pose proof (wellKeyed_dom _ _ _ Hkeys) as Hsub.
  pose proof (matchCount_sum k) as Hsum.
  assert (size (list_to_set (matchKeys (2 ^ k) k) : gset string) + 1 = 2 ^ k)
    as Hall.
  { rewrite size_list_to_set by apply matchKeys_NoDup.
    by rewrite matchKeys_length. }
  assert (inBracket (2 ^ k) k (k - 1) 0) as Hfinal.
  { split; [lia|]. rewrite matchCount_final by done. lia. }
  split.
  - intros Hsize. rewrite <- size_dom in Hsize.
    apply set_subseteq_size_eq in Hsub; [|lia].
    assert (matchKey (Z.of_nat (k - 1)) (Z.of_nat 0) ∈ dom winners) as Hin.
    { rewrite Hsub. apply elem_of_list_to_set, elem_of_matchKeys.
      by exists (k - 1), 0. }
    apply elem_of_dom in Hin as [w Hw].
    destruct (Hkeys _ w Hw) as [Hne _].
    replace (Z.of_nat (k - 1)) with (Z.of_nat k - 1)%Z in Hw by lia.
    change (Z.of_nat 0) with 0%Z in Hw.
    unfold recorded. rewrite Hw. by apply truthy_Some.
  - intros Hrec.
    pose proof (feederClosed_all_recorded k winners Hk Hclosed Hrec) as Hfull.
    assert ((list_to_set (matchKeys (2 ^ k) k) : gset string) ⊆ dom winners)
      as Hsup.
    { intros key (r & m & Hin & ->)%elem_of_list_to_set%elem_of_matchKeys.
      pose proof (Hfull r m Hin) as Hrm.
      apply truthy_spec in Hrm as (w & Hw & _).
      apply elem_of_dom. by exists w. }
    apply subseteq_size in Hsup, Hsub. rewrite size_dom in Hsup, Hsub. lia.
Qed.

End Counting.

(** X22. In any store reached from one without brackets by start and vote
    requests, a bracket of [N] slots holds fewer than [N] recorded winners,
    and it holds exactly [N - 1] of them if and only if the tournament is
    [completed]. *)
Theorem served_votes_count
    (db0 : Routes.Db) (rqs : list Routes.Request) (id : string)
    (bracket : Routes.BracketState) :
  Routes.tournamentBracketState db0 = ∅ →
  Routes.tournamentBracketState (Routes.serve rqs db0) !! id = Some bracket →
  ∃ t,
    Routes.tournaments (Routes.serve rqs db0) !! id = Some t
    ∧ size (Routes.winnersJson bracket) < length (Routes.tracksJson bracket)
    ∧ (S (size (Routes.winnersJson bracket))
       = length (Routes.tracksJson bracket)
       ↔ Routes.status t = "completed").
Proof.
  intros Hfresh Hb.
  destruct (served_inPlay db0 rqs Hfresh id bracket Hb) as (k & t & Hinv).
  destruct Hinv. exists t. split; [done|]. rewrite play_length0.
  split; [by apply wellKeyed_size|].
  rewrite full_iff_champion by (done || lia).
  rewrite play_status0. unfold recorded. by destruct (truthy _).
Qed.

Lemma served_votes_count_witness :
  ∃ t,
    Routes.tournaments
      (Routes.serve Scenario.fullRun (Scenario.dbReady "top_tracks")) !! "t1"
    = Some t
    ∧ size (Routes.winnersJson (Scenario.bracketAt Scenario.dbCompleted))
      < length (Routes.tracksJson (Scenario.bracketAt Scenario.dbCompleted))
    ∧ (S (size (Routes.winnersJson (Scenario.bracketAt Scenario.dbCompleted)))
       = length (Routes.tracksJson (Scenario.bracketAt Scenario.dbCompleted))
       ↔ Routes.status t = "completed").
Proof.
  apply (served_votes_count (Scenario.dbReady "top_tracks") Scenario.fullRun
           "t1" (Scenario.bracketAt Scenario.dbCompleted)).
  - reflexivity.
  - vm_compute. reflexivity.
Defined.

(** X23. In any store reached from one without brackets by start and vote
    requests, every successful vote adds exactly one entry to the winners
    map of its bracket: no recorded winner is ever overwritten, and a
    bracket of [N] slots is complete after exactly [N - 1] successful
    votes. *)
Theorem vote_adds_one
    (db0 : Routes.Db) (rqs : list Routes.Request) (env : Routes.Env)
    (id : string) (body : Routes.VoteBody) (fw : option string)
    (db' : Routes.Db) :
  Routes.tournamentBracketState db0 = ∅ →
  Routes.vote env id body (Routes.serve rqs db0) = (Routes.Voted fw, db') →
  ∃ bracket bracket',
    Routes.tournamentBracketState (Routes.serve rqs db0) !! id = Some bracket
    ∧ Routes.tournamentBracketState db' !! id = Some bracket'
    ∧ Routes.winnersJson bracket ⊆ Routes.winnersJson bracket'
    ∧ size (Routes.winnersJson bracket') = S (size (Routes.winnersJson bracket))
    ∧ (S (size (Routes.winnersJson bracket'))
       = length (Routes.tracksJson bracket') ↔ is_Some fw).
Proof.
  intros Hfresh Hvote.
  pose proof (serve_consistent rqs db0 (consistent_fresh db0 Hfresh)) as Hdb.
  pose proof (vote_consistent env id body _ Hdb) as Hdb'.
  rewrite Hvote in Hdb'. cbn [snd] in Hdb'.
  apply vote_Voted_full in Hvote
    as (bracket & rounds & pa & pb & Hid & Hschema & Hb & Hr & Hround
        & Hmatch & Hfree & Hres & Hwin & Hfw & Hdb'eq).
  destruct (Hdb id bracket Hb) as (k & t & Hinv).
  assert (Routes.winnersJson bracket
            !! matchKey (Routes.vb_round body) (Routes.vb_match body) = None)
    as Hnone.
  { destruct (Routes.winnersJson bracket !! _) as [x|] eqn:Hx; [|done].
    destruct (play_keys _ _ _ _ _ Hinv _ x Hx) as [Hne _].
    apply truthy_Some in Hne. congruence. }
  pose proof (play_length _ _ _ _ _ Hinv) as Hlen.
  rewrite Hlen, totalRounds_pow2 in Hr. injection Hr as <-.
  eexists bracket, _. split; [done|].
  split; [rewrite Hdb'eq; cbn; apply lookup_insert_eq|]. cbn.
  split; [by apply insert_subseteq|].
  split; [by apply map_size_insert_None|].
  destruct (Hdb' id _ ltac:(rewrite Hdb'eq; cbn; apply lookup_insert_eq))
    as (k' & t' & Hinv').
  pose proof (play_length _ _ _ _ _ Hinv') as Hlen'. cbn in Hlen'.
  assert (k' = k) as ->.
  { rewrite Hlen in Hlen'. by apply (Nat.pow_inj_r 2) in Hlen'; [|lia]. }
  pose proof (play_rounds _ _ _ _ _ Hinv) as Hk.
  rewrite Hlen.
  rewrite (full_iff_champion k); [|lia|by destruct Hinv'..].
  unfold recorded. rewrite <- Hfw. split.
  - intros (x & -> & _)%truthy_spec. by eexists.
  - intros [x Hx]. rewrite Hx in Hfw |- *.
    destruct (play_keys _ _ _ _ _ Hinv' _ x (eq_sym Hfw)) as [Hne _].
    by apply truthy_Some.
Qed.

Lemma vote_adds_one_witness :
  ∃ bracket bracket',
    Routes.tournamentBracketState
      (Routes.serve [Routes.StartRequest Scenario.env "t1"]
         (Scenario.dbReady "top_tracks")) !! "t1" = Some bracket
    ∧ Routes.tournamentBracketState (Scenario.dbVoted "top_tracks") !! "t1"
      = Some bracket'
    ∧ Routes.winnersJson bracket ⊆ Routes.winnersJson bracket'
    ∧ size (Routes.winnersJson bracket') = S (size (Routes.winnersJson bracket))
    ∧ (S (size (Routes.winnersJson bracket'))
       = length (Routes.tracksJson bracket') ↔ is_Some (@None string)).
Proof.
  apply (vote_adds_one (Scenario.dbReady "top_tracks")
           [Routes.StartRequest Scenario.env "t1"] Scenario.env "t1"
           (Scenario.firstVote "top_tracks") None
           (Scenario.dbVoted "top_tracks")).
  - reflexivity.
  - vm_compute. reflexivity.
Defined.

(** ** A served bracket is never stuck *)

Section Filled.

Import Sizing Routes.

Lemma start_filled env id db :
  identified env → slotsFilled db → slotsFilled (start env id db).2.
Proof.
  intros Henv Hdb.
  destruct (start env id db) as [resp db'] eqn:Hstart. cbn [snd].
  apply start_cases in Hstart
    as [[-> _]|(_ & t & rows & bt & k & _ & -> & _ & _ & _ & _ & _ & _ & Hfrom)];
    [done|].
  intros id' bracket Hb. cbn in Hb.
  destruct (decide (id' = id)) as [->|Hne].
  - rewrite lookup_insert_eq in Hb. injection Hb as <-. cbn.
    apply Forall_forall. intros x Hx.
    destruct (Hfrom x Hx) as (user & arg & [Hin|Hin]);
      apply list_elem_of_fmap in Hin as (rt & -> & Hrt);
      destruct (Henv user arg) as [Hp Ht];
      [exact (proj1 (Forall_forall _ _) Hp rt Hrt)
      |exact (proj1 (Forall_forall _ _) Ht rt Hrt)].
  - rewrite lookup_insert_ne in Hb by done. by eapply Hdb.
Qed.

Lemma vote_filled env id body db :
  slotsFilled db → slotsFilled (vote env id body db).2.
Proof.
  intros Hdb.
  destruct (vote env id body db) as [resp db'] eqn:Hvote. cbn [snd].
  assert (failed resp → db' = db) as Hfail.
  { intros Hf. pose proof (vote_failed_unchanged env id body db) as Hsame.
    rewrite Hvote in Hsame. by apply Hsame. }
  destruct resp as [|fw|e c| |msg]; try (by rewrite Hfail).
  { pose proof (vote_never_Ok env id body db) as Hnot.
    by rewrite Hvote in Hnot. }
  apply vote_Voted_full in Hvote
    as (bracket & rounds & pa & pb & _ & _ & Hb & _ & _ & _ & _ & _ & _ & _
        & ->).
  intros id' bracket' Hb'. cbn in Hb'.
  destruct (decide (id' = id)) as [->|Hne].
  - rewrite lookup_insert_eq in Hb'. injection Hb' as <-. cbn.
    by eapply Hdb.
  - rewrite lookup_insert_ne in Hb' by done. by eapply Hdb.
Qed.

Lemma serve_filled rqs db :
  Forall startIdentified rqs → slotsFilled db → slotsFilled (serve rqs db).
Proof.
  intros Hrqs. revert db. induction Hrqs as [|rq rqs Hrq _ IH]; intros db Hdb;
    [done|].
  cbn. apply IH. destruct rq as [env id|env id body]; cbn.
  - by apply start_filled.
  - by apply vote_filled.
Qed.

End Filled.

(** X24. If the fetches of every start request hand out only tracks with
    identifiers, then in any store reached from one without brackets by
    start and vote requests every slot holds an identifier and no bracket
    is ever stuck: the state route proposes no next match if and only if
    the tournament is [completed]. *)
Theorem served_never_stuck
    (db0 : Routes.Db) (rqs : list Routes.Request) (id : string)
    (bracket : Routes.BracketState) :
  Routes.tournamentBracketState db0 = ∅ →
  Forall startIdentified rqs →
  id ≠ "" →
  Routes.tournamentBracketState (Routes.serve rqs db0) !! id = Some bracket →
  Forall (λ x, x ≠ "") (Routes.tracksJson bracket)
  ∧ ∃ tournament view,
      Routes.state id (Routes.serve rqs db0)
      = inr (Routes.InPlay tournament view)
      ∧ (Routes.bv_nextMatch view = None
         ↔ Routes.tnv_status tournament = "completed").
Proof.
  intros Hfresh Hrqs Hid Hb.
  assert (Forall (λ x, x ≠ "") (Routes.tracksJson bracket)) as Hids.
  { eapply (serve_filled rqs db0 Hrqs); [|exact Hb].
    intros id' bracket'. by rewrite Hfresh, lookup_empty. }
  split; [done|].
  destruct (served_inPlay db0 rqs Hfresh id bracket Hb) as (k & t & Hinv).
  destruct (inPlay_state
              {| Routes.requireUser := None;
                 Routes.fetchPlaylistTracks := λ _ _, [];
                 Routes.fetchUserTopTracks := λ _ _, [];
                 Routes.nowMs := 0 |} _ _ _ _ _ Hid Hb Hinv)
    as (tournament & view & Hstate & _ & _ & _ & _ & Hnext).
  exists tournament, view. split; [done|].
  destruct (Routes.bv_nextMatch view) as [nm|].
  - destruct Hnext as (-> & _). split; discriminate.
  - destruct (Hnext Hids) as (-> & _). done.
Qed.

Lemma served_never_stuck_witness :
  Forall (λ x, x ≠ "")
    (Routes.tracksJson (Scenario.bracketAt Scenario.dbCompleted))
  ∧ ∃ tournament view,
      Routes.state "t1"
        (Routes.serve Scenario.fullRun (Scenario.dbReady "top_tracks"))
      = inr (Routes.InPlay tournament view)
      ∧ (Routes.bv_nextMatch view = None
         ↔ Routes.tnv_status tournament = "completed").
Proof.
  apply (served_never_stuck (Scenario.dbReady "top_tracks") Scenario.fullRun
           "t1" (Scenario.bracketAt Scenario.dbCompleted)).
  - reflexivity.
  - apply Forall_forall. intros rq Hrq.
    assert (rq = Routes.StartRequest Scenario.env "t1"
            ∨ ∃ body, rq = Routes.VoteRequest Scenario.env "t1" body) as Hcase.
    { revert rq Hrq. apply Forall_forall. vm_compute.
      repeat (constructor;
              [first [left; reflexivity | right; eexists; reflexivity]|]).
      constructor. }
    destruct Hcase as [->|[body ->]]; [|exact I].
    intros user arg. cbn. destruct (String.eqb user "host");
      split; apply (bool_decide_unpack _); vm_compute; reflexivity.
  - discriminate.
  - vm_compute. reflexivity.
Defined.

(** ** Fetching a playlist page by page *)

Section Fetching.

Import Sizing Spotify.

Lemma takeItems_props want its out :
  ranked out →
  ∃ added,
    takeItems want its out = out ++ added
    ∧ ranked (out ++ added)
    ∧ length (out ++ added) ≤ want `max` length out
    ∧ map (λ rt, Some (trk_id rt)) added `sublist_of` its.
Proof.
  revert out. induction its as [|item rest IH]; intros out Hout.
  - exists []. rewrite app_nil_r. cbn. split; [done|]. split; [done|].
    split; [lia|done].
  - cbn [takeItems]. destruct (want <=? length out) eqn:Hfull.
    { exists []. rewrite app_nil_r. split; [done|]. split; [done|].
      split; [lia|apply sublist_nil_l]. }
    apply Nat.leb_gt in Hfull.
    destruct item as [x|]; cbn [truthy negb default].
    2: { destruct (IH out Hout) as (added & Heq & Hr & Hlen & Hsub).
         exists added. split; [done|]. split; [done|]. split; [done|].
         by apply sublist_cons. }
    destruct (String.eqb_spec x "") as [->|Hx]; cbn [negb].
    { destruct (IH out Hout) as (added & Heq & Hr & Hlen & Hsub).
      exists added. split; [done|]. split; [done|]. split; [done|].
      by apply sublist_cons. }
    simpl.
    destruct (IH (out ++ [{| rank := length out + 1; trk_id := x |}]))
      as (added & Heq & Hr & Hlen & Hsub).
    { destruct Hout as [Hranks Hids]. split.
      - rewrite map_app, length_app, Hranks. cbn [map length rank].
        rewrite Nat.add_1_r, seq_S. done.
      - apply Forall_app. split; [done|]. by repeat constructor. }
    rewrite <- app_assoc in Heq, Hr, Hlen. cbn [app] in Heq, Hr, Hlen.
    eexists. split; [exact Heq|]. split; [done|]. split.
    + rewrite length_app in Hlen |- *. cbn [length] in Hlen |- *.
      rewrite length_app in Hlen. cbn [length] in Hlen. lia.
    + cbn [map trk_id]. by apply sublist_skip.
Qed.

Lemma fetchLoop_props fuel pageAt want offset out result :
  ranked out → length out ≤ want →
  fetchLoop fuel pageAt want offset out = Some result →
  ∃ added n,
    result = out ++ added
    ∧ ranked result
    ∧ length result ≤ want
    ∧ map (λ rt, Some (trk_id rt)) added
      `sublist_of` flat_map (λ i, items (pageAt (offset + 100 * i))) (seq 0 n).
Proof.
  revert offset out. induction fuel as [|fuel IH]; intros offset out Hout Hlen;
    [done|].
  cbn [fetchLoop]. destruct (length out <? want) eqn:Hmore.
  2: { intros [= <-]. exists [], 0. rewrite app_nil_r. done. }
  destruct (takeItems_props want (items (pageAt offset)) out Hout)
    as (added & -> & Hr & Hlen' & Hsub).
  replace (want `max` length out) with want in Hlen' by lia.
  destruct (negb (truthy (next (pageAt offset)))).
  - intros [= <-]. exists added, 1. split; [done|]. split; [done|].
    split; [done|]. cbn. by rewrite Nat.add_0_r, app_nil_r.
  - intros Hres.
    destruct (IH _ _ Hr Hlen' Hres) as (added' & n & -> & Hr' & Hlen'' & Hsub').
    exists (added ++ added'), (S n). rewrite app_assoc.
    split; [done|]. split; [done|]. split; [done|].
    rewrite map_app. cbn [seq flat_map]. rewrite Nat.add_0_r.
    apply sublist_app; [done|].
    rewrite <- seq_shift, flat_map_concat_map, map_map,
      <- flat_map_concat_map.
    erewrite flat_map_ext; [exact Hsub'|].
    intros i. cbn. f_equal. f_equal. lia.
Qed.

Lemma fetchLoop_returns p pageAt want :
  ∀ offset out fuel,
    truthy (next (pageAt (offset + 100 * p))) = false → p < fuel →
    is_Some (fetchLoop (S p) pageAt want offset out)
    ∧ fetchLoop fuel pageAt want offset out
      = fetchLoop (S p) pageAt want offset out.
Proof.
  induction p as [|p IH]; intros offset out fuel Hlast Hfuel.
  - rewrite Nat.mul_0_r, Nat.add_0_r in Hlast.
    destruct fuel as [|fuel]; [lia|]. cbn [fetchLoop].
    destruct (length out <? want); [|done].
    rewrite Hlast. done.
  - destruct fuel as [|fuel]; [lia|].
    cbn [fetchLoop].
    destruct (length out <? want); [|done].
    destruct (negb (truthy (next (pageAt offset)))); [done|].
    apply IH; [|lia].
    by replace (offset + 100 + 100 * p) with (offset + 100 * S p) by lia.
Qed.

Lemma wantOf_range maxTracks : 1 ≤ wantOf maxTracks ≤ 200.
Proof. unfold wantOf. lia. Qed.

End Fetching.

(** X25. Whatever pages the endpoint serves, a list that
    [fetchPlaylistTracks] returns has at most
    [min(200, max(1, maxTracks))] tracks, each with a non-empty
    identifier, ranked 1, 2, 3, ... in order, and its identifiers occur in
    the same order among the items of the pages at offsets 0, 100,
    200, ... *)
Theorem fetchPlaylistTracks_result
    (fuel : nat) (pageAt : nat → Spotify.Page) (maxTracks : option Z)
    (out : list Sizing.RankedTrack) :
  Spotify.fetchPlaylistTracks fuel pageAt maxTracks = Some out →
  length out ≤ Spotify.wantOf maxTracks
  ∧ 1 ≤ Spotify.wantOf maxTracks ≤ 200
  ∧ map Sizing.rank out = seq 1 (length out)
  ∧ Forall (λ rt, Sizing.trk_id rt ≠ "") out
  ∧ ∃ n, map (λ rt, Some (Sizing.trk_id rt)) out
         `sublist_of` flat_map (λ i, Spotify.items (pageAt (100 * i)))
                        (seq 0 n).
Proof.
  unfold Spotify.fetchPlaylistTracks. intros Hres.
  apply fetchLoop_props in Hres
    as (added & n & -> & [Hranks Hids] & Hlen & Hsub);
    [|split; [done|constructor]|cbn; lia].
  cbn [app] in *. split; [done|]. split; [apply wantOf_range|].
  split; [done|]. split; [done|]. by exists n.
Qed.

Lemma fetchPlaylistTracks_result_witness :
  length [{| Sizing.rank := 1; Sizing.trk_id := "a" |};
          {| Sizing.rank := 2; Sizing.trk_id := "b" |}]
  ≤ Spotify.wantOf (Some 2%Z)
  ∧ 1 ≤ Spotify.wantOf (Some 2%Z) ≤ 200
  ∧ map Sizing.rank [{| Sizing.rank := 1; Sizing.trk_id := "a" |};
                     {| Sizing.rank := 2; Sizing.trk_id := "b" |}]
    = seq 1 (length [{| Sizing.rank := 1; Sizing.trk_id := "a" |};
                     {| Sizing.rank := 2; Sizing.trk_id := "b" |}])
  ∧ Forall (λ rt, Sizing.trk_id rt ≠ "")
      [{| Sizing.rank := 1; Sizing.trk_id := "a" |};
       {| Sizing.rank := 2; Sizing.trk_id := "b" |}]
  ∧ ∃ n, map (λ rt, Some (Sizing.trk_id rt))
           [{| Sizing.rank := 1; Sizing.trk_id := "a" |};
            {| Sizing.rank := 2; Sizing.trk_id := "b" |}]
         `sublist_of`
         flat_map (λ i, Spotify.items
                          ((λ _, {| Spotify.items :=
                                      [Some "a"; None; Some ""; Some "b";
                                       Some "c"];
                                    Spotify.next := Some "more" |})
                             (100 * i)))
           (seq 0 n).
Proof.
  apply (fetchPlaylistTracks_result 3
           (λ _, {| Spotify.items := [Some "a"; None; Some ""; Some "b";
                                      Some "c"];
                    Spotify.next := Some "more" |})
           (Some 2%Z)).
  vm_compute. reflexivity.
Defined.

(** X26. [fetchPlaylistTracks] returns as soon as a page announces no next
    page: if the page at offset [100 p] has no [next], the loop ends
    within [p + 1] requests, and more passes change nothing. *)
Theorem fetchPlaylistTracks_returns
    (p fuel : nat) (pageAt : nat → Spotify.Page) (maxTracks : option Z) :
  truthy (Spotify.next (pageAt (100 * p))) = false →
  p < fuel →
  ∃ out,
    Spotify.fetchPlaylistTracks (S p) pageAt maxTracks = Some out
    ∧ Spotify.fetchPlaylistTracks fuel pageAt maxTracks = Some out.
Proof.
  intros Hlast Hfuel. unfold Spotify.fetchPlaylistTracks.
  destruct (fetchLoop_returns p pageAt (Spotify.wantOf maxTracks) 0 [] fuel)
    as [[out Hout] Heq]; [done..|].
  exists out. by rewrite Heq.
Qed.

Lemma fetchPlaylistTracks_returns_witness :
  ∃ out,
    Spotify.fetchPlaylistTracks (S 1)
      (λ offset, {| Spotify.items := [Some "a"; None];
                    Spotify.next := if offset <? 100 then Some "more"
                                    else None |})
      None = Some out
    ∧ Spotify.fetchPlaylistTracks 5
        (λ offset, {| Spotify.items := [Some "a"; None];
                      Spotify.next := if offset <? 100 then Some "more"
                                      else None |})
        None = Some out.
Proof.
  apply (fetchPlaylistTracks_returns 1 5).
  - reflexivity.
  - lia.
Defined.

(** ** The sizes a tournament can be created with *)

Lemma bracketSizeSchema_table :
  forallb (λ i, Bool.eqb (Routes.bracketSizeSchema (Z.of_nat i))
                  (existsb (Nat.eqb i) [8; 16; 32; 64]))
          (seq 0 65) = true.
Proof. vm_compute. reflexivity. Qed.

(** X27. The body schema of the create route accepts exactly the bracket
    sizes 8, 16, 32 and 64. *)
Theorem bracketSizeSchema_sizes (n : Z) :
  Routes.bracketSizeSchema n = true
  ↔ (n = 8 ∨ n = 16 ∨ n = 32 ∨ n = 64)%Z.
Proof.
  split.
  - intros Hok.
    assert (8 <= n <= 64)%Z as Hrange.
    { unfold Routes.bracketSizeSchema in Hok.
      apply andb_true_iff in Hok as [Hok Hhi].
      apply andb_true_iff in Hok as [_ Hlo]. lia. }
    pose proof (proj1 (forallb_forall _ _) bracketSizeSchema_table
                  (Z.to_nat n)) as Hrow.
    specialize (Hrow ltac:(apply in_seq; lia)). cbv beta in Hrow.
    rewrite Z2Nat.id, Hok in Hrow by lia.
    apply Bool.eqb_prop in Hrow. symmetry in Hrow.
    apply existsb_exists in Hrow as (s & Hs & Heq).
    apply Nat.eqb_eq in Heq. cbn in Hs. lia.
  - intros [->|[->|[->| ->]]]; reflexivity.
Qed.
